(** * RDB2Neo4j: relational-to-graph ETL (src/ETL/etl_script.py)

    A shallow embedding of the three stages of the ETL script

      - [extract_relational_schema]  (metadata extractor),
      - [generate_initial_config]    (mapping inference),
      - [Neo4jImporter.import_data]  (batch importer),

    together with a model of the two Cypher statements the importer sends to
    the graph store, and the properties of the specification checked against
    them. *)

From Stdlib Require Import Ascii String.
From stdpp Require Import base option strings list gmap fin_sets.

Local Open Scope string_scope.
Local Open Scope list_scope.

(** ** Python string helpers

    [str.upper], [str.capitalize], [str.split(sep)] and [''.join], on the
    ASCII range (characters outside [a-z]/[A-Z] are left unchanged). *)
Module PyStr.

Definition upper_ascii (c : ascii) : ascii :=
  let n := nat_of_ascii c in
  if (97 <=? n)%nat && (n <=? 122)%nat then ascii_of_nat (n - 32) else c.

Definition lower_ascii (c : ascii) : ascii :=
  let n := nat_of_ascii c in
  if (65 <=? n)%nat && (n <=? 90)%nat then ascii_of_nat (n + 32) else c.

Fixpoint upper (s : string) : string :=
  match s with
  | EmptyString => EmptyString
  | String c r => String (upper_ascii c) (upper r)
  end.

Fixpoint lower (s : string) : string :=
  match s with
  | EmptyString => EmptyString
  | String c r => String (lower_ascii c) (lower r)
  end.

(** [s.capitalize()]: first character upper-cased, the rest lower-cased. *)
Definition capitalize (s : string) : string :=
  match s with
  | EmptyString => EmptyString
  | String c r => String (upper_ascii c) (lower r)
  end.

(** [s.split(sep)] for a one-character separator: always at least one
    piece, empty pieces are kept. *)
Fixpoint split (sep : ascii) (s : string) : list string :=
  match s with
  | EmptyString => [EmptyString]
  | String c r =>
      if Ascii.eqb c sep then EmptyString :: split sep r
      else match split sep r with
           | [] => [String c EmptyString]
           | w :: ws => String c w :: ws
           end
  end.

(** [''.join(ws)] *)
Definition join (ws : list string) : string := foldr String.append EmptyString ws.

(** [sep in s] *)
Definition contains (sep : ascii) (s : string) : Prop :=
  sep ∈ list_ascii_of_string s.

Global Instance contains_dec sep s : Decision (contains sep s).
Proof. unfold contains. apply _. Defined.

End PyStr.

(** ** Python dictionaries with string keys, in insertion order

    [d[k] = v] keeps the position of an existing key and appends a new one;
    a dict comprehension is a sequence of such assignments. *)
Module PyDict.

Definition dict (V : Type) : Type := list (string * V).

Definition mem {V} (k : string) (d : dict V) : bool := bool_decide (k ∈ d.*1).

Definition set {V} (k : string) (v : V) (d : dict V) : dict V :=
  if mem k d
  then (λ kv : string * V, if bool_decide (kv.1 = k) then (k, v) else kv) <$> d
  else d ++ [(k, v)].

Definition of_pairs {V} (l : list (string * V)) : dict V :=
  foldl (λ d kv, set kv.1 kv.2 d) [] l.

(** [{col: col for col in cols}] *)
Definition identity (cols : list string) : dict string :=
  of_pairs ((λ c, (c, c)) <$> cols).

End PyDict.

(** ** The extracted relational schema (the [schema] dictionary) *)

(** An entry of [schema["tables"]]. *)
Record table := Table {
  tbl_name : string;
  tbl_columns : list string;
  tbl_primary_key : option string
}.

(** An entry of [schema["foreign_keys"]]. *)
Record foreign_key := ForeignKey {
  fk_from_table : string;
  fk_from_column : string;
  fk_to_table : string;
  fk_to_column : string
}.

Record schema := Schema {
  tables : list table;
  foreign_keys : list foreign_key
}.

Global Instance table_eq_dec : EqDecision table.
Proof. solve_decision. Defined.
Global Instance foreign_key_eq_dec : EqDecision foreign_key.
Proof. solve_decision. Defined.
Global Instance schema_eq_dec : EqDecision schema.
Proof. solve_decision. Defined.

(** ** Step 1: [extract_relational_schema]

    The INFORMATION_SCHEMA is a [catalog]: the rows each of the four
    queries returns.  The cursor is the one of mysql.connector opened by
    [conn.cursor()] (unbuffered): [execute] raises a [mysql.connector.Error]
    ("Unread result found") while rows of the previous statement are still
    unread; [fetchall] reads them all, [fetchone] reads one. *)
Module Extractor.

Record catalog := Catalog {
  cat_tables : list string;                (* table_name rows *)
  cat_columns : string → list string;      (* column_name rows, by ordinal *)
  cat_primary_key : string → list string;  (* PRIMARY KEY column_name rows *)
  cat_foreign_keys : list foreign_key      (* the foreign-key rows *)
}.

(** Rows of the current statement not yet fetched. *)
Record cursor := Cursor {
  unread_names : list string;
  unread_fks : list foreign_key
}.

Definition fresh : cursor := Cursor [] [].

Definition has_unread (cur : cursor) : bool :=
  match unread_names cur, unread_fks cur with
  | [], [] => false
  | _, _ => true
  end.

(** [cursor.execute(...)] of a one-column statement with result [rows];
    [None] is the raised driver error. *)
Definition execute (rows : list string) (cur : cursor) : option cursor :=
  if has_unread cur then None else Some (Cursor rows []).

Definition execute_fks (rows : list foreign_key) (cur : cursor) : option cursor :=
  if has_unread cur then None else Some (Cursor [] rows).

Definition fetchall (cur : cursor) : list string * cursor :=
  (unread_names cur, Cursor [] (unread_fks cur)).

Definition fetchone (cur : cursor) : option string * cursor :=
  (head (unread_names cur), Cursor (tail (unread_names cur)) (unread_fks cur)).

Definition fetchall_fks (cur : cursor) : list foreign_key * cursor :=
  (unread_fks cur, Cursor (unread_names cur) []).

(** The body of [for table_name in tables] (lines 60-81), threaded through
    the tables appended so far; the second component is [None] once a
    statement raised. *)
Fixpoint extract_tables (cat : catalog) (names : list string)
    (acc : list table) (cur : cursor) : list table * option cursor :=
  match names with
  | [] => (acc, Some cur)
  | table_name :: rest =>
      match execute (cat_columns cat table_name) cur with
      | None => (acc, None)
      | Some cur =>
          let '(columns, cur) := fetchall cur in
          match execute (cat_primary_key cat table_name) cur with
          | None => (acc, None)
          | Some cur =>
              let '(pk_result, cur) := fetchone cur in
              let primary_key := pk_result in
              extract_tables cat rest
                (acc ++ [Table table_name columns primary_key]) cur
          end
      end
  end.

(** [extract_relational_schema()]: a raised error is printed and the
    schema filled so far is returned. *)
Definition extract_relational_schema (cat : catalog) : schema :=
  match execute (cat_tables cat) fresh with
  | None => Schema [] []
  | Some cur =>
      let '(tables, cur) := fetchall cur in
      match extract_tables cat tables [] cur with
      | (tbls, None) => Schema tbls []
      | (tbls, Some cur) =>
          match execute_fks (cat_foreign_keys cat) cur with
          | None => Schema tbls []
          | Some cur => Schema tbls (fetchall_fks cur).1
          end
      end
  end.

End Extractor.

(** ** The mapping configuration ([config.json]) *)

(** An entry of [config["nodes"]]. *)
Record node_def := NodeDef {
  nd_source_table : string;
  nd_label : string;
  nd_properties : PyDict.dict string;     (* rdb column -> graph property *)
  nd_primary_key : option string          (* JSON null is [None] *)
}.

(** An entry of [config["relationships"]]; a key the dictionary does not
    have is [None]. *)
Record rel_def := RelDef {
  rd_source_foreign_key : option string;  (* "table.column" *)
  rd_source_link_table : option string;
  rd_type : string;
  rd_from_node_table : string;
  rd_to_node_table : string;
  rd_direction : option string;
  rd_properties : PyDict.dict string
}.

Record config := Config {
  nodes : list node_def;
  relationships : list rel_def
}.

Global Instance node_def_eq_dec : EqDecision node_def.
Proof. solve_decision. Defined.
Global Instance rel_def_eq_dec : EqDecision rel_def.
Proof. solve_decision. Defined.
Global Instance config_eq_dec : EqDecision config.
Proof. solve_decision. Defined.

(** ** Step 2: [generate_initial_config] *)
Module Inference.

(** [[fk['from_column'] for fk in schema['foreign_keys']
      if fk['from_table'] == table['name']]] *)
Definition fk_columns (sd : schema) (t : table) : list string :=
  fk_from_column <$>
    filter (λ fk, fk_from_table fk = tbl_name t) (foreign_keys sd).

(** The test of line 119. *)
Definition is_pure_link (sd : schema) (t : table) : bool :=
  bool_decide (length (tbl_columns t)
               = size (list_to_set (fk_columns sd t) : gset string))
  && bool_decide (tbl_primary_key t = None).

(** [''.join(word.capitalize() for word in name.split('_'))] *)
Definition label_of (name : string) : string :=
  PyStr.join (PyStr.capitalize <$> PyStr.split "_" name).

Definition node_mapping (t : table) : node_def :=
  {| nd_source_table := tbl_name t;
     nd_label := label_of (tbl_name t);
     nd_properties := PyDict.identity (tbl_columns t);
     nd_primary_key := tbl_primary_key t |}.

(** First loop (lines 116-129). *)
Definition nodes_step (sd : schema) (acc : list node_def) (t : table)
    : list node_def :=
  if is_pure_link sd t then acc else acc ++ [node_mapping t].

Definition generate_nodes (sd : schema) : list node_def :=
  foldl (nodes_step sd) [] (tables sd).

Definition from_table_is_entity (nds : list node_def) (fk : foreign_key) : bool :=
  existsb (λ node, bool_decide (nd_source_table node = fk_from_table fk)) nds.

Definition related_fks (sd : schema) (fk : foreign_key) : list foreign_key :=
  filter (λ f, fk_from_table f = fk_from_table fk) (foreign_keys sd).

(** [next((t['columns'] for t in schema['tables']
           if t['name'] == fk['from_table']), [])] *)
Definition link_table_cols (sd : schema) (fk : foreign_key) : list string :=
  from_option tbl_columns []
    (head (filter (λ t, tbl_name t = fk_from_table fk) (tables sd))).

Definition link_rel (sd : schema) (fk fk1 fk2 : foreign_key) : rel_def :=
  let link_fk_cols := fk_from_column <$> related_fks sd fk in
  let prop_cols :=
    filter (λ col, col ∉ link_fk_cols) (link_table_cols sd fk) in
  {| rd_source_foreign_key := None;
     rd_source_link_table := Some (fk_from_table fk);
     rd_type := "HAS_" +:+ PyStr.upper (fk_to_table fk2);
     rd_from_node_table := fk_to_table fk1;
     rd_to_node_table := fk_to_table fk2;
     rd_direction := None;
     rd_properties := PyDict.identity prop_cols |}.

Definition direct_rel (fk : foreign_key) : rel_def :=
  {| rd_source_foreign_key :=
       Some (fk_from_table fk +:+ "." +:+ fk_from_column fk);
     rd_source_link_table := None;
     rd_type := "HAS_" +:+ PyStr.upper (fk_to_table fk);
     rd_from_node_table := fk_from_table fk;
     rd_to_node_table := fk_to_table fk;
     rd_direction := Some "OUT";
     rd_properties := [] |}.

(** Second loop (lines 131-163). *)
Definition rels_step (sd : schema) (nds : list node_def)
    (acc : list rel_def) (fk : foreign_key) : list rel_def :=
  if negb (from_table_is_entity nds fk) then
    match related_fks sd fk with
    | fk1 :: fk2 :: _ =>
        let rel := link_rel sd fk fk1 fk2 in
        if existsb (λ r, bool_decide (rd_source_link_table r
                                      = rd_source_link_table rel)) acc
        then acc
        else acc ++ [rel]
    | _ => acc
    end
  else acc ++ [direct_rel fk].

Definition generate_relationships (sd : schema) (nds : list node_def)
    : list rel_def :=
  foldl (rels_step sd nds) [] (foreign_keys sd).

(** The configuration written to [config.json]. *)
Definition generate_initial_config (sd : schema) : config :=
  let nds := generate_nodes sd in
  {| nodes := nds; relationships := generate_relationships sd nds |}.

End Inference.

(** ** Steps 3 and 4: [Neo4jImporter]

    The importer talks to two outside systems.  What it asks of them is
    recorded as a trace of [event]s: the SQL statements executed on the
    relational cursor and the Cypher statements passed to
    [neo4j_graph.run].  The relational source answers from its tables
    ([run_sql]); the graph store is modelled further below.  An SQL
    statement that raises is not caught inside [import_data]: the run stops
    there. *)
Section Importer.

(** [decimal.Decimal], [datetime.date]/[datetime.datetime] and [float]
    values, with the two library conversions applied to them. *)
Context {Decimal Temporal Float : Type}.
Context `{!EqDecision Decimal, !EqDecision Temporal, !EqDecision Float}.
Variable float_of_decimal : Decimal → Float.
Variable isoformat : Temporal → string.

(** Column values as the MySQL driver returns them. *)
Inductive value :=
  | VNone                       (* None, SQL NULL *)
  | VInt (n : Z)
  | VStr (s : string)
  | VFloat (f : Float)
  | VDecimal (d : Decimal)
  | VTemporal (t : Temporal).

Global Instance value_eq_dec : EqDecision value.
Proof. solve_decision. Defined.

Definition convert_value_for_neo4j (v : value) : value :=
  match v with
  | VDecimal d => VFloat (float_of_decimal d)
  | VTemporal t => VStr (isoformat t)
  | _ => v
  end.

(** A dictionary with string keys whose order is never observed: a row of
    a [dictionary=True] cursor, a property map sent to the store. *)
Abbreviation props := (gmap string value).

(** [d.get(k)]; the key may be [None], which no such dictionary has. *)
Definition dict_get (d : props) (k : option string) : value :=
  match k with
  | Some k => default VNone (d !! k)
  | None => VNone
  end.

(** How an f-string prints an optional name. *)
Definition py_str (o : option string) : string := default "None" o.

(** *** The relational source *)

Record rdb_table := RdbTable {
  rt_columns : list string;
  rt_rows : list props
}.

Inductive sql_query :=
  | SelectAll (t : string)               (* SELECT * FROM `t` *)
  | SelectCols (c1 c2 : string) (t : string).  (* SELECT `c1`, `c2` FROM `t` *)

(** The rows a statement returns, [None] when the server rejects it
    (unknown table or column). *)
Definition run_sql (db : gmap string rdb_table) (q : sql_query)
    : option (list props) :=
  match q with
  | SelectAll t => rt_rows <$> db !! t
  | SelectCols c1 c2 t =>
      match db !! t with
      | Some tb =>
          if bool_decide (c1 ∈ rt_columns tb ∧ c2 ∈ rt_columns tb)
          then Some ((λ r : props,
                        <[c2 := dict_get r (Some c2)]>
                          (<[c1 := dict_get r (Some c1)]> (∅ : props)))
                     <$> rt_rows tb)
          else None
      | None => None
      end
  end.

(** *** Requests to the graph store *)

(** An element of [data_list]; the direct variant has no ["props"] key. *)
Record rel_datum := RelDatum {
  from_id : value;
  to_id : value;
  rel_props : option props
}.

(** The two statements, with the names interpolated into the text and the
    list bound to the parameter. *)
Inductive graph_call :=
  | MergeNodes (label id_prop : string) (valid_props : list props)
  | MergeRels (from_label from_pk to_label to_pk rel_type : string)
              (data_list : list rel_datum).

Inductive event :=
  | SqlExecute (q : sql_query)
  | GraphRun (c : graph_call).

(** *** Traces with an early stop *)

Definition M (A : Type) : Type := list event * option A.

Definition ret {A} (a : A) : M A := ([], Some a).

Definition raise {A} : M A := ([], None).

Definition bind {A B} (m : M A) (f : A → M B) : M B :=
  match m with
  | (tr, Some a) => let '(tr', b) := f a in (tr ++ tr', b)
  | (tr, None) => (tr, None)
  end.

Definition emit (e : event) : M unit := ([e], Some tt).

Fixpoint for_each {A} (body : A → M unit) (l : list A) : M unit :=
  match l with
  | [] => ret tt
  | x :: rest => bind (body x) (λ _, for_each body rest)
  end.

(** [rdb_cursor.execute(q)] followed by iteration over the cursor. *)
Definition execute (db : gmap string rdb_table) (q : sql_query)
    : M (list props) :=
  ([SqlExecute q], run_sql db q).

(** *** The two batch writers *)

Definition _merge_nodes_batch (label : string) (id_prop : option string)
    (prop_list : list props) : M unit :=
  match prop_list with
  | [] => ret tt
  | _ =>
      let valid_props :=
        filter (λ p, dict_get p id_prop ≠ VNone) prop_list in
      match valid_props with
      | [] => ret tt
      | _ => emit (GraphRun (MergeNodes label (py_str id_prop) valid_props))
      end
  end.

Definition _merge_rels_batch (from_label : string) (from_pk : option string)
    (to_label : string) (to_pk : option string) (rel_type : string)
    (data_list : list rel_datum) : M unit :=
  match data_list with
  | [] => ret tt
  | _ => emit (GraphRun (MergeRels from_label (py_str from_pk)
                                   to_label (py_str to_pk) rel_type data_list))
  end.

(** *** [import_data] *)

Definition batch_size : nat := 1000.

(** The accumulate-and-flush loop over the cursor: [pending] is the list
    being filled, flushed when it reaches [batch_size] and once more, if
    not empty, after the last row. *)
Fixpoint batched {A} (flush : list A → M unit) (pending : list A)
    (items : list A) : M unit :=
  match items with
  | [] => match pending with [] => ret tt | _ => flush pending end
  | x :: rest =>
      let pending := pending ++ [x] in
      if bool_decide (batch_size ≤ length pending)%nat
      then bind (flush pending) (λ _, batched flush [] rest)
      else batched flush pending rest
  end.

(** [{neo4j_prop: convert_value_for_neo4j(row.get(rdb_col))
      for rdb_col, neo4j_prop in properties_map.items()}] *)
Definition row_props (properties_map : PyDict.dict string) (row : props)
    : props :=
  foldl (λ (acc : props) (kv : string * string),
           <[kv.2 := convert_value_for_neo4j (dict_get row (Some kv.1))]> acc)
        ∅ properties_map.

(** Body of the node loop (lines 224-250). *)
Definition import_node (db : gmap string rdb_table) (node_def : node_def)
    : M unit :=
  let table_name := nd_source_table node_def in
  let node_label := nd_label node_def in
  let id_property := nd_primary_key node_def in
  let properties_map := nd_properties node_def in
  bind (execute db (SelectAll table_name)) (λ rows,
    batched (_merge_nodes_batch node_label id_property) []
            (row_props properties_map <$> rows)).

(** [next((n for n in schema_config['nodes']
           if n['source_table'] == t), None)] *)
Definition node_config (cfg : config) (t : string) : option node_def :=
  head (filter (λ n, nd_source_table n = t) (nodes cfg)).

(** [next((fk['from_column'] for fk in schema_data['foreign_keys']
           if fk['from_table'] == link and fk['to_table'] == t), None)] *)
Definition link_fk_col (schema_data : schema) (link_table_name t : string)
    : option string :=
  head (fk_from_column <$>
          filter (λ fk, fk_from_table fk = link_table_name ∧ fk_to_table fk = t)
                 (foreign_keys schema_data)).

(** [not x] for an optional string. *)
Definition falsy (o : option string) : bool :=
  match o with
  | None => true
  | Some s => bool_decide (s = "")
  end.

Definition direct_datum (from_pk : option string) (fk_column : string)
    (row : props) : rel_datum :=
  {| from_id := dict_get row from_pk;
     to_id := dict_get row (Some fk_column);
     rel_props := None |}.

Definition link_datum (rel_def : rel_def) (from_fk_col to_fk_col : option string)
    (row : props) : rel_datum :=
  {| from_id := dict_get row from_fk_col;
     to_id := dict_get row to_fk_col;
     rel_props := Some (row_props (rd_properties rel_def) row) |}.

(** Body of the relationship loop (lines 254-318).  [schema_data] is the
    module-level variable assigned under [__main__] that line 293 and
    294 read. *)
Definition import_rel (schema_config : config) (schema_data : schema)
    (db : gmap string rdb_table) (rel_def : rel_def) : M unit :=
  let from_table := rd_from_node_table rel_def in
  let to_table := rd_to_node_table rel_def in
  let rel_type := rd_type rel_def in
  match node_config schema_config from_table,
        node_config schema_config to_table with
  | Some from_node_config, Some to_node_config =>
      let from_label := nd_label from_node_config in
      let from_pk := nd_primary_key from_node_config in
      let to_label := nd_label to_node_config in
      let to_pk := nd_primary_key to_node_config in
      let flush :=
        _merge_rels_batch from_label from_pk to_label to_pk rel_type in
      match rd_source_foreign_key rel_def with
      | Some source_foreign_key =>
          match PyStr.split "." source_foreign_key with
          | source_table_name :: fk_column :: _ =>
              bind (execute db (SelectCols (py_str from_pk) fk_column
                                           source_table_name))
                   (λ rows, batched flush []
                              (direct_datum from_pk fk_column <$> rows))
          | _ => raise
          end
      | None =>
          match rd_source_link_table rel_def with
          | Some link_table_name =>
              let from_fk_col :=
                link_fk_col schema_data link_table_name from_table in
              let to_fk_col :=
                link_fk_col schema_data link_table_name to_table in
              if falsy from_fk_col || falsy to_fk_col then ret tt
              else
                bind (execute db (SelectAll link_table_name))
                     (λ rows, batched flush []
                                (link_datum rel_def from_fk_col to_fk_col
                                   <$> rows))
          | None => ret tt
          end
      end
  | _, _ => ret tt
  end.

(** [import_data], once the graph connection is open and [config.json] has
    been read into [schema_config] (without either the method returns at
    once). *)
Definition import_data (schema_config : config) (schema_data : schema)
    (db : gmap string rdb_table) : M unit :=
  bind (for_each (import_node db) (nodes schema_config))
       (λ _, for_each (import_rel schema_config schema_data db)
                      (relationships schema_config)).

Definition trace {A} (m : M A) : list event := m.1.

(** *** The graph store

    A property graph: nodes with labels and properties, relationships
    between node positions.  Nodes are only ever appended, so a position
    identifies a node for good.  Property values are compared
    structurally.

    The driver may refuse to encode a Python value ([encodable]), and the
    direct variant binds no ["props"] key, so its [ON CREATE SET r =
    map.props] assigns null: [null_map_as] is what the store makes of
    that, [None] when it raises a type error and [Some m] when it takes
    the null for the map [m].  Both are left open.  [neo4j_graph.run]
    runs a statement in a transaction of its own: a statement that raises
    changes nothing, and the importer catches and prints the error. *)
Variable encodable : value → bool.
Variable null_map_as : option props.

Record gnode := GraphNode {
  gn_labels : list string;
  gn_props : props
}.

Record grel := GraphRel {
  gr_start : nat;
  gr_type : string;
  gr_end : nat;
  gr_props : props
}.

Record graph := Graph {
  g_nodes : list gnode;
  g_rels : list grel
}.

Global Instance gnode_eq_dec : EqDecision gnode.
Proof. solve_decision. Defined.
Global Instance grel_eq_dec : EqDecision grel.
Proof. solve_decision. Defined.
Global Instance graph_eq_dec : EqDecision graph.
Proof. solve_decision. Defined.

Definition empty_graph : graph := Graph [] [].

(** A stored property map has no null entry. *)
Definition non_null (m : props) : props :=
  filter (λ kv : string * value, kv.2 ≠ VNone) m.

(** [SET n += map]: the entries of [map] replace those of the node, a null
    entry removes the property, the other properties stay. *)
Definition set_plus (m : props) (n : gnode) : gnode :=
  {| gn_labels := gn_labels n;
     gn_props := non_null m ∪ (gn_props n ∖ m) |}.

(** The pattern [(n:`L` {`k`: v})]; a null [v] matches nothing. *)
Definition node_matches (L k : string) (v : value) (n : gnode) : bool :=
  bool_decide (v ≠ VNone)
  && bool_decide (L ∈ gn_labels n)
  && bool_decide (gn_props n !! k = Some v).

(** One row of
    [UNWIND $props AS map MERGE (n:`L` {`k`: map.`k`}) SET n += map]:
    every node that carries the label and the key value is updated, and a
    node is created first when there is none.  MERGE refuses a null
    property value.  The rows of a statement take effect in order, each
    one seeing the nodes the earlier ones created. *)
Definition merge_node_row (L k : string) (ns : list gnode) (m : props)
    : option (list gnode) :=
  let v := dict_get m (Some k) in
  if bool_decide (v = VNone) then None
  else if existsb (node_matches L k v) ns
  then Some ((λ n, if node_matches L k v n then set_plus m n else n) <$> ns)
  else Some (ns ++ [set_plus m (GraphNode [L] {[k := v]})]).

Fixpoint merge_node_rows (L k : string) (ns : list gnode) (ms : list props)
    : option (list gnode) :=
  match ms with
  | [] => Some ns
  | m :: rest =>
      match merge_node_row L k ns m with
      | Some ns' => merge_node_rows L k ns' rest
      | None => None
      end
  end.

(** Positions of the nodes a [MATCH (a:`L` {`k`: v})] binds. *)
Definition matching_nodes (L k : string) (v : value) (ns : list gnode)
    : list nat :=
  filter (λ i, from_option (node_matches L k v) false (ns !! i) = true)
         (seq 0 (length ns)).

Definition rel_between (a : nat) (ty : string) (b : nat) (r : grel) : bool :=
  bool_decide (gr_start r = a ∧ gr_type r = ty ∧ gr_end r = b).

(** [MERGE (a)-[r:`ty`]->(b) ON CREATE SET r = map.props] for one bound
    pair. *)
Definition assigned_map (p : option props) : option props :=
  match p with
  | Some m => Some m
  | None => null_map_as
  end.

Definition merge_rel_pair (ty : string) (p : option props)
    (rs : list grel) (ab : nat * nat) : option (list grel) :=
  if existsb (rel_between ab.1 ty ab.2) rs then Some rs
  else
    match assigned_map p with
    | Some m => Some (rs ++ [GraphRel ab.1 ty ab.2 (non_null m)])
    | None => None
    end.

Fixpoint merge_rel_pairs (ty : string) (p : option props)
    (rs : list grel) (abs : list (nat * nat)) : option (list grel) :=
  match abs with
  | [] => Some rs
  | ab :: rest =>
      match merge_rel_pair ty p rs ab with
      | Some rs' => merge_rel_pairs ty p rs' rest
      | None => None
      end
  end.

(** One row of the relationship statement: both MATCHes, then the MERGE
    for every bound pair. *)
Definition merge_rel_row (fl fk tl tk ty : string) (ns : list gnode)
    (rs : list grel) (d : rel_datum) : option (list grel) :=
  merge_rel_pairs ty (rel_props d) rs
    (list_prod (matching_nodes fl fk (from_id d) ns)
               (matching_nodes tl tk (to_id d) ns)).

Fixpoint merge_rel_rows (fl fk tl tk ty : string) (ns : list gnode)
    (rs : list grel) (ds : list rel_datum) : option (list grel) :=
  match ds with
  | [] => Some rs
  | d :: rest =>
      match merge_rel_row fl fk tl tk ty ns rs d with
      | Some rs' => merge_rel_rows fl fk tl tk ty ns rs' rest
      | None => None
      end
  end.

Definition props_encodable (m : props) : bool :=
  bool_decide (map_Forall (λ _ v, encodable v = true) m).

Definition datum_encodable (d : rel_datum) : bool :=
  encodable (from_id d) && encodable (to_id d)
  && from_option props_encodable true (rel_props d).

(** [self.neo4j_graph.run(query, ...)] inside its [try]. *)
Definition run_call (g : graph) (c : graph_call) : graph :=
  match c with
  | MergeNodes L k ms =>
      if forallb props_encodable ms then
        match merge_node_rows L k (g_nodes g) ms with
        | Some ns => Graph ns (g_rels g)
        | None => g
        end
      else g
  | MergeRels fl fk tl tk ty ds =>
      if forallb datum_encodable ds then
        match merge_rel_rows fl fk tl tk ty (g_nodes g) (g_rels g) ds with
        | Some rs => Graph (g_nodes g) rs
        | None => g
        end
      else g
  end.

Definition run_event (g : graph) (e : event) : graph :=
  match e with
  | SqlExecute _ => g
  | GraphRun c => run_call g c
  end.

(** The store after the requests of a trace, in order. *)
Definition run_trace (g : graph) (tr : list event) : graph :=
  foldl run_event g tr.

(** The (label, identifying property) pairs of the node mappings that
    have an identifying property. *)
Definition node_keys (cfg : config) : list (string * string) :=
  omap (λ nd, pair (nd_label nd) <$> nd_primary_key nd) (nodes cfg).

(** Mappings that write the same label identify its nodes by the same
    property. *)
Definition keys_consistent (K : list (string * string)) : Prop :=
  Forall (λ p, Forall (λ q, p.1 = q.1 → p.2 = q.2) K) K.

(** A node does not carry the labels of two mappings with different
    identifying properties. *)
Definition node_ok (K : list (string * string)) (n : gnode) : Prop :=
  Forall (λ p, Forall (λ q, p.1 ∈ gn_labels n → q.1 ∈ gn_labels n →
                            p.2 = q.2) K) K.

(** The store after one run of the importer. *)
Definition import_into (schema_config : config) (schema_data : schema)
    (db : gmap string rdb_table) (g : graph) : graph :=
  run_trace g (trace (import_data schema_config schema_data db)).


(** *** The node statement as a sequence of row updates

    A row of a node statement together with the label and the key property
    of its statement. *)
Definition row_value (r : string * string * props) : value :=
  dict_get r.2 (Some r.1.2).

Definition row_matches (r : string * string * props) (n : gnode) : bool :=
  node_matches r.1.1 r.1.2 (row_value r) n.

Definition row_update (r : string * string * props) (n : gnode) : gnode :=
  if row_matches r n then set_plus r.2 n else n.

Definition row_new (r : string * string * props) : gnode :=
  set_plus r.2 (GraphNode [r.1.1] {[r.1.2 := row_value r]}).

Definition row_step (ns : list gnode) (r : string * string * props)
    : list gnode :=
  if existsb (row_matches r) ns then row_update r <$> ns
  else ns ++ [row_new r].

Definition apply_rows (rows : list (string * string * props)) (n : gnode)
    : gnode :=
  foldl (λ n r, row_update r n) n rows.

Definition row_ok (K : list (string * string)) (r : string * string * props)
    : Prop :=
  r.1 ∈ K ∧ row_value r ≠ VNone.

(** The state of the node loop after the rows [done_rows]: every node is
    key-consistent and unchanged by replaying the rows on it, and every row
    has a node it matches. *)
Definition rows_settled (K : list (string * string))
    (done_rows : list (string * string * props)) (ns : list gnode) : Prop :=
  Forall (node_ok K) ns
  ∧ Forall (λ n, apply_rows done_rows n = n) ns
  ∧ Forall (λ r, Exists (λ n, row_matches r n = true) ns) done_rows.

(** The rows a trace hands to the store in statements the driver encodes. *)
Definition event_rows (e : event) : list (string * string * props) :=
  match e with
  | GraphRun (MergeNodes L k ms) =>
      if forallb props_encodable ms then (λ m, (L, k, m)) <$> ms else []
  | _ => []
  end.

Definition node_rows (tr : list event) : list (string * string * props) :=
  tr ≫= event_rows.

(** What the node loop emits for a configuration with keys [K]. *)
Definition node_event_ok (K : list (string * string)) (e : event) : Prop :=
  match e with
  | SqlExecute _ => True
  | GraphRun (MergeNodes L k ms) =>
      (L, k) ∈ K ∧ Forall (λ m, dict_get m (Some k) ≠ VNone) ms
  | GraphRun (MergeRels _ _ _ _ _ _) => False
  end.

(** What the relationship loop emits: the entries of one statement all
    carry a property map, or none does. *)
Definition rel_event_ok (e : event) : Prop :=
  match e with
  | SqlExecute _ => True
  | GraphRun (MergeNodes _ _ _) => False
  | GraphRun (MergeRels _ _ _ _ _ ds) =>
      Forall (λ d, rel_props d = None) ds
      ∨ Forall (λ d, is_Some (rel_props d)) ds
  end.

(** *** The relationship statement

    The pairs of node positions one entry binds, and whether a pair already
    has its relationship. *)
Definition datum_pairs (fl fk tl tk : string) (ns : list gnode)
    (d : rel_datum) : list (nat * nat) :=
  list_prod (matching_nodes fl fk (from_id d) ns)
            (matching_nodes tl tk (to_id d) ns).

Definition linked (ty : string) (rs : list grel) (ab : nat * nat) : Prop :=
  existsb (rel_between ab.1 ty ab.2) rs = true.

(** *** Example inputs *)

(** A mapping without identifying property over a one-row table. *)
Definition keyless_config : config :=
  Config [NodeDef "t" "T" [("c", "c")] None] [].

Definition keyless_db : gmap string rdb_table :=
  {["t" := RdbTable ["c"] [({["c" := VInt 7]} : props)]]}.

(** Two mappings that write the same label under different identifying
    properties: the generated configuration of tables [user_role(id, name)]
    with key [id] and [user__role(name, id)] with key [name]. *)
Definition shared_label_schema : schema :=
  Schema [Table "user_role" ["id"; "name"] (Some "id");
          Table "user__role" ["name"; "id"] (Some "name")] [].

Definition shared_label_db : gmap string rdb_table :=
  <["user_role" :=
      RdbTable ["id"; "name"]
        [(<["id" := VInt 1]> {["name" := VStr "x"]} : props)]]>
    {["user__role" :=
        RdbTable ["name"; "id"]
          [(<["id" := VInt 2]> {["name" := VStr "x"]} : props)]]}.

(** A junction table [lt(a_id, b_id)] between [a(id)] and [b(id)], its
    hand-written mapping, and two contents of [schema_data]. *)
Definition junction_config : config :=
  Config [NodeDef "a" "A" [("id", "id")] (Some "id");
          NodeDef "b" "B" [("id", "id")] (Some "id")]
         [RelDef None (Some "lt") "HAS_B" "a" "b" None []].

Definition junction_db : gmap string rdb_table :=
  <["a" := RdbTable ["id"] [({["id" := VInt 1]} : props)]]>
    (<["b" := RdbTable ["id"] [({["id" := VInt 2]} : props)]]>
       {["lt" := RdbTable ["a_id"; "b_id"]
                   [(<["a_id" := VInt 1]> {["b_id" := VInt 2]} : props)]]}).

Definition junction_schema_with_fks : schema :=
  Schema [Table "a" ["id"] (Some "id"); Table "b" ["id"] (Some "id");
          Table "lt" ["a_id"; "b_id"] None]
         [ForeignKey "lt" "a_id" "a" "id"; ForeignKey "lt" "b_id" "b" "id"].

Definition junction_schema_without_fks : schema :=
  Schema [Table "a" ["id"] (Some "id"); Table "b" ["id"] (Some "id");
          Table "lt" ["a_id"; "b_id"] None] [].

(** A self-referencing junction table [follows(follower, followed)] on
    [person(id)]. *)
Definition follows_schema : schema :=
  Schema [Table "person" ["id"] (Some "id");
          Table "follows" ["follower"; "followed"] None]
         [ForeignKey "follows" "follower" "person" "id";
          ForeignKey "follows" "followed" "person" "id"].

Definition follows_db : gmap string rdb_table :=
  <["person" := RdbTable ["id"] [({["id" := VInt 1]} : props);
                                 ({["id" := VInt 2]} : props)]]>
    {["follows" := RdbTable ["follower"; "followed"]
        [(<["follower" := VInt 1]> {["followed" := VInt 2]} : props)]]}.

(** Rows for the end-to-end scenario: two companies, two persons, three
    [founded_by] rows. *)
Definition founded_by_db : gmap string rdb_table :=
  <["company" :=
      RdbTable ["id"; "name"]
        [(<["id" := VInt 1]> {["name" := VStr "Acme"]} : props);
         (<["id" := VInt 2]> {["name" := VStr "Initech"]} : props)]]>
    (<["person" :=
         RdbTable ["id"; "name"]
           [(<["id" := VInt 10]> {["name" := VStr "Ann"]} : props);
            (<["id" := VInt 11]> {["name" := VStr "Bob"]} : props)]]>
       {["founded_by" :=
           RdbTable ["company_id"; "person_id"]
             [(<["company_id" := VInt 1]> {["person_id" := VInt 10]} : props);
              (<["company_id" := VInt 1]> {["person_id" := VInt 11]} : props);
              (<["company_id" := VInt 2]> {["person_id" := VInt 11]}
               : props)]]}).

(** An entity table with two foreign keys to the same table. *)
Definition two_addresses_schema : schema :=
  Schema [Table "orders" ["id"; "bill_id"; "ship_id"] (Some "id");
          Table "address" ["id"] (Some "id")]
         [ForeignKey "orders" "bill_id" "address" "id";
          ForeignKey "orders" "ship_id" "address" "id"].

(** The junction table of the end-to-end scenario, its two foreign keys
    enumerated in either order. *)
Definition founded_by_tables : list table :=
  [Table "company" ["id"; "name"] (Some "id");
   Table "person" ["id"; "name"] (Some "id");
   Table "founded_by" ["company_id"; "person_id"] None].

Definition founded_by_schema : schema :=
  Schema founded_by_tables
         [ForeignKey "founded_by" "company_id" "company" "id";
          ForeignKey "founded_by" "person_id" "person" "id"].

Definition founded_by_schema_swapped : schema :=
  Schema founded_by_tables
         [ForeignKey "founded_by" "person_id" "person" "id";
          ForeignKey "founded_by" "company_id" "company" "id"].

(** The catalog of the end-to-end scenario: [company(id, name)],
    [person(id, name)] and [founded_by(company_id, person_id)] without
    primary key. *)
Definition founded_by_catalog : Extractor.catalog :=
  Extractor.Catalog ["company"; "person"; "founded_by"]
    (λ n, if String.eqb n "founded_by" then ["company_id"; "person_id"]
          else ["id"; "name"])
    (λ n, if String.eqb n "founded_by" then [] else ["id"])
    [ForeignKey "founded_by" "company_id" "company" "id";
     ForeignKey "founded_by" "person_id" "person" "id"].

(** A catalog with one table whose primary key has two columns. *)
Definition composite_key_catalog : Extractor.catalog :=
  Extractor.Catalog ["order_item"]
    (λ _, ["order_id"; "product_id"; "quantity"])
    (λ _, ["order_id"; "product_id"])
    [].

(** The rows of [two_addresses_schema]: one order billed to one address
    and shipped to another. *)
Definition two_addresses_db : gmap string rdb_table :=
  <["orders" :=
      RdbTable ["id"; "bill_id"; "ship_id"]
        [(<["id" := VInt 1]>
            (<["bill_id" := VInt 7]> {["ship_id" := VInt 8]}) : props)]]>
    {["address" := RdbTable ["id"] [({["id" := VInt 7]} : props);
                                    ({["id" := VInt 8]} : props)]]}.

(** A table keyed by a date and a table that references it, with one row
    each for the day [d]. *)
Definition dated_schema : schema :=
  Schema [Table "event" ["day"] (Some "day");
          Table "visit" ["id"; "day"] (Some "id")]
         [ForeignKey "visit" "day" "event" "day"].

Definition dated_db (d : Temporal) : gmap string rdb_table :=
  <["event" := RdbTable ["day"] [({["day" := VTemporal d]} : props)]]>
    {["visit" := RdbTable ["id"; "day"]
        [(<["id" := VInt 1]> {["day" := VTemporal d]} : props)]]}.

(** The junction-table configuration with a hand-written direct
    relationship whose key has no dot. *)
Definition dotless_config : config :=
  Config [NodeDef "a" "A" [("id", "id")] (Some "id");
          NodeDef "b" "B" [("id", "id")] (Some "id")]
         [RelDef (Some "a_b") None "HAS_B" "a" "b" (Some "OUT") []].

(** A table read twice for the same key: the second row has no name. *)
Definition renamed_config : config :=
  Config [NodeDef "a" "A" [("id", "id"); ("name", "name")] (Some "id")] [].

Definition renamed_db : gmap string rdb_table :=
  {["a" := RdbTable ["id"; "name"]
      [(<["id" := VInt 1]> {["name" := VStr "old"]} : props);
       (<["id" := VInt 1]> {["name" := VNone]} : props)]]}.

(** The junction tables with 1001 rows in [lt]. *)
Definition crowded_db : gmap string rdb_table :=
  <["lt" := RdbTable ["a_id"; "b_id"]
              (replicate 1001
                 (<["a_id" := VInt 1]> {["b_id" := VInt 2]} : props))]>
    junction_db.

(** A catalog whose second table of three has a primary key of two
    columns. *)
Definition mixed_key_catalog : Extractor.catalog :=
  Extractor.Catalog ["product"; "order_item"; "customer"]
    (λ n, if String.eqb n "order_item"
          then ["order_id"; "product_id"; "quantity"] else ["id"])
    (λ n, if String.eqb n "order_item"
          then ["order_id"; "product_id"] else ["id"])
    [ForeignKey "order_item" "product_id" "product" "id"].

(** *** What a trace writes *)

Definition is_node_write (e : event) : bool :=
  match e with GraphRun (MergeNodes _ _ _) => true | _ => false end.

Definition is_rel_write (e : event) : bool :=
  match e with GraphRun (MergeRels _ _ _ _ _ _) => true | _ => false end.

(** The rows handed to the node statement, over a whole trace. *)
Definition written_rows (tr : list event) : list props :=
  tr ≫= λ e, match e with
             | GraphRun (MergeNodes _ _ ps) => ps
             | _ => []
             end.

(** The (from_id, to_id, props) entries handed to the relationship
    statement, over a whole trace. *)
Definition written_data (tr : list event) : list rel_datum :=
  tr ≫= λ e, match e with
             | GraphRun (MergeRels _ _ _ _ _ ds) => ds
             | _ => []
             end.

(** A node statement holds at most [batch_size] rows. *)
Definition within_batch_size (e : event) : Prop :=
  match e with
  | GraphRun (MergeNodes _ _ ps) => (length ps ≤ batch_size)%nat
  | _ => True
  end.

(** A relationship statement holds at least one and at most [batch_size]
    entries, and names the labels, key properties and type it was built
    for. *)
Definition rel_within_batch_size (e : event) : Prop :=
  match e with
  | GraphRun (MergeRels _ _ _ _ _ ds) => (0 < length ds ≤ batch_size)%nat
  | _ => True
  end.

Definition rel_statement_for (fc tc : node_def) (ty : string) (e : event)
    : Prop :=
  match e with
  | GraphRun (MergeRels fl fk tl tk ty' _) =>
      fl = nd_label fc ∧ fk = py_str (nd_primary_key fc)
      ∧ tl = nd_label tc ∧ tk = py_str (nd_primary_key tc) ∧ ty' = ty
  | GraphRun (MergeNodes _ _ _) => False
  | SqlExecute _ => True
  end.

(** *** Converted values *)

(** Neither a [decimal.Decimal] nor a date: the values
    [convert_value_for_neo4j] returns, and returns unchanged. *)
Definition converted (v : value) : Prop :=
  match v with
  | VDecimal _ | VTemporal _ => False
  | _ => True
  end.

Global Instance converted_dec v : Decision (converted v).
Proof. destruct v; simpl; apply _. Defined.

Definition props_converted (m : props) : Prop :=
  map_Forall (λ _ v, converted v) m.

(** The property maps of a statement hold converted values only. *)
Definition sends_converted (e : event) : Prop :=
  match e with
  | SqlExecute _ => True
  | GraphRun (MergeNodes _ _ ps) => Forall props_converted ps
  | GraphRun (MergeRels _ _ _ _ _ ds) =>
      Forall (λ d, from_option props_converted True (rel_props d)) ds
  end.

Definition nodes_converted (ns : list gnode) : Prop :=
  Forall (λ n, props_converted (gn_props n)) ns.

(** An endpoint id that is still a [Decimal] or a date. *)
Definition raw_endpoint (d : rel_datum) : Prop :=
  ¬ converted (from_id d) ∨ ¬ converted (to_id d).

(** *** Shape of the store *)

(** What [MERGE (a)-[r:`ty`]->(b)] merges on. *)
Definition rel_key (r : grel) : nat * string * nat :=
  (gr_start r, gr_type r, gr_end r).

(** Two nodes have at most one relationship of a type in a direction, and
    every relationship joins nodes of the store. *)
Definition graph_wf (g : graph) : Prop :=
  NoDup (rel_key <$> g_rels g)
  ∧ Forall (λ r, (gr_start r < length (g_nodes g))%nat
                 ∧ (gr_end r < length (g_nodes g))%nat) (g_rels g).

(** *** Where a run stops *)

(** A statement the relational server rejected. *)
Definition rejected (db : gmap string rdb_table) (e : event) : Prop :=
  match e with
  | SqlExecute q => run_sql db q = None
  | GraphRun _ => False
  end.

(** A direct relationship with both endpoints mapped whose
    [source_foreign_key] has no dot: [split('.')[1]] of line 273 raises. *)
Definition dotless_key (cfg : config) (rd : rel_def) : Prop :=
  is_Some (node_config cfg (rd_from_node_table rd))
  ∧ is_Some (node_config cfg (rd_to_node_table rd))
  ∧ ∃ sfk, rd_source_foreign_key rd = Some sfk ∧ ¬ PyStr.contains "." sfk.

(** *** One node per key *)

(** The value a node has for the identifying property [k] of the label
    [L], if it carries the label. *)
Definition key_value (L k : string) (n : gnode) : option value :=
  if bool_decide (L ∈ gn_labels n) then gn_props n !! k else None.

(** No two nodes with the label of a mapping share a value of its
    identifying property. *)
Definition keys_unique (K : list (string * string)) (ns : list gnode)
    : Prop :=
  Forall (λ p, NoDup (omap (key_value p.1 p.2) ns)) K.

(** *** Fields that are never read *)

(** A foreign key with another referenced column. *)
Definition with_to_column (f : foreign_key → string) (fk : foreign_key)
    : foreign_key :=
  {| fk_from_table := fk_from_table fk;
     fk_from_column := fk_from_column fk;
     fk_to_table := fk_to_table fk;
     fk_to_column := f fk |}.

Definition with_to_columns (f : foreign_key → string) (sd : schema)
    : schema :=
  {| tables := tables sd;
     foreign_keys := with_to_column f <$> foreign_keys sd |}.

(** A relationship statement with a full batch. *)
Definition full_batch (e : event) : Prop :=
  match e with
  | GraphRun (MergeRels _ _ _ _ _ ds) => length ds = batch_size
  | _ => True
  end.

(** ** Properties of the importer *)

Lemma bind_ret_l {A B} (a : A) (f : A → M B) : bind (ret a) f = f a.
Proof. unfold bind, ret. by destruct (f a). Qed.

Lemma trace_bind {A B} (m : M A) (f : A → M B) :
  trace (bind m f)
  = trace m ++ match m.2 with Some a => trace (f a) | None => [] end.
Proof.
  destruct m as [tr [a|]]; simpl.
  - by destruct (f a).
  - by rewrite app_nil_r.
Qed.

Lemma trace_for_each_Forall {A} (P : event → Prop) (body : A → M unit) l :
  (∀ x, x ∈ l → Forall P (trace (body x))) →
  Forall P (trace (for_each body l)).
Proof.
  induction l as [|x l IH]; intros Hb; simpl; [constructor|].
  rewrite trace_bind. apply Forall_app. split.
  - apply Hb. left.
  - destruct (body x).2; [|constructor].
    apply IH. intros y Hy. apply Hb. by right.
Qed.

(** Every flush of the accumulate-and-flush loop is handed a non-empty
    list of items of the stream, so what holds of each flush holds of the
    loop. *)
Lemma trace_batched_Forall {A} (P : event → Prop) (R : A → Prop)
    (flush : list A → M unit) pending items :
  (∀ l, l ≠ [] → Forall R l → Forall P (trace (flush l))) →
  Forall R pending → Forall R items →
  Forall P (trace (batched flush pending items)).
Proof.
  intros Hflush. revert pending.
  induction items as [|x items IH]; intros pending Hp Hi; simpl.
  - destruct pending; [constructor|]. by apply Hflush.
  - apply Forall_cons in Hi as [Hx Hi].
    assert (Forall R (pending ++ [x])) as Hpx.
    { apply Forall_app. split; [done|]. by constructor. }
    case_bool_decide.
    + rewrite trace_bind. apply Forall_app. split.
      * apply Hflush; [|done]. by destruct pending.
      * destruct (flush _).2; [|constructor]. by apply IH.
    + by apply IH.
Qed.

Lemma merge_nodes_batch_trace label id_prop prop_list :
  trace (_merge_nodes_batch label id_prop prop_list)
  = match filter (λ p, dict_get p id_prop ≠ VNone) prop_list with
    | [] => []
    | valid => [GraphRun (MergeNodes label (py_str id_prop) valid)]
    end.
Proof.
  unfold _merge_nodes_batch. destruct prop_list as [|p l]; [done|].
  by destruct (filter _ (p :: l)).
Qed.

Lemma merge_nodes_batch_completes label id_prop prop_list :
  (_merge_nodes_batch label id_prop prop_list).2 = Some tt.
Proof.
  unfold _merge_nodes_batch. destruct prop_list as [|p l]; [done|].
  by destruct (filter _ (p :: l)).
Qed.

Lemma merge_rels_batch_trace fl fpk tl tpk ty ds :
  trace (_merge_rels_batch fl fpk tl tpk ty ds)
  = match ds with
    | [] => []
    | _ => [GraphRun (MergeRels fl (py_str fpk) tl (py_str tpk) ty ds)]
    end.
Proof. by destruct ds. Qed.

Lemma import_node_no_rel_write db nd :
  Forall (λ e, is_rel_write e = false) (trace (import_node db nd)).
Proof.
  unfold import_node. rewrite trace_bind. apply Forall_app. split.
  - unfold execute. simpl. by repeat constructor.
  - destruct (execute _ _).2 as [rows|]; [|constructor].
    apply (trace_batched_Forall _ (λ _, True)); [|done|by apply Forall_true].
    intros l _ _. rewrite merge_nodes_batch_trace.
    destruct (filter _ l); by repeat constructor.
Qed.

Lemma batched_rels_no_node_write fl fpk tl tpk ty pending items :
  Forall (λ e, is_node_write e = false)
    (trace (batched (_merge_rels_batch fl fpk tl tpk ty) pending items)).
Proof.
  apply (trace_batched_Forall _ (λ _, True));
    [|by apply Forall_true|by apply Forall_true].
  intros l _ _. rewrite merge_rels_batch_trace.
  destruct l; by repeat constructor.
Qed.

Lemma import_rel_no_node_write cfg sd db rd :
  Forall (λ e, is_node_write e = false) (trace (import_rel cfg sd db rd)).
Proof.
  unfold import_rel.
  destruct (node_config cfg (rd_from_node_table rd)) as [fc|]; [|constructor].
  destruct (node_config cfg (rd_to_node_table rd)) as [tc|]; [|constructor].
  destruct (rd_source_foreign_key rd) as [sfk|].
  - destruct (PyStr.split "." sfk) as [|t [|c ?]]; [constructor..|].
    rewrite trace_bind. apply Forall_app. split.
    + by repeat constructor.
    + destruct (execute _ _).2; [|constructor].
      apply batched_rels_no_node_write.
  - destruct (rd_source_link_table rd) as [lt|]; [|constructor].
    destruct (falsy _ || falsy _); [constructor|].
    rewrite trace_bind. apply Forall_app. split.
    + by repeat constructor.
    + destruct (execute _ _).2; [|constructor].
      apply batched_rels_no_node_write.
Qed.

Lemma import_data_trace_split cfg sd db :
  ∃ tr_nodes tr_rels,
    trace (import_data cfg sd db) = tr_nodes ++ tr_rels
    ∧ tr_nodes = trace (for_each (import_node db) (nodes cfg))
    ∧ Forall (λ e, is_rel_write e = false) tr_nodes
    ∧ Forall (λ e, is_node_write e = false) tr_rels.
Proof.
  unfold import_data. rewrite trace_bind.
  eexists _, _. split; [reflexivity|]. split; [reflexivity|]. split.
  - apply trace_for_each_Forall. intros nd _. apply import_node_no_rel_write.
  - destruct (for_each (import_node db) (nodes cfg)).2; [|constructor].
    apply trace_for_each_Forall. intros rd _. apply import_rel_no_node_write.
Qed.

(** C5.  The trace of [import_data] is the trace of the node loop over all
    node mappings followed by (a prefix of) the trace of the relationship
    loop; the first part holds no relationship statement and the second no
    node statement.  So every node statement stands before every
    relationship statement in the order they are issued. *)
Theorem import_data_nodes_before_relationships cfg sd db :
  (∃ tr_nodes tr_rels,
     trace (import_data cfg sd db) = tr_nodes ++ tr_rels
     ∧ tr_nodes = trace (for_each (import_node db) (nodes cfg))
     ∧ Forall (λ e, is_rel_write e = false) tr_nodes
     ∧ Forall (λ e, is_node_write e = false) tr_rels)
  ∧ ∀ i j e_rel e_node,
      trace (import_data cfg sd db) !! i = Some e_rel →
      trace (import_data cfg sd db) !! j = Some e_node →
      is_rel_write e_rel = true → is_node_write e_node = true →
      (j < i)%nat.
Proof.
  split; [apply import_data_trace_split|].
  destruct (import_data_trace_split cfg sd db)
    as (tr_n & tr_r & -> & _ & Hn & Hr).
  intros i j e_rel e_node Hi Hj Hrel Hnode.
  rewrite Forall_forall in Hn, Hr.
  destruct (decide (i < length tr_n)%nat) as [Hlt|Hge].
  { rewrite lookup_app_l in Hi by done.
    apply list_elem_of_lookup_2 in Hi. specialize (Hn _ Hi). congruence. }
  destruct (decide (j < length tr_n)%nat) as [Hlt|Hge']; [lia|].
  rewrite lookup_app_r in Hj by lia.
  apply list_elem_of_lookup_2 in Hj. specialize (Hr _ Hj). congruence.
Qed.


Lemma filter_valid_idemp (id_prop : option string) (l : list props) :
  filter (λ p, dict_get p id_prop ≠ VNone)
         (filter (λ p, dict_get p id_prop ≠ VNone) l)
  = filter (λ p, dict_get p id_prop ≠ VNone) l.
Proof.
  induction l as [|p l IH]; [done|].
  rewrite (filter_cons _ p l). case_decide; [|done].
  rewrite filter_cons. case_decide; [|done]. by rewrite IH.
Qed.

(** The node statement never meets a null MERGE key on rows that passed
    the filter of [_merge_nodes_batch]. *)
Lemma merge_node_rows_valid L k ns ms :
  Forall (λ m, dict_get m (Some k) ≠ VNone) ms →
  is_Some (merge_node_rows L k ns ms).
Proof.
  revert ns. induction ms as [|m ms IH]; intros ns Hv; simpl; [by eexists|].
  apply Forall_cons in Hv as [Hm Hv].
  unfold merge_node_row. rewrite bool_decide_eq_false_2 by done.
  destruct (existsb _ ns); by apply IH.
Qed.

Lemma valid_props_Forall (id_prop : option string) (l : list props) :
  Forall (λ m, dict_get m (Some (py_str id_prop)) ≠ VNone)
         (filter (λ p, dict_get p id_prop ≠ VNone) l).
Proof.
  apply Forall_forall. intros p [Hp _]%list_elem_of_filter.
  destruct id_prop; [done|]. by simpl in Hp.
Qed.

(** C8 (as amended).  [_merge_nodes_batch] hands the store exactly the
    rows of the batch whose identifying property is not null, in order and
    in at most one statement; a batch of null-key rows alone sends nothing;
    the call completes; the null-key rows leave no mark (the call is the
    one made without them), and the statement sent never fails on a null
    MERGE key.  Nothing counts or reports the dropped rows. *)
Theorem merge_nodes_batch_drops_null_keys label id_prop prop_list :
  written_rows (trace (_merge_nodes_batch label id_prop prop_list))
  = filter (λ p, dict_get p id_prop ≠ VNone) prop_list
  ∧ (length (trace (_merge_nodes_batch label id_prop prop_list)) ≤ 1)%nat
  ∧ (Forall (λ p, dict_get p id_prop = VNone) prop_list →
     trace (_merge_nodes_batch label id_prop prop_list) = [])
  ∧ (_merge_nodes_batch label id_prop prop_list).2 = Some tt
  ∧ _merge_nodes_batch label id_prop prop_list
    = _merge_nodes_batch label id_prop
        (filter (λ p, dict_get p id_prop ≠ VNone) prop_list)
  ∧ ∀ ns, is_Some (merge_node_rows label (py_str id_prop) ns
                     (filter (λ p, dict_get p id_prop ≠ VNone) prop_list)).
Proof.
  split_and!.
  - rewrite merge_nodes_batch_trace.
    destruct (filter _ prop_list); [done|]. simpl. by rewrite app_nil_r.
  - rewrite merge_nodes_batch_trace.
    destruct (filter _ prop_list); simpl; lia.
  - intros Hnull. rewrite merge_nodes_batch_trace.
    destruct (filter _ prop_list) as [|p l] eqn:Hf; [done|].
    assert (p ∈ filter (λ p, dict_get p id_prop ≠ VNone) prop_list) as Hp
      by (rewrite Hf; left).
    apply list_elem_of_filter in Hp as [Hp Hin].
    rewrite Forall_forall in Hnull. by specialize (Hnull p Hin).
  - apply merge_nodes_batch_completes.
  - unfold _merge_nodes_batch at 1 2.
    rewrite filter_valid_idemp.
    destruct prop_list as [|p l]; [done|].
    by destruct (filter _ (p :: l)).
  - intros ns. apply merge_node_rows_valid, valid_props_Forall.
Qed.

Lemma filter_no_key (l : list props) :
  filter (λ p : props, dict_get p None ≠ VNone) l = [].
Proof.
  induction l as [|q l IH]; [done|]. rewrite filter_cons. by case_decide.
Qed.

Lemma merge_nodes_batch_no_key label prop_list :
  _merge_nodes_batch label None prop_list = ret tt.
Proof.
  unfold _merge_nodes_batch. destruct prop_list as [|p l]; [done|].
  by rewrite filter_no_key.
Qed.

Lemma batched_ret {A} (flush : list A → M unit) pending items :
  (∀ l, flush l = ret tt) → batched flush pending items = ret tt.
Proof.
  intros Hflush. revert pending.
  induction items as [|x items IH]; intros pending; simpl.
  - by destruct pending.
  - case_bool_decide; [|done]. by rewrite Hflush, bind_ret_l.
Qed.

(** C9 (as amended).  A node mapping whose [primary_key] is null is not
    rejected: the importer executes its [SELECT *] and streams the rows
    like those of any other mapping, every row is dropped as a null-key
    row, no statement reaches the graph store, and the run goes on (it
    stops only if the SELECT itself raises). *)
Theorem import_node_without_key db nd :
  nd_primary_key nd = None →
  import_node db nd
  = ([SqlExecute (SelectAll (nd_source_table nd))],
     (λ _, tt) <$> run_sql db (SelectAll (nd_source_table nd))).
Proof.
  intros Hpk. unfold import_node, execute, bind. rewrite Hpk.
  destruct (run_sql _ _) as [rows|]; [|done].
  rewrite batched_ret; [done|]. apply merge_nodes_batch_no_key.
Qed.

Lemma written_data_batched (R : rel_datum → Prop) fl fpk tl tpk ty pending items :
  Forall R pending → Forall R items →
  Forall R (written_data
              (trace (batched (_merge_rels_batch fl fpk tl tpk ty)
                              pending items))).
Proof.
  intros Hp Hi. unfold written_data. apply Forall_bind.
  apply (trace_batched_Forall _ R); [|done..].
  intros l _ Hl. rewrite merge_rels_batch_trace.
  destruct l as [|d l]; simpl; [constructor|].
  constructor; [done|constructor].
Qed.

(** C10.  For a link-table mapping whose two endpoint tables are the same
    table, both join columns are the column of the first foreign key of
    [schema_data] from the link table to that table, and every entry the
    importer builds has [from_id] equal to [to_id]. *)
Theorem self_link_same_join_column cfg sd db rd link :
  rd_source_foreign_key rd = None →
  rd_source_link_table rd = Some link →
  rd_from_node_table rd = rd_to_node_table rd →
  link_fk_col sd link (rd_from_node_table rd)
  = link_fk_col sd link (rd_to_node_table rd)
  ∧ link_fk_col sd link (rd_to_node_table rd)
    = fk_from_column <$>
        head (filter (λ fk, fk_from_table fk = link
                            ∧ fk_to_table fk = rd_from_node_table rd)
                     (foreign_keys sd))
  ∧ Forall (λ d, from_id d = to_id d)
           (written_data (trace (import_rel cfg sd db rd))).
Proof.
  intros Hfk Hlt Heq. split_and!.
  - by rewrite Heq.
  - rewrite <- Heq. unfold link_fk_col. by destruct (filter _ _).
  - unfold import_rel. rewrite Hfk, Hlt, <- Heq.
    destruct (node_config cfg (rd_from_node_table rd)) as [fc|];
      [|constructor].
    destruct (falsy _ || falsy _); [constructor|].
    rewrite trace_bind. unfold written_data. rewrite bind_app.
    apply Forall_app. split; [by repeat constructor|].
    destruct (execute _ _).2 as [rows|]; [|constructor].
    apply written_data_batched; [constructor|].
    apply Forall_fmap, Forall_true. by intros row.
Qed.


(** *** The node statement, row by row *)

Lemma set_plus_lookup m n κ :
  gn_props (set_plus m n) !! κ
  = match m !! κ with
    | Some v => if bool_decide (v = VNone) then None else Some v
    | None => gn_props n !! κ
    end.
Proof.
  unfold set_plus, non_null. simpl.
  rewrite lookup_union, map_lookup_filter, lookup_difference.
  destruct (m !! κ) as [v|] eqn:Hm; simpl.
  - case_bool_decide; simplify_option_eq; done.
  - by destruct (gn_props n !! κ).
Qed.

Lemma set_plus_labels m n : gn_labels (set_plus m n) = gn_labels n.
Proof. done. Qed.

Lemma gnode_eq (a b : gnode) :
  gn_labels a = gn_labels b →
  (∀ κ, gn_props a !! κ = gn_props b !! κ) → a = b.
Proof.
  destruct a as [la pa], b as [lb pb]. simpl. intros -> Hp.
  f_equal. by apply map_eq.
Qed.

Lemma set_plus_idemp m n : set_plus m (set_plus m n) = set_plus m n.
Proof.
  apply gnode_eq; [done|]. intros κ. rewrite !set_plus_lookup.
  by destruct (m !! κ).
Qed.

(** Overwriting again with [m] forgets what differed under [m]'s keys. *)
Lemma set_plus_absorb m m' a b :
  set_plus m a = set_plus m b →
  set_plus m (set_plus m' a) = set_plus m (set_plus m' b).
Proof.
  intros Hab. apply gnode_eq.
  - by apply (f_equal gn_labels) in Hab.
  - intros κ. rewrite !set_plus_lookup.
    destruct (m !! κ) eqn:Hm; [done|].
    destruct (m' !! κ); [done|].
    apply (f_equal (λ n, gn_props n !! κ)) in Hab.
    by rewrite !set_plus_lookup, Hm in Hab.
Qed.


Lemma merge_node_row_step L k ns m :
  dict_get m (Some k) ≠ VNone →
  merge_node_row L k ns m = Some (row_step ns (L, k, m)).
Proof.
  intros Hv. unfold merge_node_row, row_step, row_update, row_matches, row_new,
    row_value. simpl.
  rewrite bool_decide_eq_false_2 by done.
  by destruct (existsb _ ns).
Qed.

Lemma merge_node_rows_steps L k ns ms :
  Forall (λ m, dict_get m (Some k) ≠ VNone) ms →
  merge_node_rows L k ns ms
  = Some (foldl row_step ns ((λ m, (L, k, m)) <$> ms)).
Proof.
  revert ns. induction ms as [|m ms IH]; intros ns Hv; simpl; [done|].
  apply Forall_cons in Hv as [Hm Hv].
  rewrite merge_node_row_step by done. by apply IH.
Qed.

Lemma run_event_node K g e :
  node_event_ok K e →
  run_event g e = Graph (foldl row_step (g_nodes g) (event_rows e)) (g_rels g)
  ∧ Forall (row_ok K) (event_rows e).
Proof.
  destruct e as [q|[L k ms|]]; simpl; [by destruct g| |done].
  intros [HK Hv]. destruct (forallb props_encodable ms).
  - rewrite merge_node_rows_steps by done. split; [done|].
    apply Forall_fmap. eapply Forall_impl; [exact Hv|]. by intros m Hm.
  - split; [by destruct g|constructor].
Qed.

Lemma run_trace_nodes K tr g :
  Forall (node_event_ok K) tr →
  run_trace g tr = Graph (foldl row_step (g_nodes g) (node_rows tr)) (g_rels g)
  ∧ Forall (row_ok K) (node_rows tr).
Proof.
  revert g. induction tr as [|e tr IH]; intros g Hok.
  - split; [by destruct g|constructor].
  - apply Forall_cons in Hok as [He Hok].
    destruct (run_event_node K g e He) as [Hrun Hrows].
    destruct (IH (run_event g e) Hok) as [IH1 IH2].
    unfold run_trace, node_rows in *. simpl. rewrite IH1, Hrun. simpl.
    rewrite foldl_app. split; [done|]. by apply Forall_app.
Qed.


Lemma node_ok_key K n L1 k1 L2 k2 :
  node_ok K n → (L1, k1) ∈ K → (L2, k2) ∈ K →
  L1 ∈ gn_labels n → L2 ∈ gn_labels n → k1 = k2.
Proof.
  intros Hok H1 H2 HL1 HL2. unfold node_ok in Hok.
  rewrite Forall_forall in Hok. specialize (Hok _ H1).
  rewrite Forall_forall in Hok. by apply (Hok _ H2).
Qed.

Lemma node_ok_single K L P :
  keys_consistent K → node_ok K (GraphNode [L] P).
Proof.
  intros HK. unfold node_ok, keys_consistent in *.
  apply Forall_forall. intros p Hp. apply Forall_forall. intros q Hq.
  simpl. intros H1%list_elem_of_singleton H2%list_elem_of_singleton.
  rewrite Forall_forall in HK. specialize (HK _ Hp).
  rewrite Forall_forall in HK. apply (HK _ Hq). congruence.
Qed.

Lemma node_ok_labels K a b :
  gn_labels a = gn_labels b → node_ok K a → node_ok K b.
Proof. unfold node_ok. by intros ->. Qed.

Lemma row_value_lookup (r : string * string * props) :
  row_value r ≠ VNone → r.2 !! r.1.2 = Some (row_value r).
Proof.
  unfold row_value, dict_get. by destruct (r.2 !! r.1.2).
Qed.

Lemma row_matches_spec r n :
  row_matches r n = true ↔
  row_value r ≠ VNone ∧ r.1.1 ∈ gn_labels n
  ∧ gn_props n !! r.1.2 = Some (row_value r).
Proof.
  unfold row_matches, node_matches.
  rewrite !andb_true_iff, !bool_decide_eq_true. tauto.
Qed.

(** A row update keeps the key property of the node it updates. *)
Lemma set_plus_keeps_key r n :
  row_matches r n = true →
  gn_props (set_plus r.2 n) !! r.1.2 = Some (row_value r).
Proof.
  intros (Hv & _ & _)%row_matches_spec.
  rewrite set_plus_lookup, (row_value_lookup r Hv).
  by rewrite bool_decide_eq_false_2.
Qed.

(** Which rows match a node does not change when a row updates it. *)
Lemma row_matches_update K r r' n :
  node_ok K n → row_ok K r → row_ok K r' →
  row_matches r' (row_update r n) = row_matches r' n.
Proof.
  intros Hn [HK _] [HK' _]. unfold row_update.
  destruct (row_matches r n) eqn:Hm; [|done].
  pose proof (set_plus_keeps_key r n Hm) as Hkey.
  apply row_matches_spec in Hm as (Hv & HL & Hp).
  apply eq_true_iff_eq. rewrite !row_matches_spec, set_plus_labels.
  destruct r as [[L k] m], r' as [[L' k'] m']. simpl in *.
  split; intros (Hv' & HL' & Hp'); (split; [done|split; [done|]]);
    assert (k' = k) as -> by (by eapply (node_ok_key K n L' k' L k));
    congruence.
Qed.

Lemma row_update_labels r n : gn_labels (row_update r n) = gn_labels n.
Proof. unfold row_update. by destruct (row_matches r n). Qed.

Lemma row_update_ok K r n : node_ok K n → node_ok K (row_update r n).
Proof. apply node_ok_labels. by rewrite row_update_labels. Qed.

Lemma apply_rows_ok K rows n : node_ok K n → node_ok K (apply_rows rows n).
Proof.
  revert n. induction rows as [|r rows IH]; intros n Hn; [done|].
  apply IH. by apply row_update_ok.
Qed.

Lemma row_matches_apply K rows r' n :
  node_ok K n → Forall (row_ok K) rows → row_ok K r' →
  row_matches r' (apply_rows rows n) = row_matches r' n.
Proof.
  revert n. induction rows as [|r rows IH]; intros n Hn Hrows Hr'; [done|].
  apply Forall_cons in Hrows as [Hr Hrows]. simpl.
  rewrite IH by (try apply row_update_ok; done).
  by apply (row_matches_update K).
Qed.

Lemma apply_rows_snoc rows r n :
  apply_rows (rows ++ [r]) n = row_update r (apply_rows rows n).
Proof. unfold apply_rows. by rewrite foldl_app. Qed.

(** Updating with [r], then with other rows, then with [r] again gives what
    the other rows and then [r] give. *)
Lemma row_update_absorb K rows r n :
  node_ok K n → Forall (row_ok K) rows → row_ok K r →
  row_update r (apply_rows rows (row_update r n))
  = row_update r (apply_rows rows n).
Proof.
  intros Hn Hrows Hr.
  destruct (row_matches r n) eqn:Hm; last first.
  { assert (row_update r n = n) as -> by (unfold row_update; by rewrite Hm).
    done. }
  induction rows as [|r' rows IH] using rev_ind.
  - simpl. unfold row_update. rewrite Hm.
    destruct (row_matches r (set_plus r.2 n)); [|done]. apply set_plus_idemp.
  - apply Forall_app in Hrows as [Hrows Hr'].
    apply Forall_cons in Hr' as [Hr' _].
    specialize (IH Hrows). rewrite !apply_rows_snoc.
    assert (row_matches r' (apply_rows rows (row_update r n))
            = row_matches r' (apply_rows rows n)) as Hsame.
    { rewrite (row_matches_apply K rows r' (row_update r n))
        by (try apply row_update_ok; done).
      rewrite (row_matches_apply K rows r' n) by done.
      by apply (row_matches_update K). }
    assert (∀ x, node_ok K x → row_matches r x = true →
                 row_update r x = set_plus r.2 x) as Hupd.
    { intros x _ Hx. unfold row_update. by rewrite Hx. }
    assert (∀ x, node_ok K x → row_matches r (row_update r' x)
                 = row_matches r x) as Hstay.
    { intros x Hx. by apply (row_matches_update K). }
    assert (row_matches r (apply_rows rows (row_update r n)) = true) as Ha.
    { rewrite (row_matches_apply K rows r (row_update r n))
        by (try apply row_update_ok; done).
      by rewrite (row_matches_update K). }
    assert (row_matches r (apply_rows rows n) = true) as Hb.
    { by rewrite (row_matches_apply K). }
    assert (node_ok K (apply_rows rows (row_update r n))) as Hoka.
    { by apply apply_rows_ok, row_update_ok. }
    assert (node_ok K (apply_rows rows n)) as Hokb by by apply apply_rows_ok.
    assert (row_update r n = set_plus r.2 n) as Hrn by by apply Hupd.
    rewrite Hrn in *.
    rewrite !Hupd in IH by done.
    rewrite !Hupd by (try apply row_update_ok; try rewrite Hstay; done).
    unfold row_update. rewrite Hsame.
    destruct (row_matches r' (apply_rows rows n)); [|done].
    by apply set_plus_absorb.
Qed.


Lemma existsb_Exists {A} (f : A → bool) (l : list A) :
  existsb f l = true ↔ Exists (λ x, f x = true) l.
Proof.
  induction l as [|x l IH]; simpl.
  - split; [done|]. by intros ?%Exists_nil.
  - rewrite orb_true_iff, Exists_cons, IH. done.
Qed.

Lemma existsb_Forall_false {A} (f : A → bool) (l : list A) :
  existsb f l = false ↔ Forall (λ x, f x = false) l.
Proof.
  induction l as [|x l IH]; simpl.
  - split; [constructor|done].
  - rewrite orb_false_iff, Forall_cons, IH. done.
Qed.

Lemma keys_consistent_key K L k1 k2 :
  keys_consistent K → (L, k1) ∈ K → (L, k2) ∈ K → k1 = k2.
Proof.
  intros HK H1 H2. unfold keys_consistent in HK.
  rewrite Forall_forall in HK. specialize (HK _ H1).
  rewrite Forall_forall in HK. by apply (HK _ H2).
Qed.

Lemma row_new_key (r : string * string * props) :
  row_value r ≠ VNone → gn_props (row_new r) !! r.1.2 = Some (row_value r).
Proof.
  intros Hv. unfold row_new.
  rewrite set_plus_lookup, (row_value_lookup r Hv).
  by rewrite bool_decide_eq_false_2.
Qed.

Lemma row_new_matches r :
  row_value r ≠ VNone → row_matches r (row_new r) = true.
Proof.
  intros Hv. apply row_matches_spec. split; [done|]. split.
  - simpl. left.
  - by apply row_new_key.
Qed.

Lemma row_update_new r :
  row_value r ≠ VNone → row_update r (row_new r) = row_new r.
Proof.
  intros Hv. unfold row_update. rewrite row_new_matches by done.
  apply set_plus_idemp.
Qed.

Lemma row_new_ok K r : keys_consistent K → node_ok K (row_new r).
Proof.
  intros HK. eapply node_ok_labels; [|by apply (node_ok_single K r.1.1 ∅)].
  done.
Qed.

(** A row that matches the node created for [r] matches the same nodes
    as [r]. *)
Lemma row_matches_new K r r' n :
  keys_consistent K → row_ok K r → row_ok K r' →
  row_matches r' (row_new r) = true →
  row_matches r' n = row_matches r n.
Proof.
  intros HK [Hr Hv] [Hr' _] (Hv' & HL & Hp)%row_matches_spec.
  pose proof (row_new_key r Hv) as Hkey.
  destruct r as [[L k] m], r' as [[L' k'] m']. simpl in *.
  apply list_elem_of_singleton in HL as ->.
  assert (k' = k) as -> by by eapply keys_consistent_key.
  unfold row_matches. simpl. congruence.
Qed.

Lemma apply_rows_nomatch rows n :
  Forall (λ r, row_matches r n = false) rows → apply_rows rows n = n.
Proof.
  induction rows as [|r rows IH]; intros Hno; [done|].
  apply Forall_cons in Hno as [Hr Hno]. simpl.
  unfold row_update. rewrite Hr. by apply IH.
Qed.

Lemma settled_step K R ns r :
  keys_consistent K → Forall (row_ok K) R → row_ok K r →
  rows_settled K R ns → rows_settled K (R ++ [r]) (row_step ns r).
Proof.
  intros HK HR Hr (Hok & Hsat & Hcov). unfold row_step.
  destruct (existsb (row_matches r) ns) eqn:Hex.
  - split_and!.
    + apply Forall_fmap. eapply Forall_impl; [exact Hok|].
      intros n Hn. by apply row_update_ok.
    + apply Forall_fmap, Forall_forall. intros n Hn. simpl.
      rewrite Forall_forall in Hok, Hsat.
      rewrite apply_rows_snoc, (row_update_absorb K) by auto.
      by rewrite Hsat.
    + apply Forall_app. split.
      * rewrite Forall_forall in Hcov |- *. intros r' Hr'.
        specialize (Hcov r' Hr'). apply Exists_fmap.
        rewrite Exists_exists in Hcov |- *. destruct Hcov as (n & Hn & Hm).
        exists n. split; [done|]. simpl.
        rewrite (row_matches_update K); [done| |done|].
        -- rewrite Forall_forall in Hok. auto.
        -- rewrite Forall_forall in HR. auto.
      * constructor; [|constructor]. apply Exists_fmap.
        apply existsb_Exists in Hex.
        rewrite Exists_exists in Hex |- *. destruct Hex as (n & Hn & Hm).
        exists n. split; [done|]. simpl.
        rewrite (row_matches_update K); [done| |done..].
        rewrite Forall_forall in Hok. auto.
  - apply existsb_Forall_false in Hex. split_and!.
    + apply Forall_app. split; [done|].
      constructor; [|constructor]. by apply row_new_ok.
    + apply Forall_app. split.
      * rewrite Forall_forall in Hsat, Hex |- *. intros n Hn.
        rewrite apply_rows_snoc, Hsat by done.
        unfold row_update. by rewrite Hex.
      * constructor; [|constructor].
        rewrite apply_rows_snoc, apply_rows_nomatch.
        -- apply row_update_new, Hr.
        -- rewrite Forall_forall in Hcov, HR |- *. intros r' Hr'.
           destruct (row_matches r' (row_new r)) eqn:Hm; [|done].
           specialize (Hcov r' Hr'). rewrite Exists_exists in Hcov.
           destruct Hcov as (n & Hn & Hmn).
           rewrite (row_matches_new K r r' n) in Hmn by auto.
           rewrite Forall_forall in Hex. by rewrite Hex in Hmn.
    + apply Forall_app. split.
      * eapply Forall_impl; [exact Hcov|]. intros r' Hr'.
        apply Exists_app. by left.
      * constructor; [|constructor]. apply Exists_app. right.
        constructor. apply row_new_matches, Hr.
Qed.

Lemma settled_run K rows R ns :
  keys_consistent K → Forall (row_ok K) R → Forall (row_ok K) rows →
  rows_settled K R ns → rows_settled K (R ++ rows) (foldl row_step ns rows).
Proof.
  intros HK. revert R ns.
  induction rows as [|r rows IH]; intros R ns HR Hrows Hs; simpl.
  - by rewrite app_nil_r.
  - apply Forall_cons in Hrows as [Hr Hrows].
    rewrite cons_middle, app_assoc. apply IH; [|done|].
    + apply Forall_app. split; [done|]. by constructor.
    + by apply settled_step.
Qed.

(** On a store where every row finds a node, the rows only update. *)
Lemma replay_rows K rows ns :
  Forall (node_ok K) ns → Forall (row_ok K) rows →
  Forall (λ r, Exists (λ n, row_matches r n = true) ns) rows →
  foldl row_step ns rows = apply_rows rows <$> ns.
Proof.
  revert ns. induction rows as [|r rows IH]; intros ns Hok Hrows Hcov; simpl.
  - by rewrite list_fmap_id.
  - apply Forall_cons in Hrows as [Hr Hrows].
    apply Forall_cons in Hcov as [Hex Hcov].
    apply existsb_Exists in Hex. unfold row_step at 2. rewrite Hex.
    rewrite IH; [by rewrite <- list_fmap_compose| |done|].
    + apply Forall_fmap. eapply Forall_impl; [exact Hok|].
      intros n Hn. by apply row_update_ok.
    + rewrite Forall_forall in Hcov, Hrows |- *. intros r' Hr'.
      specialize (Hcov r' Hr'). apply Exists_fmap.
      rewrite Exists_exists in Hcov |- *. destruct Hcov as (n & Hn & Hm).
      exists n. split; [done|]. simpl.
      rewrite (row_matches_update K); [done| |done|auto].
      rewrite Forall_forall in Hok. auto.
Qed.

Lemma fmap_fixed {A} (f : A → A) (l : list A) :
  Forall (λ x, f x = x) l → f <$> l = l.
Proof.
  induction 1 as [|x l Hx _ IH]; [done|]. csimpl. by rewrite Hx, IH.
Qed.

(** The node loop run again on the nodes it produced changes nothing. *)
Lemma node_rows_twice K rows ns :
  keys_consistent K → Forall (node_ok K) ns → Forall (row_ok K) rows →
  foldl row_step (foldl row_step ns rows) rows = foldl row_step ns rows.
Proof.
  intros HK Hok Hrows.
  destruct (settled_run K rows [] ns HK) as (Hok1 & Hsat & Hcov);
    [constructor|done| |].
  { split_and!; [done| |constructor]. by apply Forall_true. }
  simpl in *. rewrite (replay_rows K) by done.
  by apply fmap_fixed.
Qed.


(** *** The relationship statement only adds, and adds once *)

Lemma linked_app ty rs ex ab : linked ty rs ab → linked ty (rs ++ ex) ab.
Proof.
  unfold linked. rewrite existsb_app. intros ->. done.
Qed.

Lemma merge_rel_pair_inv ty p rs ab rs' :
  merge_rel_pair ty p rs ab = Some rs' →
  (∃ ex, rs' = rs ++ ex) ∧ linked ty rs' ab.
Proof.
  unfold merge_rel_pair, linked.
  destruct (existsb (rel_between ab.1 ty ab.2) rs) eqn:Hex.
  - intros [= <-]. split; [|done]. exists []. by rewrite app_nil_r.
  - destruct (assigned_map p) as [m|]; [|done]. intros [= <-].
    split; [by eexists|]. rewrite existsb_app. simpl.
    unfold rel_between at 2. simpl.
    rewrite bool_decide_eq_true_2 by done. by rewrite orb_true_r.
Qed.

Lemma merge_rel_pair_linked ty p rs ab :
  linked ty rs ab → merge_rel_pair ty p rs ab = Some rs.
Proof. unfold merge_rel_pair, linked. by intros ->. Qed.

Lemma merge_rel_pairs_inv ty p rs abs rs' :
  merge_rel_pairs ty p rs abs = Some rs' →
  (∃ ex, rs' = rs ++ ex) ∧ Forall (linked ty rs') abs.
Proof.
  revert rs. induction abs as [|ab abs IH]; intros rs; simpl.
  - intros [= <-]. split; [|constructor]. exists []. by rewrite app_nil_r.
  - destruct (merge_rel_pair ty p rs ab) as [rs1|] eqn:H1; [|done].
    intros Hrest. apply merge_rel_pair_inv in H1 as [[ex1 ->] Hl].
    apply IH in Hrest as [[ex2 ->] Hall]. split.
    + exists (ex1 ++ ex2). by rewrite app_assoc.
    + constructor; [by apply linked_app|done].
Qed.

Lemma merge_rel_pairs_linked ty p rs abs :
  Forall (linked ty rs) abs → merge_rel_pairs ty p rs abs = Some rs.
Proof.
  induction 1 as [|ab abs Hab _ IH]; simpl; [done|].
  by rewrite merge_rel_pair_linked.
Qed.

Lemma merge_rel_rows_inv fl fk tl tk ty ns rs ds rs' :
  merge_rel_rows fl fk tl tk ty ns rs ds = Some rs' →
  (∃ ex, rs' = rs ++ ex)
  ∧ Forall (λ d, Forall (linked ty rs') (datum_pairs fl fk tl tk ns d)) ds.
Proof.
  revert rs. induction ds as [|d ds IH]; intros rs; simpl.
  - intros [= <-]. split; [|constructor]. exists []. by rewrite app_nil_r.
  - unfold merge_rel_row at 1.
    destruct (merge_rel_pairs _ _ rs _) as [rs1|] eqn:H1; [|done].
    intros Hrest. apply merge_rel_pairs_inv in H1 as [[ex1 ->] Hl].
    apply IH in Hrest as [[ex2 ->] Hall]. split.
    + exists (ex1 ++ ex2). by rewrite app_assoc.
    + constructor; [|done]. eapply Forall_impl; [exact Hl|].
      intros ab. apply linked_app.
Qed.

Lemma merge_rel_rows_linked fl fk tl tk ty ns rs ds :
  Forall (λ d, Forall (linked ty rs) (datum_pairs fl fk tl tk ns d)) ds →
  merge_rel_rows fl fk tl tk ty ns rs ds = Some rs.
Proof.
  induction 1 as [|d ds Hd _ IH]; simpl; [done|].
  unfold merge_rel_row. fold (datum_pairs fl fk tl tk ns d).
  by rewrite merge_rel_pairs_linked.
Qed.

(** With a map to assign on every entry the statement cannot raise. *)
Lemma merge_rel_pairs_total ty p rs abs :
  is_Some (assigned_map p) → is_Some (merge_rel_pairs ty p rs abs).
Proof.
  intros [m Hm]. revert rs.
  induction abs as [|ab abs IH]; intros rs; simpl; [by eexists|].
  unfold merge_rel_pair. rewrite Hm.
  destruct (existsb _ rs); apply IH.
Qed.

Lemma merge_rel_rows_total fl fk tl tk ty ns rs ds :
  Forall (λ d, is_Some (assigned_map (rel_props d))) ds →
  is_Some (merge_rel_rows fl fk tl tk ty ns rs ds).
Proof.
  intros Hall. revert rs.
  induction Hall as [|d ds Hd _ IH]; intros rs; simpl; [by eexists|].
  unfold merge_rel_row.
  destruct (merge_rel_pairs_total ty (rel_props d) rs
              (list_prod (matching_nodes fl fk (from_id d) ns)
                         (matching_nodes tl tk (to_id d) ns)) Hd)
    as [rs1 ->].
  apply IH.
Qed.

(** With no map to assign on any entry the statement creates nothing. *)
Lemma merge_rel_pairs_inert ty p rs abs rs' :
  assigned_map p = None →
  merge_rel_pairs ty p rs abs = Some rs' → rs' = rs.
Proof.
  intros Hp. revert rs.
  induction abs as [|ab abs IH]; intros rs; simpl; [by intros [= <-]|].
  unfold merge_rel_pair. rewrite Hp.
  destruct (existsb _ rs); [apply IH|done].
Qed.

Lemma merge_rel_rows_inert fl fk tl tk ty ns rs ds rs' :
  Forall (λ d, assigned_map (rel_props d) = None) ds →
  merge_rel_rows fl fk tl tk ty ns rs ds = Some rs' → rs' = rs.
Proof.
  intros Hall. revert rs.
  induction Hall as [|d ds Hd _ IH]; intros rs; simpl; [by intros [= <-]|].
  unfold merge_rel_row.
  destruct (merge_rel_pairs _ _ rs _) as [rs1|] eqn:H1; [|done].
  apply (merge_rel_pairs_inert _ _ _ _ _ Hd) in H1 as ->. apply IH.
Qed.

Lemma graph_eta g : Graph (g_nodes g) (g_rels g) = g.
Proof. by destruct g. Qed.

(** A relationship statement keeps the nodes, only appends relationships,
    and changes nothing when run again on a store that has at least the
    relationships it left. *)
Lemma run_event_rel e g :
  rel_event_ok e →
  g_nodes (run_event g e) = g_nodes g
  ∧ (∃ ex, g_rels (run_event g e) = g_rels g ++ ex)
  ∧ ∀ ex, run_event (Graph (g_nodes g) (g_rels (run_event g e) ++ ex)) e
          = Graph (g_nodes g) (g_rels (run_event g e) ++ ex).
Proof.
  destruct e as [q|[L k ms|fl fk tl tk ty ds]]; simpl; [|done|].
  { intros _. split; [done|]. split; [|done].
    exists []. by rewrite app_nil_r. }
  intros Huni.
  destruct (forallb datum_encodable ds) eqn:Henc; simpl.
  2: { split; [done|]. split; [|done]. exists []. by rewrite app_nil_r. }
  assert (Forall (λ d, is_Some (assigned_map (rel_props d))) ds
          ∨ Forall (λ d, assigned_map (rel_props d) = None) ds) as [Htot|Hin].
  { destruct Huni as [Hnone|Hsome].
    - destruct null_map_as as [m|] eqn:Hnull.
      + left. eapply Forall_impl; [exact Hnone|]. intros d Hd.
        unfold assigned_map. rewrite Hd, Hnull. by eexists.
      + right. eapply Forall_impl; [exact Hnone|]. intros d Hd.
        unfold assigned_map. by rewrite Hd, Hnull.
    - left. eapply Forall_impl; [exact Hsome|]. intros d [m Hd].
      unfold assigned_map. rewrite Hd. by eexists. }
  - destruct (merge_rel_rows_total fl fk tl tk ty (g_nodes g) (g_rels g) ds
                Htot) as [rs' Hrs'].
    rewrite Hrs'. simpl.
    apply merge_rel_rows_inv in Hrs' as [[ex1 Hex1] Hlinked].
    split; [done|]. split; [by eexists|].
    intros ex. rewrite merge_rel_rows_linked; [done|].
    eapply Forall_impl; [exact Hlinked|]. intros d Hd.
    eapply Forall_impl; [exact Hd|]. intros ab. apply linked_app.
  - assert (∀ rs, match merge_rel_rows fl fk tl tk ty (g_nodes g) rs ds with
                  | Some rs' => Graph (g_nodes g) rs'
                  | None => Graph (g_nodes g) rs
                  end = Graph (g_nodes g) rs) as Hinert.
    { intros rs. destruct (merge_rel_rows _ _ _ _ _ _ rs ds) eqn:Hm; [|done].
      by apply (merge_rel_rows_inert _ _ _ _ _ _ _ _ _ Hin) in Hm as ->. }
    assert (match merge_rel_rows fl fk tl tk ty (g_nodes g) (g_rels g) ds with
            | Some rs => Graph (g_nodes g) rs
            | None => g
            end = g) as ->.
    { destruct (merge_rel_rows _ _ _ _ _ _ _ ds) eqn:Hm; [|done].
      apply (merge_rel_rows_inert _ _ _ _ _ _ _ _ _ Hin) in Hm as ->.
      apply graph_eta. }
    split; [done|]. split; [exists []; by rewrite app_nil_r|].
    intros ex. apply Hinert.
Qed.

Lemma run_trace_fixed g tr :
  Forall (λ e, run_event g e = g) tr → run_trace g tr = g.
Proof.
  induction 1 as [|e tr He _ IH]; [done|].
  unfold run_trace in *. simpl. by rewrite He.
Qed.

Lemma run_trace_rels tr g :
  Forall rel_event_ok tr →
  g_nodes (run_trace g tr) = g_nodes g
  ∧ (∃ ex, g_rels (run_trace g tr) = g_rels g ++ ex)
  ∧ Forall (λ e, ∀ ex,
              run_event (Graph (g_nodes g) (g_rels (run_trace g tr) ++ ex)) e
              = Graph (g_nodes g) (g_rels (run_trace g tr) ++ ex)) tr.
Proof.
  revert g. induction tr as [|e tr IH]; intros g Hok.
  - split; [done|]. split; [|constructor]. exists []. by rewrite app_nil_r.
  - apply Forall_cons in Hok as [He Hok].
    destruct (run_event_rel e g He) as (Hn1 & [ex1 Hex1] & Habs1).
    destruct (IH (run_event g e) Hok) as (Hn2 & [ex2 Hex2] & Habs2).
    change (run_trace g (e :: tr)) with (run_trace (run_event g e) tr).
    split; [congruence|]. split.
    + exists (ex1 ++ ex2). rewrite Hex2, Hex1. by rewrite app_assoc.
    + constructor.
      * intros ex. rewrite Hex2, <- app_assoc. apply Habs1.
      * rewrite <- Hn1. exact Habs2.
Qed.

(** The relationship loop run again on the store it produced changes
    nothing. *)
Lemma rel_trace_twice tr g :
  Forall rel_event_ok tr → run_trace (run_trace g tr) tr = run_trace g tr.
Proof.
  intros Hok. destruct (run_trace_rels tr g Hok) as (Hn & _ & Habs).
  apply run_trace_fixed. eapply Forall_impl; [exact Habs|].
  intros e He. specialize (He []). rewrite app_nil_r, <- Hn in He.
  by rewrite graph_eta in He.
Qed.


(** *** What the two loops emit *)

Lemma import_node_events_ok cfg db nd :
  nd ∈ nodes cfg →
  Forall (node_event_ok (node_keys cfg)) (trace (import_node db nd)).
Proof.
  intros Hnd. unfold import_node. rewrite trace_bind. apply Forall_app. split.
  - by repeat constructor.
  - destruct (execute _ _).2 as [rows|]; [|constructor].
    apply (trace_batched_Forall _ (λ _, True)); [|done|by apply Forall_true].
    intros l _ _. rewrite merge_nodes_batch_trace.
    destruct (nd_primary_key nd) as [k|] eqn:Hk.
    + destruct (filter _ l) as [|p valid] eqn:Hf; [constructor|].
      constructor; [|constructor]. simpl. split.
      * unfold node_keys. apply list_elem_of_omap. exists nd.
        by rewrite Hk.
      * rewrite <- Hf. apply (valid_props_Forall (Some k)).
    + rewrite filter_no_key. constructor.
Qed.

Lemma batched_rels_events_ok (R : rel_datum → Prop) fl fpk tl tpk ty items :
  (∀ ds, Forall R ds →
         Forall (λ d, rel_props d = None) ds
         ∨ Forall (λ d, is_Some (rel_props d)) ds) →
  Forall R items →
  Forall rel_event_ok
    (trace (batched (_merge_rels_batch fl fpk tl tpk ty) [] items)).
Proof.
  intros HR Hitems.
  apply (trace_batched_Forall _ R); [|constructor|done].
  intros l _ Hl. rewrite merge_rels_batch_trace.
  destruct l as [|d l]; [constructor|].
  constructor; [|constructor]. simpl. by apply HR.
Qed.

Lemma import_rel_events_ok cfg sd db rd :
  Forall rel_event_ok (trace (import_rel cfg sd db rd)).
Proof.
  unfold import_rel.
  destruct (node_config cfg (rd_from_node_table rd)) as [fc|]; [|constructor].
  destruct (node_config cfg (rd_to_node_table rd)) as [tc|]; [|constructor].
  destruct (rd_source_foreign_key rd) as [sfk|].
  - destruct (PyStr.split "." sfk) as [|t [|c ?]]; [constructor..|].
    rewrite trace_bind. apply Forall_app. split; [by repeat constructor|].
    destruct (execute _ _).2 as [rows|]; [|constructor].
    apply (batched_rels_events_ok (λ d, rel_props d = None)); [by left|].
    apply Forall_fmap, Forall_true. by intros row.
  - destruct (rd_source_link_table rd) as [lt|]; [|constructor].
    destruct (falsy _ || falsy _); [constructor|].
    rewrite trace_bind. apply Forall_app. split; [by repeat constructor|].
    destruct (execute _ _).2 as [rows|]; [|constructor].
    apply (batched_rels_events_ok (λ d, is_Some (rel_props d))); [by right|].
    apply Forall_fmap, Forall_true. intros row. by eexists.
Qed.

Lemma import_data_events_ok cfg sd db :
  ∃ tr_nodes tr_rels,
    trace (import_data cfg sd db) = tr_nodes ++ tr_rels
    ∧ Forall (node_event_ok (node_keys cfg)) tr_nodes
    ∧ Forall rel_event_ok tr_rels.
Proof.
  unfold import_data. rewrite trace_bind.
  eexists _, _. split; [reflexivity|]. split.
  - apply trace_for_each_Forall. intros nd Hnd.
    by apply import_node_events_ok.
  - destruct (for_each (import_node db) (nodes cfg)).2; [|constructor].
    apply trace_for_each_Forall. intros rd _. apply import_rel_events_ok.
Qed.

(** Two runs of a trace made of a node part and a relationship part. *)
Lemma run_trace_twice K tr_nodes tr_rels g :
  keys_consistent K → Forall (node_ok K) (g_nodes g) →
  Forall (node_event_ok K) tr_nodes → Forall rel_event_ok tr_rels →
  run_trace (run_trace g (tr_nodes ++ tr_rels)) (tr_nodes ++ tr_rels)
  = run_trace g (tr_nodes ++ tr_rels).
Proof.
  intros HK Hg Hn Hr.
  assert (∀ g', run_trace g' (tr_nodes ++ tr_rels)
                = run_trace (run_trace g' tr_nodes) tr_rels) as Happ.
  { intros g'. unfold run_trace. by rewrite foldl_app. }
  rewrite !Happ.
  destruct (run_trace_nodes K tr_nodes g Hn) as [Hmid Hrows].
  set (g_mid := run_trace g tr_nodes) in *.
  set (g1 := run_trace g_mid tr_rels).
  destruct (run_trace_rels tr_rels g_mid Hr) as (Hn1 & _ & _).
  fold g1 in Hn1.
  destruct (run_trace_nodes K tr_nodes g1 Hn) as [Hagain _].
  assert (run_trace g1 tr_nodes = g1) as ->.
  { rewrite Hagain, Hn1, Hmid. simpl.
    rewrite (node_rows_twice K) by done.
    rewrite <- (graph_eta g1) at 2. f_equal. by rewrite Hn1, Hmid. }
  by apply rel_trace_twice.
Qed.

(** C1 (as amended).  When the node mappings that write a label agree on
    its identifying property, and no node already in the store carries the
    labels of two mappings that disagree, a second run of the importer over
    the same configuration, [schema_data] and source rows leaves the store
    exactly as the first run left it: no node and no relationship is added,
    and no property of a node or of a relationship changes.  This holds
    whatever the driver encodes and whatever the store does with a null
    [map.props]. *)
Theorem import_data_rerun cfg sd db g :
  keys_consistent (node_keys cfg) →
  Forall (node_ok (node_keys cfg)) (g_nodes g) →
  import_into cfg sd db (import_into cfg sd db g) = import_into cfg sd db g.
Proof.
  intros HK Hg. unfold import_into.
  destruct (import_data_events_ok cfg sd db) as (tr_n & tr_r & -> & Hn & Hr).
  by apply (run_trace_twice (node_keys cfg)).
Qed.


(** *** Batching *)

Lemma written_rows_app tr1 tr2 :
  written_rows (tr1 ++ tr2) = written_rows tr1 ++ written_rows tr2.
Proof. unfold written_rows. apply bind_app. Qed.

Lemma batched_nodes_rows label id_prop pending items :
  written_rows
    (trace (batched (_merge_nodes_batch label id_prop) pending items))
  = filter (λ p, dict_get p id_prop ≠ VNone) (pending ++ items).
Proof.
  assert (∀ l, written_rows (trace (_merge_nodes_batch label id_prop l))
               = filter (λ p, dict_get p id_prop ≠ VNone) l) as Hflush.
  { intros l. rewrite merge_nodes_batch_trace.
    destruct (filter _ l); [done|]. simpl. by rewrite app_nil_r. }
  revert pending. induction items as [|x items IH]; intros pending; simpl.
  - rewrite app_nil_r. destruct pending; [done|]. apply Hflush.
  - case_bool_decide.
    + rewrite trace_bind, merge_nodes_batch_completes, written_rows_app.
      rewrite Hflush, IH. simpl.
      by rewrite <- filter_app, <- app_assoc.
    + rewrite IH. by rewrite <- app_assoc.
Qed.

Lemma batched_nodes_sizes label id_prop pending items :
  (length pending < batch_size)%nat →
  Forall within_batch_size
    (trace (batched (_merge_nodes_batch label id_prop) pending items)).
Proof.
  assert (∀ l, (length l ≤ batch_size)%nat →
               Forall within_batch_size
                 (trace (_merge_nodes_batch label id_prop l))) as Hflush.
  { intros l Hl. rewrite merge_nodes_batch_trace.
    destruct (filter _ l) as [|p valid] eqn:Hf; [constructor|].
    constructor; [|constructor]. unfold within_batch_size.
    rewrite <- Hf. etrans; [apply length_filter|done]. }
  revert pending. induction items as [|x items IH]; intros pending Hp; simpl.
  - destruct pending; [constructor|]. apply Hflush. lia.
  - assert (length (pending ++ [x]) = S (length pending)) as Hlen
      by (rewrite length_app; simpl; lia).
    case_bool_decide.
    + rewrite trace_bind. apply Forall_app. split.
      * apply Hflush. lia.
      * destruct (_merge_nodes_batch _ _ _).2; [|constructor].
        apply IH. simpl. unfold batch_size. lia.
    + apply IH. lia.
Qed.

(** The node statements of one mapping carry, in the order of the source
    rows, exactly the converted rows whose identifying property is not
    null, each row once, and at most [batch_size] rows per statement. *)
Theorem import_node_batches db nd :
  written_rows (trace (import_node db nd))
  = filter (λ p, dict_get p (nd_primary_key nd) ≠ VNone)
           (row_props (nd_properties nd)
              <$> default [] (run_sql db (SelectAll (nd_source_table nd))))
  ∧ Forall within_batch_size (trace (import_node db nd)).
Proof.
  unfold import_node, execute. rewrite trace_bind.
  generalize (run_sql db (SelectAll (nd_source_table nd))).
  intros [rows|]; simpl.
  - split.
    + apply batched_nodes_rows.
    + constructor; [done|]. apply batched_nodes_sizes.
      simpl. unfold batch_size. lia.
  - split; [done|]. by repeat constructor.
Qed.

(** *** Relationship batches *)

Lemma written_data_app tr1 tr2 :
  written_data (tr1 ++ tr2) = written_data tr1 ++ written_data tr2.
Proof. unfold written_data. apply bind_app. Qed.

Lemma merge_rels_batch_completes fl fpk tl tpk ty ds :
  (_merge_rels_batch fl fpk tl tpk ty ds).2 = Some tt.
Proof. by destruct ds. Qed.

Lemma batched_rels_data fl fpk tl tpk ty pending items :
  written_data
    (trace (batched (_merge_rels_batch fl fpk tl tpk ty) pending items))
  = pending ++ items.
Proof.
  assert (∀ l, written_data (trace (_merge_rels_batch fl fpk tl tpk ty l)) = l)
    as Hflush.
  { intros l. rewrite merge_rels_batch_trace.
    destruct l; [done|]. simpl. by rewrite app_nil_r. }
  revert pending. induction items as [|x items IH]; intros pending; simpl.
  - rewrite app_nil_r. destruct pending; [done|]. apply Hflush.
  - case_bool_decide.
    + rewrite trace_bind, merge_rels_batch_completes, written_data_app.
      rewrite Hflush, IH. simpl. by rewrite <- app_assoc.
    + rewrite IH. by rewrite <- app_assoc.
Qed.

Lemma batched_rels_statements fc tc ty pending items :
  (length pending < batch_size)%nat →
  Forall (λ e, rel_within_batch_size e ∧ rel_statement_for fc tc ty e)
    (trace (batched (_merge_rels_batch (nd_label fc) (nd_primary_key fc)
                       (nd_label tc) (nd_primary_key tc) ty)
                    pending items)).
Proof.
  assert (∀ l, (length l ≤ batch_size)%nat →
               Forall (λ e, rel_within_batch_size e
                            ∧ rel_statement_for fc tc ty e)
                 (trace (_merge_rels_batch (nd_label fc) (nd_primary_key fc)
                           (nd_label tc) (nd_primary_key tc) ty l)))
    as Hflush.
  { intros l Hl. rewrite merge_rels_batch_trace.
    destruct l as [|d l]; [constructor|].
    constructor; [|constructor]. split; [|done].
    unfold rel_within_batch_size. simpl in *. lia. }
  revert pending. induction items as [|x items IH]; intros pending Hp; simpl.
  - destruct pending; [constructor|]. apply Hflush. lia.
  - assert (length (pending ++ [x]) = S (length pending)) as Hlen
      by (rewrite length_app; simpl; lia).
    case_bool_decide.
    + rewrite trace_bind. apply Forall_app. split.
      * apply Hflush. lia.
      * destruct (_merge_rels_batch _ _ _ _ _ _).2; [|constructor].
        apply IH. simpl. unfold batch_size. lia.
    + apply IH. lia.
Qed.

(** A link-table relationship whose endpoints and join columns resolve
    hands the store one entry per row of the link table, in row order and
    without dropping any (a null id included): [from_id] and [to_id] are
    the row's values in the two join columns, the properties are the
    converted mapped columns.  Every statement names the two endpoint
    mappings' labels and keys and the relationship's type, and holds
    between one and [batch_size] entries. *)
Theorem import_link_rel_data cfg sd db rd lt fc tc a b :
  rd_source_foreign_key rd = None →
  rd_source_link_table rd = Some lt →
  node_config cfg (rd_from_node_table rd) = Some fc →
  node_config cfg (rd_to_node_table rd) = Some tc →
  link_fk_col sd lt (rd_from_node_table rd) = Some a → a ≠ "" →
  link_fk_col sd lt (rd_to_node_table rd) = Some b → b ≠ "" →
  written_data (trace (import_rel cfg sd db rd))
  = link_datum rd (Some a) (Some b)
      <$> default [] (run_sql db (SelectAll lt))
  ∧ Forall (λ e, rel_within_batch_size e
                 ∧ rel_statement_for fc tc (rd_type rd) e)
           (trace (import_rel cfg sd db rd)).
Proof.
  intros Hsfk Hslt Hfc Htc Ha Hane Hb Hbne.
  unfold import_rel. rewrite Hsfk, Hslt, Hfc, Htc, Ha, Hb.
  assert (falsy (Some a) || falsy (Some b) = false) as ->.
  { unfold falsy. by rewrite !bool_decide_eq_false_2 by done. }
  unfold execute. rewrite trace_bind.
  generalize (run_sql db (SelectAll lt)). intros [rows|]; simpl.
  - split.
    + apply batched_rels_data.
    + constructor; [done|]. apply batched_rels_statements.
      simpl. unfold batch_size. lia.
  - split; [done|]. by repeat constructor.
Qed.

(** A direct relationship whose endpoints resolve reads the key column of
    the from mapping and the column named after the first dot of
    [source_foreign_key] from the table named before it, and hands the
    store one entry per row, in row order, none dropped and none with
    properties. *)
Theorem import_direct_rel_data cfg sd db rd sfk t c rest fc tc :
  rd_source_foreign_key rd = Some sfk →
  PyStr.split "." sfk = t :: c :: rest →
  node_config cfg (rd_from_node_table rd) = Some fc →
  node_config cfg (rd_to_node_table rd) = Some tc →
  written_data (trace (import_rel cfg sd db rd))
  = direct_datum (nd_primary_key fc) c
      <$> default []
            (run_sql db (SelectCols (py_str (nd_primary_key fc)) c t))
  ∧ Forall (λ e, rel_within_batch_size e
                 ∧ rel_statement_for fc tc (rd_type rd) e)
           (trace (import_rel cfg sd db rd)).
Proof.
  intros Hsfk Hsplit Hfc Htc.
  unfold import_rel. rewrite Hsfk, Hsplit, Hfc, Htc.
  unfold execute. rewrite trace_bind.
  generalize (run_sql db (SelectCols (py_str (nd_primary_key fc)) c t)).
  intros [rows|]; simpl.
  - split.
    + apply batched_rels_data.
    + constructor; [done|]. apply batched_rels_statements.
      simpl. unfold batch_size. lia.
  - split; [done|]. by repeat constructor.
Qed.

(** *** Property maps *)

Lemma row_props_snoc (pm : list (string * string)) kv row :
  row_props (pm ++ [kv]) row
  = <[kv.2 := convert_value_for_neo4j (dict_get row (Some kv.1))]>
      (row_props pm row).
Proof. unfold row_props. by rewrite foldl_app. Qed.

Lemma row_props_last (pm : list (string * string)) row p :
  row_props pm row !! p
  = (λ kv, convert_value_for_neo4j (dict_get row (Some kv.1)))
      <$> last (filter (λ kv, kv.2 = p) pm).
Proof.
  induction pm as [|kv pm IH] using rev_ind; [done|].
  rewrite row_props_snoc, filter_app, filter_cons, filter_nil.
  destruct (decide (kv.2 = p)) as [<-|Hne].
  - by rewrite lookup_insert_eq, last_snoc.
  - by rewrite lookup_insert_ne, app_nil_r.
Qed.

(** A graph property holds the converted value of the last source column
    mapped to it (null when the row has no such column); a property no
    column is mapped to is absent. *)
Theorem row_props_lookup (pm : list (string * string)) row p :
  row_props pm row !! p
  = (λ kv, convert_value_for_neo4j (dict_get row (Some kv.1)))
      <$> last (filter (λ kv, kv.2 = p) pm).
Proof. apply row_props_last. Qed.

Lemma convert_converted v : converted (convert_value_for_neo4j v).
Proof. by destruct v. Qed.

Lemma row_props_converted pm row : props_converted (row_props pm row).
Proof.
  intros p v Hv. rewrite row_props_last in Hv.
  destruct (last _); simplify_eq/=. apply convert_converted.
Qed.

Lemma import_node_sends_converted db nd :
  Forall sends_converted (trace (import_node db nd)).
Proof.
  unfold import_node. rewrite trace_bind. apply Forall_app. split.
  - unfold execute. simpl. by repeat constructor.
  - destruct (execute _ _).2 as [rows|]; [|constructor].
    apply (trace_batched_Forall _ props_converted); [|constructor|].
    + intros l _ Hl. rewrite merge_nodes_batch_trace.
      destruct (filter _ l) as [|p valid] eqn:Hf; [constructor|].
      constructor; [|constructor]. simpl. rewrite <- Hf.
      apply Forall_forall. intros q [_ Hq]%list_elem_of_filter.
      rewrite Forall_forall in Hl. by apply Hl.
    + apply Forall_fmap, Forall_true. intros row. apply row_props_converted.
Qed.

Lemma batched_rels_sends_converted fl fpk tl tpk ty items :
  Forall (λ d, from_option props_converted True (rel_props d)) items →
  Forall sends_converted
    (trace (batched (_merge_rels_batch fl fpk tl tpk ty) [] items)).
Proof.
  intros Hi.
  apply (trace_batched_Forall _
           (λ d, from_option props_converted True (rel_props d)));
    [|constructor|done].
  intros l _ Hl. rewrite merge_rels_batch_trace.
  destruct l; [constructor|]. constructor; [done|constructor].
Qed.

Lemma import_rel_sends_converted cfg sd db rd :
  Forall sends_converted (trace (import_rel cfg sd db rd)).
Proof.
  unfold import_rel.
  destruct (node_config cfg (rd_from_node_table rd)) as [fc|]; [|constructor].
  destruct (node_config cfg (rd_to_node_table rd)) as [tc|]; [|constructor].
  destruct (rd_source_foreign_key rd) as [sfk|].
  - destruct (PyStr.split "." sfk) as [|t [|c ?]]; [constructor..|].
    rewrite trace_bind. apply Forall_app. split.
    + by repeat constructor.
    + destruct (execute _ _).2; [|constructor].
      apply batched_rels_sends_converted.
      apply Forall_fmap, Forall_true. by intros row.
  - destruct (rd_source_link_table rd) as [lt|]; [|constructor].
    destruct (falsy _ || falsy _); [constructor|].
    rewrite trace_bind. apply Forall_app. split.
    + by repeat constructor.
    + destruct (execute _ _).2; [|constructor].
      apply batched_rels_sends_converted.
      apply Forall_fmap, Forall_true. intros row. simpl.
      apply row_props_converted.
Qed.

Lemma import_data_converted cfg sd db :
  Forall sends_converted (trace (import_data cfg sd db)).
Proof.
  unfold import_data. rewrite trace_bind. apply Forall_app. split.
  - apply trace_for_each_Forall. intros nd _.
    apply import_node_sends_converted.
  - destruct (for_each (import_node db) (nodes cfg)).2; [|constructor].
    apply trace_for_each_Forall. intros rd _.
    apply import_rel_sends_converted.
Qed.

(** No property map the importer sends, of a node or of a relationship,
    holds a [Decimal] or a date: every property value went through
    [convert_value_for_neo4j]. *)
Theorem import_data_sends_converted cfg sd db :
  Forall sends_converted (trace (import_data cfg sd db)).
Proof. apply import_data_converted. Qed.

(** *** Converted values in the store *)

Lemma set_plus_converted m n :
  props_converted m → props_converted (gn_props n) →
  props_converted (gn_props (set_plus m n)).
Proof.
  intros Hm Hn κ v. rewrite set_plus_lookup.
  destruct (m !! κ) as [w|] eqn:Hw.
  - case_bool_decide; [done|]. intros [= <-]. by apply (Hm κ).
  - apply Hn.
Qed.

Lemma merge_node_row_converted L k ns m ns' :
  props_converted m → nodes_converted ns →
  merge_node_row L k ns m = Some ns' → nodes_converted ns'.
Proof.
  intros Hm Hns. unfold merge_node_row.
  case_bool_decide as Hv; [done|].
  destruct (existsb _ ns); intros [= <-].
  - apply Forall_fmap. eapply Forall_impl; [exact Hns|]. intros n Hn. simpl.
    destruct (node_matches _ _ _ n); [by apply set_plus_converted|done].
  - apply Forall_app. split; [done|]. constructor; [|constructor].
    apply set_plus_converted; [done|]. simpl.
    intros κ v [<- <-]%lookup_singleton_Some. simpl.
    destruct (m !! k) as [w|] eqn:Hw; simpl; [by apply (Hm k)|done].
Qed.

Lemma merge_node_rows_converted L k ns ms ns' :
  Forall props_converted ms → nodes_converted ns →
  merge_node_rows L k ns ms = Some ns' → nodes_converted ns'.
Proof.
  intros Hms. revert ns.
  induction Hms as [|m ms Hm _ IH]; intros ns Hns; simpl.
  - by intros [= <-].
  - destruct (merge_node_row L k ns m) as [ns1|] eqn:H1; [|done].
    apply IH. by apply (merge_node_row_converted L k ns m).
Qed.

Lemma run_event_converted g e :
  sends_converted e → nodes_converted (g_nodes g) →
  nodes_converted (g_nodes (run_event g e)).
Proof.
  destruct e as [q|[L k ms|fl fk tl tk ty ds]]; simpl; [done| |].
  - intros Hms Hg. destruct (forallb props_encodable ms); [|done].
    destruct (merge_node_rows L k (g_nodes g) ms) as [ns|] eqn:Hns; [|done].
    simpl. by apply (merge_node_rows_converted L k (g_nodes g) ms).
  - intros _ Hg. destruct (forallb datum_encodable ds); [|done].
    by destruct (merge_rel_rows _ _ _ _ _ _ _ _).
Qed.

Lemma run_trace_converted tr g :
  Forall sends_converted tr → nodes_converted (g_nodes g) →
  nodes_converted (g_nodes (run_trace g tr)).
Proof.
  intros Htr. revert g. induction Htr as [|e tr He _ IH]; intros g Hg; [done|].
  change (run_trace g (e :: tr)) with (run_trace (run_event g e) tr).
  by apply IH, run_event_converted.
Qed.

(** A store whose node properties hold no [Decimal] and no date still holds
    none after an import. *)
Theorem import_keeps_nodes_converted cfg sd db g :
  nodes_converted (g_nodes g) →
  nodes_converted (g_nodes (import_into cfg sd db g)).
Proof. apply run_trace_converted, import_data_converted. Qed.

Lemma matching_nodes_raw L k v ns :
  nodes_converted ns → ¬ converted v → matching_nodes L k v ns = [].
Proof.
  intros Hns Hv. unfold matching_nodes.
  induction (seq 0 (length ns)) as [|i l IH]; [done|].
  rewrite filter_cons, IH. case_decide as Hi; [|done].
  destruct (ns !! i) as [n|] eqn:Hn; simpl in Hi; [|done].
  unfold node_matches in Hi.
  apply andb_true_iff in Hi as [_ Hi%bool_decide_eq_true].
  unfold nodes_converted in Hns. rewrite Forall_forall in Hns.
  apply list_elem_of_lookup_2 in Hn. by apply (Hns n Hn k) in Hi.
Qed.

Lemma merge_rel_rows_raw fl fk tl tk ty ns rs ds :
  nodes_converted ns → Forall raw_endpoint ds →
  merge_rel_rows fl fk tl tk ty ns rs ds = Some rs.
Proof.
  intros Hns Hds. induction Hds as [|d ds Hd _ IH]; simpl; [done|].
  unfold merge_rel_row.
  assert (list_prod (matching_nodes fl fk (from_id d) ns)
                    (matching_nodes tl tk (to_id d) ns) = []) as ->; [|done].
  destruct Hd as [Hd|Hd].
  - by rewrite (matching_nodes_raw fl fk (from_id d)).
  - rewrite (matching_nodes_raw tl tk (to_id d)) by done.
    by induction (matching_nodes fl fk (from_id d) ns).
Qed.

(** The endpoint ids of a relationship entry are the row's values as read,
    not converted, while the key property of a node was stored converted.
    So in a store that holds converted values only, relationship statements
    whose entries have a [Decimal] or a date for an endpoint id create no
    relationship: the statements change nothing. *)
Theorem raw_endpoints_link_nothing tr g :
  nodes_converted (g_nodes g) →
  Forall (λ e, is_node_write e = false) tr →
  Forall raw_endpoint (written_data tr) →
  run_trace g tr = g.
Proof.
  intros Hg Hnw Hraw. apply run_trace_fixed.
  apply Forall_forall. intros e He.
  rewrite Forall_forall in Hnw. specialize (Hnw e He).
  destruct e as [q|[L k ms|fl fk tl tk ty ds]]; simpl in *; [done..|].
  assert (Forall raw_endpoint ds) as Hds.
  { apply Forall_forall. intros d Hd. rewrite Forall_forall in Hraw.
    apply Hraw. unfold written_data. apply list_elem_of_bind.
    by exists (GraphRun (MergeRels fl fk tl tk ty ds)). }
  destruct (forallb datum_encodable ds); [|done].
  rewrite merge_rel_rows_raw by done. apply graph_eta.
Qed.

(** *** The store only grows *)

Lemma update_keeps_labels (f : gnode → bool) m (l : list gnode) :
  gn_labels <$> ((λ n, if f n then set_plus m n else n) <$> l)
  = gn_labels <$> l.
Proof.
  induction l as [|n l IH]; [done|]. csimpl. rewrite IH. by destruct (f n).
Qed.

Lemma merge_node_rows_grow L k ns ms ns' :
  merge_node_rows L k ns ms = Some ns' →
  (gn_labels <$> ns) `prefix_of` (gn_labels <$> ns').
Proof.
  revert ns. induction ms as [|m ms IH]; intros ns; simpl.
  - by intros [= <-].
  - destruct (merge_node_row L k ns m) as [ns1|] eqn:H1; [|done].
    intros Hrest. etrans; [|by apply IH].
    unfold merge_node_row in H1. case_bool_decide; [done|].
    destruct (existsb _ ns); injection H1 as <-.
    + by rewrite update_keeps_labels.
    + rewrite fmap_app. by apply prefix_app_r.
Qed.

Lemma run_event_grows g e :
  (gn_labels <$> g_nodes g) `prefix_of` (gn_labels <$> g_nodes (run_event g e))
  ∧ g_rels g `prefix_of` g_rels (run_event g e).
Proof.
  destruct e as [q|[L k ms|fl fk tl tk ty ds]]; simpl; [done| |].
  - destruct (forallb props_encodable ms); [|done].
    destruct (merge_node_rows L k (g_nodes g) ms) as [ns|] eqn:Hns; [|done].
    simpl. split; [|done]. by apply (merge_node_rows_grow L k _ ms).
  - destruct (forallb datum_encodable ds); [|done].
    destruct (merge_rel_rows _ _ _ _ _ _ _ _) as [rs|] eqn:Hrs; [|done].
    simpl. split; [done|].
    apply merge_rel_rows_inv in Hrs as [[ex ->] _]. by apply prefix_app_r.
Qed.

(** Whatever statements the importer sends, the store only grows: every
    node stays at its position with its labels, and every relationship
    stays as it is, endpoints, type and properties; new nodes and
    relationships come after the old ones. *)
Theorem run_trace_only_adds tr g :
  (gn_labels <$> g_nodes g) `prefix_of` (gn_labels <$> g_nodes (run_trace g tr))
  ∧ g_rels g `prefix_of` g_rels (run_trace g tr).
Proof.
  revert g. induction tr as [|e tr IH]; intros g; [done|].
  change (run_trace g (e :: tr)) with (run_trace (run_event g e) tr).
  destruct (run_event_grows g e) as [Hn1 Hr1].
  destruct (IH (run_event g e)) as [Hn2 Hr2].
  split; by etrans.
Qed.

(** *** One relationship per pair and type *)

Lemma elem_of_matching_nodes L k v ns i :
  i ∈ matching_nodes L k v ns → (i < length ns)%nat.
Proof.
  unfold matching_nodes. intros [_ Hi]%list_elem_of_filter.
  apply elem_of_seq in Hi. lia.
Qed.

Lemma merge_rel_pair_wf n ty p rs ab rs' :
  NoDup (rel_key <$> rs) →
  Forall (λ r, (gr_start r < n)%nat ∧ (gr_end r < n)%nat) rs →
  (ab.1 < n)%nat → (ab.2 < n)%nat →
  merge_rel_pair ty p rs ab = Some rs' →
  NoDup (rel_key <$> rs')
  ∧ Forall (λ r, (gr_start r < n)%nat ∧ (gr_end r < n)%nat) rs'.
Proof.
  intros Hnd Hb H1 H2. unfold merge_rel_pair.
  destruct (existsb _ rs) eqn:Hex; [by intros [= <-]|].
  destruct (assigned_map p) as [m|]; [|done]. intros [= <-]. split.
  - rewrite fmap_app. apply NoDup_app. split; [done|]. split.
    + intros x Hx ->%list_elem_of_singleton.
      apply list_elem_of_fmap in Hx as (r & Hr & Hin).
      apply existsb_Forall_false in Hex. rewrite Forall_forall in Hex.
      specialize (Hex r Hin). unfold rel_between in Hex.
      apply bool_decide_eq_false in Hex. apply Hex.
      unfold rel_key in Hr. simpl in Hr. by simplify_eq.
    + apply NoDup_singleton.
  - apply Forall_app. split; [done|]. by repeat constructor.
Qed.

Lemma merge_rel_pairs_wf n ty p rs abs rs' :
  NoDup (rel_key <$> rs) →
  Forall (λ r, (gr_start r < n)%nat ∧ (gr_end r < n)%nat) rs →
  Forall (λ ab : nat * nat, (ab.1 < n)%nat ∧ (ab.2 < n)%nat) abs →
  merge_rel_pairs ty p rs abs = Some rs' →
  NoDup (rel_key <$> rs')
  ∧ Forall (λ r, (gr_start r < n)%nat ∧ (gr_end r < n)%nat) rs'.
Proof.
  intros Hnd Hb Habs. revert rs Hnd Hb.
  induction Habs as [|ab abs [Ha1 Ha2] _ IH]; intros rs Hnd Hb; simpl.
  - by intros [= <-].
  - destruct (merge_rel_pair ty p rs ab) as [rs1|] eqn:H1; [|done].
    destruct (merge_rel_pair_wf n ty p rs ab rs1) as [Hnd1 Hb1]; [done..|].
    by apply IH.
Qed.

Lemma merge_rel_rows_wf fl fk tl tk ty ns rs ds rs' :
  NoDup (rel_key <$> rs) →
  Forall (λ r, (gr_start r < length ns)%nat ∧ (gr_end r < length ns)%nat) rs →
  merge_rel_rows fl fk tl tk ty ns rs ds = Some rs' →
  NoDup (rel_key <$> rs')
  ∧ Forall (λ r, (gr_start r < length ns)%nat ∧ (gr_end r < length ns)%nat)
           rs'.
Proof.
  revert rs. induction ds as [|d ds IH]; intros rs Hnd Hb; simpl.
  - by intros [= <-].
  - unfold merge_rel_row at 1.
    destruct (merge_rel_pairs _ _ rs _) as [rs1|] eqn:H1; [|done].
    apply (merge_rel_pairs_wf (length ns)) in H1 as [Hnd1 Hb1]; [|done..|].
    + by apply IH.
    + apply Forall_forall. intros [a b] Hab. simpl.
      apply list_elem_of_In, in_prod_iff in Hab as [Ha Hb'].
      apply list_elem_of_In in Ha, Hb'.
      split; by eapply elem_of_matching_nodes.
Qed.

Lemma run_event_wf g e : graph_wf g → graph_wf (run_event g e).
Proof.
  intros [Hnd Hb].
  destruct e as [q|[L k ms|fl fk tl tk ty ds]]; simpl; [done| |].
  - destruct (forallb props_encodable ms); [|done].
    destruct (merge_node_rows L k (g_nodes g) ms) as [ns|] eqn:Hns; [|done].
    split; [done|]. simpl.
    apply merge_node_rows_grow, prefix_length in Hns.
    rewrite !length_fmap in Hns.
    eapply Forall_impl; [exact Hb|]. intros r. simpl. lia.
  - destruct (forallb datum_encodable ds); [|done].
    destruct (merge_rel_rows _ _ _ _ _ _ _ _) as [rs|] eqn:Hrs; [|done].
    by apply merge_rel_rows_wf in Hrs.
Qed.

(** If no two relationships of the store join the same nodes with the same
    type in the same direction, and all join nodes of the store, that is
    still so after any statements of the importer. *)
Theorem run_trace_wf tr g : graph_wf g → graph_wf (run_trace g tr).
Proof.
  revert g. induction tr as [|e tr IH]; intros g Hg; [done|].
  change (run_trace g (e :: tr)) with (run_trace (run_event g e) tr).
  by apply IH, run_event_wf.
Qed.

(** *** Splitting [source_foreign_key] *)

Lemma split_nonempty sep s : PyStr.split sep s ≠ [].
Proof.
  destruct s as [|c r]; simpl; [done|].
  destruct (Ascii.eqb c sep); [done|]. by destruct (PyStr.split sep r).
Qed.

Lemma split_no_sep sep s : ¬ PyStr.contains sep s → PyStr.split sep s = [s].
Proof.
  unfold PyStr.contains. induction s as [|c r IH]; simpl; [done|].
  intros Hn. apply not_elem_of_cons in Hn as [Hc Hr].
  destruct (Ascii.eqb_spec c sep) as [->|_]; [done|]. by rewrite IH.
Qed.

Lemma split_app_sep sep a b :
  PyStr.split sep (a +:+ String sep b) = PyStr.split sep a ++ PyStr.split sep b.
Proof.
  induction a as [|c r IH]; simpl.
  - by rewrite Ascii.eqb_refl.
  - destruct (Ascii.eqb c sep); [by rewrite IH|].
    rewrite IH. pose proof (split_nonempty sep r).
    by destruct (PyStr.split sep r).
Qed.

Lemma split_head_no_sep sep s :
  ∃ w ws, PyStr.split sep s = w :: ws ∧ ¬ PyStr.contains sep w.
Proof.
  unfold PyStr.contains. induction s as [|c r (w & ws & IH & Hw)]; simpl.
  - exists "", []. split; [done|]. by intros ?%elem_of_nil.
  - destruct (Ascii.eqb_spec c sep) as [->|Hc].
    + exists "", (PyStr.split sep r). split; [done|]. by intros ?%elem_of_nil.
    + rewrite IH. exists (String c w), ws. split; [done|]. simpl.
      apply not_elem_of_cons. split; [congruence|done].
Qed.

Lemma split_sep_two sep s :
  PyStr.contains sep s → ∃ a b rest, PyStr.split sep s = a :: b :: rest.
Proof.
  unfold PyStr.contains. induction s as [|c r IH]; simpl.
  - by intros ?%elem_of_nil.
  - intros Hin. destruct (Ascii.eqb_spec c sep) as [->|Hc].
    + pose proof (split_nonempty sep r).
      destruct (PyStr.split sep r) as [|b rest]; [done|]. by eexists _, _, _.
    + apply elem_of_cons in Hin as [->|Hin]; [done|].
      destruct (IH Hin) as (a & b & rest & ->). by eexists _, _, _.
Qed.

(** *** Where a run stops *)

Lemma bind_Some {A B} (m : M A) (f : A → M B) a :
  m.2 = Some a → bind m f = (m.1 ++ (f a).1, (f a).2).
Proof.
  destruct m as [tr [x|]]; simpl; [|done]. intros [= ->]. by destruct (f a).
Qed.

Lemma bind_None {A B} (m : M A) (f : A → M B) :
  m.2 = None → bind m f = (m.1, None).
Proof. by destruct m as [tr [x|]]. Qed.

Lemma for_each_completes {A} (body : A → M unit) l :
  Forall (λ y, (body y).2 = Some tt) l → (for_each body l).2 = Some tt.
Proof.
  induction 1 as [|y l Hy _ IH]; simpl; [done|].
  by rewrite (bind_Some _ _ tt).
Qed.

Lemma for_each_stops {A} (body : A → M unit) pre x post :
  Forall (λ y, (body y).2 = Some tt) pre → (body x).2 = None →
  for_each body (pre ++ x :: post)
  = (trace (for_each body pre) ++ trace (body x), None).
Proof.
  intros Hpre Hx. induction Hpre as [|y pre Hy _ IH]; simpl.
  - by rewrite bind_None.
  - rewrite (bind_Some _ _ tt), IH by done. simpl.
    rewrite trace_bind, Hy. by rewrite app_assoc.
Qed.

Lemma batched_completes {A} (flush : list A → M unit) pending items :
  (∀ l, (flush l).2 = Some tt) → (batched flush pending items).2 = Some tt.
Proof.
  intros Hflush. revert pending.
  induction items as [|x items IH]; intros pending; simpl.
  - by destruct pending.
  - case_bool_decide; [|apply IH].
    rewrite (bind_Some _ _ tt) by done. apply IH.
Qed.

Lemma import_node_completes db nd :
  is_Some (db !! nd_source_table nd) → (import_node db nd).2 = Some tt.
Proof.
  intros [tb Htb]. unfold import_node.
  rewrite (bind_Some _ _ (rt_rows tb)) by (unfold execute; simpl; by rewrite Htb).
  apply batched_completes. intros l. apply merge_nodes_batch_completes.
Qed.

Lemma import_node_missing db nd :
  db !! nd_source_table nd = None →
  import_node db nd = ([SqlExecute (SelectAll (nd_source_table nd))], None).
Proof.
  intros Htb. unfold import_node, execute. simpl. by rewrite Htb.
Qed.

(** A node mapping whose source table the relational database does not
    have stops the whole run at its SELECT: the mappings before it are
    imported, nothing is read or written after it, no relationship
    included, and nothing that was written is taken back. *)
Theorem import_data_stops_at_missing_table cfg sd db pre nd post :
  nodes cfg = pre ++ nd :: post →
  Forall (λ n, is_Some (db !! nd_source_table n)) pre →
  db !! nd_source_table nd = None →
  import_data cfg sd db
  = (trace (for_each (import_node db) pre)
       ++ [SqlExecute (SelectAll (nd_source_table nd))],
     None).
Proof.
  intros Hnodes Hpre Hnd. unfold import_data. rewrite Hnodes.
  rewrite (for_each_stops _ pre nd post).
  - by rewrite import_node_missing.
  - eapply Forall_impl; [exact Hpre|]. intros n. apply import_node_completes.
  - by rewrite import_node_missing.
Qed.

Lemma import_rel_dotless cfg sd db rd :
  dotless_key cfg rd → import_rel cfg sd db rd = raise.
Proof.
  intros ([fc Hfc] & [tc Htc] & sfk & Hsfk & Hdot).
  unfold import_rel. rewrite Hfc, Htc, Hsfk.
  by rewrite split_no_sep.
Qed.

(** A direct relationship with both endpoints mapped whose
    [source_foreign_key] has no dot stops the run before anything is read
    for it: the nodes and the relationships before it stay imported, the
    relationships after it are not. *)
Theorem import_data_stops_at_dotless_key cfg sd db pre rd post :
  (for_each (import_node db) (nodes cfg)).2 = Some tt →
  relationships cfg = pre ++ rd :: post →
  Forall (λ r, (import_rel cfg sd db r).2 = Some tt) pre →
  dotless_key cfg rd →
  import_data cfg sd db
  = (trace (for_each (import_node db) (nodes cfg))
       ++ trace (for_each (import_rel cfg sd db) pre),
     None).
Proof.
  intros Hn Hrels Hpre Hrd. unfold import_data.
  rewrite (bind_Some _ _ tt) by done. rewrite Hrels.
  rewrite (for_each_stops _ pre rd post); [|done|].
  - rewrite import_rel_dotless by done. simpl. by rewrite app_nil_r.
  - by rewrite import_rel_dotless.
Qed.

Lemma bind_abort {A B} db (Q : Prop) (m : M A) (f : A → M B) :
  (m.2 = None → (∃ e, last m.1 = Some e ∧ rejected db e) ∨ Q) →
  (∀ a, (f a).2 = None → (∃ e, last (f a).1 = Some e ∧ rejected db e) ∨ Q) →
  (bind m f).2 = None →
  (∃ e, last (bind m f).1 = Some e ∧ rejected db e) ∨ Q.
Proof.
  intros Hm Hf. destruct m as [tr [a|]]; simpl in *.
  - specialize (Hf a). destruct (f a) as [tr' b]. simpl in *.
    intros Hb. destruct (Hf Hb) as [(e & He & Hrej)|HQ]; [|by right].
    left. exists e. split; [|done]. by rewrite last_app, He.
  - intros _. by apply Hm.
Qed.

Lemma for_each_abort {A} db (Q : A → Prop) (body : A → M unit) l :
  (∀ x, (body x).2 = None →
        (∃ e, last (body x).1 = Some e ∧ rejected db e) ∨ Q x) →
  (for_each body l).2 = None →
  (∃ e, last (for_each body l).1 = Some e ∧ rejected db e) ∨ Exists Q l.
Proof.
  intros Hbody. induction l as [|x l IH]; simpl; [done|].
  intros Hnone.
  destruct (body x) as [tr [[]|]] eqn:Hx; simpl in *.
  - destruct (for_each body l) as [tr' b] eqn:Hl. simpl in *.
    destruct (IH Hnone) as [(e & He & Hrej)|HQ].
    + left. exists e. split; [|done]. by rewrite last_app, He.
    + right. by apply Exists_cons_tl.
  - specialize (Hbody x). rewrite Hx in Hbody.
    destruct (Hbody eq_refl) as [?|HQ]; [by left|].
    right. by apply Exists_cons_hd.
Qed.

Lemma execute_batched_abort {A} db q (flush : list A → M unit) mk :
  (∀ l, (flush l).2 = Some tt) →
  (bind (execute db q) (λ rows, batched flush [] (mk rows))).2 = None →
  ∃ e, last (bind (execute db q) (λ rows, batched flush [] (mk rows))).1
       = Some e ∧ rejected db e.
Proof.
  intros Hflush. unfold execute.
  destruct (run_sql db q) as [rows|] eqn:Hq; simpl.
  - pose proof (batched_completes flush [] (mk rows) Hflush) as Hb.
    destruct (batched flush [] (mk rows)) as [tr b]. simpl in *.
    intros ->. done.
  - intros _. by exists (SqlExecute q).
Qed.

Lemma import_node_abort db nd :
  (import_node db nd).2 = None →
  ∃ e, last (import_node db nd).1 = Some e ∧ rejected db e.
Proof.
  apply execute_batched_abort. intros l. apply merge_nodes_batch_completes.
Qed.

Lemma import_rel_abort cfg sd db rd :
  (import_rel cfg sd db rd).2 = None →
  (∃ e, last (import_rel cfg sd db rd).1 = Some e ∧ rejected db e)
  ∨ dotless_key cfg rd.
Proof.
  unfold dotless_key, import_rel.
  destruct (node_config cfg (rd_from_node_table rd)) as [fc|]; [|done].
  destruct (node_config cfg (rd_to_node_table rd)) as [tc|]; [|done].
  destruct (rd_source_foreign_key rd) as [sfk|].
  - destruct (decide (PyStr.contains "." sfk)) as [Hdot|Hdot].
    + destruct (split_sep_two _ _ Hdot) as (a & b & rest & ->).
      intros Hnone. left. revert Hnone.
      apply (execute_batched_abort db _ _ (fmap _)).
      intros l. apply merge_rels_batch_completes.
    + intros _. right. split; [by eexists|]. split; [by eexists|].
      by exists sfk.
  - destruct (rd_source_link_table rd) as [lt|]; [|done].
    destruct (falsy _ || falsy _); [done|].
    intros Hnone. left. revert Hnone.
    apply (execute_batched_abort db _ _ (fmap _)).
    intros l. apply merge_rels_batch_completes.
Qed.

Lemma import_data_abort cfg sd db :
  (import_data cfg sd db).2 = None →
  (∃ e, last (trace (import_data cfg sd db)) = Some e ∧ rejected db e)
  ∨ Exists (dotless_key cfg) (relationships cfg).
Proof.
  unfold import_data, trace. apply bind_abort.
  - intros Hnone.
    destruct (for_each_abort db (λ _, False) (import_node db) (nodes cfg))
      as [?|HQ]; [|done|by left|].
    + intros nd Hnd. left. by apply import_node_abort.
    + by apply Exists_exists in HQ as (? & _ & []).
  - intros _. apply for_each_abort. apply import_rel_abort.
Qed.

(** A run that does not reach its end stopped for one of two reasons: the
    last thing it did was to execute a SELECT the relational server
    rejected, or it met a direct relationship with both endpoints mapped
    whose [source_foreign_key] has no dot.  The graph store failing a
    statement never stops a run. *)
Theorem import_data_abort_cause cfg sd db :
  (import_data cfg sd db).2 = None →
  (∃ e, last (trace (import_data cfg sd db)) = Some e ∧ rejected db e)
  ∨ Exists (dotless_key cfg) (relationships cfg).
Proof. apply import_data_abort. Qed.

(** *** One node per key, with the latest values *)

Lemma key_value_update K r n L k :
  node_ok K n → row_ok K r → (L, k) ∈ K →
  key_value L k (row_update r n) = key_value L k n.
Proof.
  intros Hn [Hr _] HLk. unfold key_value. rewrite row_update_labels.
  case_bool_decide as HL; [|done]. unfold row_update.
  destruct (row_matches r n) eqn:Hm; [|done].
  pose proof (set_plus_keeps_key r n Hm) as Hkey.
  apply row_matches_spec in Hm as (_ & HL' & Hp).
  destruct r as [[L' k'] m]. simpl in *.
  assert (k = k') as -> by by eapply (node_ok_key K n L k L' k').
  congruence.
Qed.

Lemma row_step_ok K ns r :
  keys_consistent K → Forall (node_ok K) ns →
  Forall (node_ok K) (row_step ns r).
Proof.
  intros HK Hns. unfold row_step. destruct (existsb _ ns).
  - apply Forall_fmap. eapply Forall_impl; [exact Hns|].
    intros n. apply row_update_ok.
  - apply Forall_app. split; [done|]. constructor; [|constructor].
    by apply row_new_ok.
Qed.

Lemma row_step_unique K ns r :
  keys_consistent K → Forall (node_ok K) ns → row_ok K r →
  keys_unique K ns → keys_unique K (row_step ns r).
Proof.
  intros HK Hns Hr Hu. unfold keys_unique in *.
  rewrite Forall_forall in Hu |- *. intros [L k] HLk. specialize (Hu _ HLk).
  simpl in *. unfold row_step.
  destruct (existsb (row_matches r) ns) eqn:Hex.
  - assert (omap (key_value L k) (row_update r <$> ns)
            = omap (key_value L k) ns) as ->; [|done].
    clear Hu Hex. induction Hns as [|n ns Hn _ IH]; [done|]. csimpl.
    by rewrite (key_value_update K), IH.
  - rewrite omap_app. apply NoDup_app. split; [done|]. split.
    2: { simpl. destruct (key_value L k (row_new r)); [|constructor].
         apply NoDup_singleton. }
    intros v Hv Hnew. apply list_elem_of_omap in Hv as (n & Hn & Hv).
    apply list_elem_of_omap in Hnew as (n' & ->%list_elem_of_singleton & Hnew).
    unfold key_value in Hnew, Hv.
    case_bool_decide as HL; [|done]. case_bool_decide as HLn; [|done].
    destruct Hr as [HrK Hrv].
    apply list_elem_of_singleton in HL as ->.
    assert (k = r.1.2) as ->.
    { eapply keys_consistent_key; [done..|]. by destruct r as [[? ?] ?]. }
    rewrite row_new_key in Hnew by done. injection Hnew as <-.
    apply existsb_Forall_false in Hex. rewrite Forall_forall in Hex.
    specialize (Hex n Hn).
    assert (row_matches r n = true) as Hm; [|congruence].
    by apply row_matches_spec.
Qed.

Lemma rows_unique K rows ns :
  keys_consistent K → Forall (node_ok K) ns → Forall (row_ok K) rows →
  keys_unique K ns → keys_unique K (foldl row_step ns rows).
Proof.
  intros HK. revert ns.
  induction rows as [|r rows IH]; intros ns Hns Hrows Hu; [done|].
  apply Forall_cons in Hrows as [Hr Hrows]. simpl.
  apply IH; [by apply row_step_ok|done|by apply row_step_unique].
Qed.

Lemma node_rows_app tr1 tr2 :
  node_rows (tr1 ++ tr2) = node_rows tr1 ++ node_rows tr2.
Proof. unfold node_rows. apply bind_app. Qed.

Lemma rel_events_no_rows tr : Forall rel_event_ok tr → node_rows tr = [].
Proof.
  induction 1 as [|e tr He _ IH]; [done|].
  unfold node_rows in *. csimpl. rewrite IH, app_nil_r.
  by destruct e as [q|[L k ms|]].
Qed.

(** The nodes after an import are the nodes before it taken through the
    rows of the node statements, one row after the other. *)
Lemma import_into_nodes cfg sd db g :
  g_nodes (import_into cfg sd db g)
  = foldl row_step (g_nodes g) (node_rows (trace (import_data cfg sd db)))
  ∧ Forall (row_ok (node_keys cfg)) (node_rows (trace (import_data cfg sd db))).
Proof.
  unfold import_into.
  destruct (import_data_events_ok cfg sd db) as (tr_n & tr_r & -> & Hn & Hr).
  rewrite node_rows_app, (rel_events_no_rows tr_r), app_nil_r by done.
  destruct (run_trace_nodes (node_keys cfg) tr_n g Hn) as [Hmid Hrows].
  split; [|done].
  assert (run_trace g (tr_n ++ tr_r) = run_trace (run_trace g tr_n) tr_r)
    as -> by (unfold run_trace; by rewrite foldl_app).
  destruct (run_trace_rels tr_r (run_trace g tr_n) Hr) as (-> & _ & _).
  by rewrite Hmid.
Qed.

(** When the mappings that write a label agree on its identifying property
    and the store is one where no two nodes with a mapping's label share a
    value of that property, the import leaves it so: it creates no
    duplicate of a node. *)
Theorem import_keeps_keys_unique cfg sd db g :
  keys_consistent (node_keys cfg) →
  Forall (node_ok (node_keys cfg)) (g_nodes g) →
  keys_unique (node_keys cfg) (g_nodes g) →
  keys_unique (node_keys cfg) (g_nodes (import_into cfg sd db g)).
Proof.
  intros HK Hok Hu.
  destruct (import_into_nodes cfg sd db g) as [-> Hrows].
  by apply rows_unique.
Qed.

Lemma import_into_settled cfg sd db g :
  keys_consistent (node_keys cfg) →
  Forall (node_ok (node_keys cfg)) (g_nodes g) →
  rows_settled (node_keys cfg) (node_rows (trace (import_data cfg sd db)))
    (g_nodes (import_into cfg sd db g)).
Proof.
  intros HK Hok.
  destruct (import_into_nodes cfg sd db g) as [-> Hrows].
  apply (settled_run (node_keys cfg) _ [] (g_nodes g)); [done..|].
  split_and!; [done| |constructor]. by apply Forall_true.
Qed.

(** Under the same condition on the mappings, every row that reached the
    store in a node statement the driver could encode has its node after
    the import: a node with the mapping's label whose identifying property
    has the row's value. *)
Theorem imported_rows_have_nodes cfg sd db g :
  keys_consistent (node_keys cfg) →
  Forall (node_ok (node_keys cfg)) (g_nodes g) →
  Forall (λ r, Exists (λ n, r.1.1 ∈ gn_labels n
                            ∧ gn_props n !! r.1.2 = Some (row_value r))
                 (g_nodes (import_into cfg sd db g)))
         (node_rows (trace (import_data cfg sd db))).
Proof.
  intros HK Hok.
  destruct (import_into_settled cfg sd db g HK Hok) as (_ & _ & Hcov).
  eapply Forall_impl; [exact Hcov|]. intros r Hr.
  eapply Exists_impl; [exact Hr|]. intros n Hn. simpl in Hn.
  by apply row_matches_spec in Hn as (_ & ? & ?).
Qed.

(** And a node shows the values of the last row written for it: whatever
    that row says of a property is what the node has, a null meaning that
    the node has no such property. *)
Theorem latest_row_wins cfg sd db g n pre r post :
  keys_consistent (node_keys cfg) →
  Forall (node_ok (node_keys cfg)) (g_nodes g) →
  n ∈ g_nodes (import_into cfg sd db g) →
  node_rows (trace (import_data cfg sd db)) = pre ++ r :: post →
  row_matches r n = true →
  Forall (λ r', row_matches r' n = false) post →
  ∀ κ v, r.2 !! κ = Some v →
         gn_props n !! κ = if bool_decide (v = VNone) then None else Some v.
Proof.
  intros HK Hok Hn Hrows Hm Hpost κ v Hv.
  destruct (import_into_settled cfg sd db g HK Hok) as (Hoks & Hsat & _).
  destruct (import_into_nodes cfg sd db g) as [_ Hrok].
  rewrite Hrows in Hsat, Hrok.
  apply Forall_app in Hrok as [Hpre Hrok].
  apply Forall_cons in Hrok as [Hr Hpostok].
  rewrite Forall_forall in Hoks, Hsat.
  specialize (Hoks n Hn). specialize (Hsat n Hn). simpl in Hsat.
  unfold apply_rows in Hsat. rewrite foldl_app in Hsat. simpl in Hsat.
  fold (apply_rows pre n) in Hsat.
  fold (apply_rows post (row_update r (apply_rows pre n))) in Hsat.
  assert (row_matches r (apply_rows pre n) = true) as Hm1
    by by rewrite (row_matches_apply (node_keys cfg)).
  assert (node_ok (node_keys cfg) (apply_rows pre n)) as Hok1
    by by apply apply_rows_ok.
  rewrite apply_rows_nomatch in Hsat.
  - unfold row_update in Hsat. rewrite Hm1 in Hsat.
    rewrite <- Hsat, set_plus_lookup. by rewrite Hv.
  - rewrite Forall_forall in Hpost, Hpostok |- *. intros r' Hr'.
    rewrite (row_matches_update (node_keys cfg)) by auto.
    rewrite (row_matches_apply (node_keys cfg)) by auto. auto.
Qed.

(** *** Relationships that are created *)

Lemma run_trace_app g tr1 tr2 :
  run_trace g (tr1 ++ tr2) = run_trace (run_trace g tr1) tr2.
Proof. unfold run_trace. by rewrite foldl_app. Qed.

Lemma run_rel_statement_links g fl fk tl tk ty ds :
  forallb datum_encodable ds = true →
  Forall (λ d, is_Some (rel_props d)) ds →
  Forall (λ d, Forall (linked ty (g_rels (run_event g
                         (GraphRun (MergeRels fl fk tl tk ty ds)))))
                 (datum_pairs fl fk tl tk (g_nodes g) d)) ds.
Proof.
  intros Henc Hprops. simpl. rewrite Henc.
  destruct (merge_rel_rows_total fl fk tl tk ty (g_nodes g) (g_rels g) ds)
    as [rs Hrs].
  { eapply Forall_impl; [exact Hprops|]. intros d [m Hm].
    unfold assigned_map. rewrite Hm. by eexists. }
  rewrite Hrs. simpl. by apply merge_rel_rows_inv in Hrs as [_ Hl].
Qed.

(** A link-table statement the driver can encode leaves, for each of its
    entries, a relationship of the type from every node that has the from
    label and the entry's [from_id] as key to every node that has the to
    label and the entry's [to_id] as key; these relationships are there
    when the import ends. *)
Theorem link_entries_are_linked cfg sd db g fl fk tl tk ty ds :
  GraphRun (MergeRels fl fk tl tk ty ds) ∈ trace (import_data cfg sd db) →
  forallb datum_encodable ds = true →
  Forall (λ d, is_Some (rel_props d)) ds →
  Forall (λ d, Forall (linked ty (g_rels (import_into cfg sd db g)))
                 (datum_pairs fl fk tl tk
                    (g_nodes (import_into cfg sd db g)) d)) ds.
Proof.
  intros Hin Henc Hprops. unfold import_into.
  destruct (import_data_events_ok cfg sd db) as (tr_n & tr_r & Htr & Hn & Hr).
  rewrite Htr in *. clear Htr.
  apply elem_of_app in Hin as [Hin|Hin].
  { rewrite Forall_forall in Hn. by apply Hn in Hin. }
  apply list_elem_of_split in Hin as (a & b & ->).
  apply Forall_app in Hr as [Ha Hb]. apply Forall_cons in Hb as [_ Hb].
  rewrite run_trace_app, run_trace_app.
  set (g1 := run_trace (run_trace g tr_n) a).
  change (run_trace g1 (GraphRun (MergeRels fl fk tl tk ty ds) :: b))
    with (run_trace (run_event g1 (GraphRun (MergeRels fl fk tl tk ty ds))) b).
  set (g2 := run_event g1 (GraphRun (MergeRels fl fk tl tk ty ds))).
  destruct (run_trace_rels b g2 Hb) as (Hnodes & [ex Hex] & _).
  assert (g_nodes g2 = g_nodes g1) as Hg2.
  { unfold g2. simpl. destruct (forallb datum_encodable ds); [|done].
    by destruct (merge_rel_rows _ _ _ _ _ _ _ _). }
  rewrite Hnodes, Hex, Hg2.
  eapply Forall_impl;
    [exact (run_rel_statement_links g1 fl fk tl tk ty ds Henc Hprops)|].
  intros d Hd. eapply Forall_impl; [exact Hd|]. intros ab.
  apply linked_app.
Qed.

(** *** Null endpoint ids *)

Lemma matching_nodes_null L k ns : matching_nodes L k VNone ns = [].
Proof.
  unfold matching_nodes.
  induction (seq 0 (length ns)) as [|i l IH]; [done|].
  rewrite filter_cons, IH. case_decide as Hi; [|done].
  by destruct (ns !! i).
Qed.

Lemma merge_rel_row_null fl fk tl tk ty ns rs d :
  ¬ (from_id d ≠ VNone ∧ to_id d ≠ VNone) →
  merge_rel_row fl fk tl tk ty ns rs d = Some rs.
Proof.
  intros Hnull. unfold merge_rel_row.
  assert (list_prod (matching_nodes fl fk (from_id d) ns)
                    (matching_nodes tl tk (to_id d) ns) = []) as ->; [|done].
  destruct (decide (from_id d = VNone)) as [->|Hf].
  - by rewrite matching_nodes_null.
  - destruct (decide (to_id d = VNone)) as [->|Ht]; [|tauto].
    rewrite matching_nodes_null.
    by induction (matching_nodes fl fk (from_id d) ns).
Qed.

Lemma merge_rel_rows_skip_null fl fk tl tk ty ns rs ds :
  merge_rel_rows fl fk tl tk ty ns rs ds
  = merge_rel_rows fl fk tl tk ty ns rs
      (filter (λ d, from_id d ≠ VNone ∧ to_id d ≠ VNone) ds).
Proof.
  revert rs. induction ds as [|d ds IH]; intros rs; [done|].
  rewrite filter_cons. case_decide as Hd; simpl.
  - destruct (merge_rel_row _ _ _ _ _ _ _ _); [apply IH|done].
  - rewrite merge_rel_row_null by done. apply IH.
Qed.

(** An entry whose [from_id] or [to_id] is null (a row with a null
    foreign key) is sent to the store like any other and matches no node:
    it creates no relationship and does not keep the other entries of its
    statement from creating theirs.  The statement does what it would do
    without such entries. *)
Theorem null_ids_are_skipped g fl fk tl tk ty ds :
  forallb datum_encodable ds = true →
  run_call g (MergeRels fl fk tl tk ty ds)
  = run_call g (MergeRels fl fk tl tk ty
                  (filter (λ d, from_id d ≠ VNone ∧ to_id d ≠ VNone) ds)).
Proof.
  intros Henc. simpl. rewrite Henc.
  assert (forallb datum_encodable
            (filter (λ d, from_id d ≠ VNone ∧ to_id d ≠ VNone) ds) = true)
    as ->.
  { apply forallb_forall. intros d Hd%list_elem_of_In.
    apply list_elem_of_filter in Hd as [_ Hd].
    rewrite forallb_forall in Henc. by apply Henc, list_elem_of_In. }
  by rewrite <- merge_rel_rows_skip_null.
Qed.

(** *** Full batches *)

Lemma batched_rels_full fl fpk tl tpk ty pending items pre e :
  (length pending < batch_size)%nat →
  trace (batched (_merge_rels_batch fl fpk tl tpk ty) pending items)
  = pre ++ [e] →
  Forall full_batch pre.
Proof.
  revert pending pre.
  induction items as [|x items IH]; intros pending pre Hp; simpl.
  - destruct pending as [|p pending]; simpl.
    + by destruct pre.
    + destruct pre as [|e0 [|e1 pre]]; [constructor|done..].
  - assert (length (pending ++ [x]) = S (length pending)) as Hlen
      by (rewrite length_app; simpl; lia).
    case_bool_decide as Hfull; [|apply IH; lia].
    rewrite trace_bind, merge_rels_batch_completes, merge_rels_batch_trace.
    destruct (pending ++ [x]) as [|d l] eqn:Hpx; [by destruct pending|].
    rewrite <- Hpx. simpl. intros Heq.
    destruct pre as [|e0 pre].
    + simpl in Heq. injection Heq as _ Heq. constructor.
    + simpl in Heq. injection Heq as <- Heq. constructor.
      * unfold full_batch. rewrite Hpx. lia.
      * apply (IH [] pre); [simpl; unfold batch_size; lia|done].
Qed.

(** The relationship statements of one mapping are full batches, all but
    the last: every statement before the last one holds exactly
    [batch_size] entries. *)
Theorem import_rel_batches_full cfg sd db rd pre e :
  trace (import_rel cfg sd db rd) = pre ++ [e] →
  Forall full_batch pre.
Proof.
  assert (∀ q fl fpk tl tpk ty (mk : list props → list rel_datum),
            trace (bind (execute db q)
                     (λ rows, batched (_merge_rels_batch fl fpk tl tpk ty) []
                                (mk rows)))
            = pre ++ [e] → Forall full_batch pre) as Hloop.
  { intros q fl fpk tl tpk ty mk. rewrite trace_bind. unfold execute. simpl.
    destruct (run_sql db q) as [rows|]; simpl.
    - destruct pre as [|e0 pre]; [constructor|].
      simpl. intros [= <- Heq]. constructor; [done|].
      apply (batched_rels_full fl fpk tl tpk ty [] (mk rows) pre e);
        [simpl; unfold batch_size; lia|done].
    - destruct pre as [|e0 [|e1 pre]]; [constructor|done..]. }
  unfold import_rel.
  destruct (node_config cfg (rd_from_node_table rd)) as [fc|];
    [|by destruct pre].
  destruct (node_config cfg (rd_to_node_table rd)) as [tc|];
    [|by destruct pre].
  destruct (rd_source_foreign_key rd) as [sfk|].
  - destruct (PyStr.split "." sfk) as [|t [|c ?]]; [by destruct pre..|].
    apply (Hloop _ _ _ _ _ _ (fmap _)).
  - destruct (rd_source_link_table rd) as [lt|]; [|by destruct pre].
    destruct (falsy _ || falsy _); [by destruct pre|].
    apply (Hloop _ _ _ _ _ _ (fmap _)).
Qed.

End Importer.

(** ** Properties of the metadata extractor *)

Lemma extract_tables_recorded cat names acc cur :
  ∃ recorded,
    (Extractor.extract_tables cat names acc cur).1 = acc ++ recorded
    ∧ Forall (λ t, tbl_name t ∈ names
                   ∧ tbl_columns t = Extractor.cat_columns cat (tbl_name t)
                   ∧ tbl_primary_key t
                     = head (Extractor.cat_primary_key cat (tbl_name t)))
             recorded.
Proof.
  revert acc cur. induction names as [|name names IH]; intros acc cur; simpl.
  - exists []. by rewrite app_nil_r.
  - unfold Extractor.execute, Extractor.fetchall, Extractor.fetchone,
      Extractor.has_unread.
    destruct (Extractor.unread_names cur), (Extractor.unread_fks cur); simpl;
      try (exists []; by rewrite app_nil_r).
    destruct (IH (acc ++ [Table name (Extractor.cat_columns cat name)
                            (head (Extractor.cat_primary_key cat name))])
                 (Extractor.Cursor
                    (tail (Extractor.cat_primary_key cat name)) []))
      as (recorded & Heq & Hall).
    eexists (_ :: recorded). rewrite Heq, <- app_assoc. split; [done|].
    constructor.
    + simpl. split; [left|done].
    + eapply Forall_impl; [exact Hall|]. intros t (Hin & ? & ?).
      split; [by right|done].
Qed.

(** C6 (as amended).  Every table the extractor records carries as primary
    key the first row of the PRIMARY KEY query for that table: the key
    column of a single-column key, the first returned column of a composite
    key, and [None] when the query returns no row. *)
Theorem extractor_primary_key cat :
  Forall (λ t, tbl_name t ∈ Extractor.cat_tables cat
               ∧ match Extractor.cat_primary_key cat (tbl_name t) with
                 | [] => tbl_primary_key t = None
                 | c :: _ => tbl_primary_key t = Some c
                 end)
         (tables (Extractor.extract_relational_schema cat)).
Proof.
  unfold Extractor.extract_relational_schema. simpl.
  destruct (extract_tables_recorded cat (Extractor.cat_tables cat) []
              (Extractor.Cursor [] [])) as (recorded & Heq & Hall).
  assert (Forall (λ t, tbl_name t ∈ Extractor.cat_tables cat
               ∧ match Extractor.cat_primary_key cat (tbl_name t) with
                 | [] => tbl_primary_key t = None
                 | c :: _ => tbl_primary_key t = Some c
                 end) recorded) as Hrec.
  { eapply Forall_impl; [exact Hall|]. intros t (Hin & _ & Hpk).
    split; [done|]. by destruct (Extractor.cat_primary_key cat (tbl_name t)). }
  destruct (Extractor.extract_tables _ _ _ _) as [tbls [cur|]]; simpl in *;
    subst tbls; [|done].
  by destruct (Extractor.execute_fks _ cur).
Qed.

(** ** Properties of the mapping inference *)

Lemma NoDup_fmap_eq {A B} (f : A → B) (l : list A) x y :
  NoDup (f <$> l) → x ∈ l → y ∈ l → f x = f y → x = y.
Proof.
  induction l as [|a l IH]; intros Hnd Hx Hy Hf; [by apply elem_of_nil in Hx|].
  rewrite fmap_cons in Hnd. apply NoDup_cons in Hnd as [Ha Hnd].
  apply elem_of_cons in Hx as [->|Hx], Hy as [->|Hy]; [done| | |by apply IH].
  - exfalso. apply Ha. rewrite Hf. by apply list_elem_of_fmap_2.
  - exfalso. apply Ha. rewrite <- Hf. by apply list_elem_of_fmap_2.
Qed.

Lemma filter_by_key {A B} `{EqDecision B} (f : A → B) (l : list A) x :
  NoDup (f <$> l) → x ∈ l → filter (λ y, f y = f x) l = [x].
Proof.
  induction l as [|a l IH]; intros Hnd Hx; [by apply elem_of_nil in Hx|].
  rewrite fmap_cons in Hnd. apply NoDup_cons in Hnd as [Ha Hnd].
  rewrite filter_cons. apply elem_of_cons in Hx as [->|Hx].
  - rewrite decide_True by done. f_equal. clear IH Hnd.
    induction l as [|b l IHl]; [done|].
    rewrite fmap_cons in Ha. apply not_elem_of_cons in Ha as [Hab Ha].
    rewrite filter_cons, decide_False by congruence. by apply IHl.
  - rewrite decide_False; [by apply IH|].
    intros Hf. apply Ha. rewrite Hf. by apply list_elem_of_fmap_2.
Qed.

Lemma generate_nodes_filter sd :
  Inference.generate_nodes sd
  = Inference.node_mapping
      <$> filter (λ t, Inference.is_pure_link sd t = false) (tables sd).
Proof.
  unfold Inference.generate_nodes.
  assert (∀ l acc,
            foldl (Inference.nodes_step sd) acc l
            = acc ++ (Inference.node_mapping
                        <$> filter (λ t, Inference.is_pure_link sd t = false) l))
    as Hgen.
  { induction l as [|t l IH]; intros acc; simpl; [by rewrite app_nil_r|].
    rewrite IH, filter_cons. unfold Inference.nodes_step.
    destruct (Inference.is_pure_link sd t) eqn:Ht.
    - by rewrite decide_False.
    - rewrite decide_True by done. by rewrite fmap_cons, <- app_assoc. }
  by rewrite Hgen.
Qed.

(** With unique table names, a table has a node mapping exactly when the
    test of line 119 fails for it. *)
Lemma node_mapping_absent_iff sd t :
  NoDup (tbl_name <$> tables sd) → t ∈ tables sd →
  (∀ nd, nd ∈ nodes (Inference.generate_initial_config sd) →
         nd_source_table nd ≠ tbl_name t)
  ↔ Inference.is_pure_link sd t = true.
Proof.
  intros Hnd Ht. simpl. rewrite generate_nodes_filter. split.
  - intros Hno. destruct (Inference.is_pure_link sd t) eqn:Hl; [done|].
    exfalso. apply (Hno (Inference.node_mapping t)); [|done].
    apply list_elem_of_fmap_2, list_elem_of_filter. by split.
  - intros Hl nd (t' & -> & [Hl' Ht']%list_elem_of_filter)%list_elem_of_fmap.
    simpl. intros Heq.
    assert (t' = t) as -> by by apply (NoDup_fmap_eq tbl_name (tables sd)).
    congruence.
Qed.

Lemma elem_of_fk_columns sd t c :
  c ∈ Inference.fk_columns sd t
  ↔ ∃ fk, fk ∈ foreign_keys sd ∧ fk_from_table fk = tbl_name t
          ∧ fk_from_column fk = c.
Proof.
  unfold Inference.fk_columns. rewrite list_elem_of_fmap. split.
  - intros (fk & -> & [Hft Hin]%list_elem_of_filter). by exists fk.
  - intros (fk & Hin & Hft & <-). exists fk. split; [done|].
    by apply list_elem_of_filter.
Qed.

(** On a table whose columns are distinct and contain the referencing
    columns of its foreign keys, comparing the two counts is comparing the
    two sets. *)
Lemma is_pure_link_iff sd t :
  NoDup (tbl_columns t) →
  Forall (λ fk, fk_from_table fk = tbl_name t →
                fk_from_column fk ∈ tbl_columns t) (foreign_keys sd) →
  Inference.is_pure_link sd t = true
  ↔ tbl_primary_key t = None
    ∧ ∀ c, c ∈ tbl_columns t →
           ∃ fk, fk ∈ foreign_keys sd ∧ fk_from_table fk = tbl_name t
                 ∧ fk_from_column fk = c.
Proof.
  intros Hcols Hwf. rewrite Forall_forall in Hwf.
  unfold Inference.is_pure_link.
  rewrite andb_true_iff, !bool_decide_eq_true.
  set (X := list_to_set (Inference.fk_columns sd t) : gset string).
  set (C := list_to_set (tbl_columns t) : gset string).
  assert (size C = length (tbl_columns t)) as HC
    by by apply size_list_to_set.
  assert (X ⊆ C) as Hsub.
  { intros c. unfold X, C. rewrite !elem_of_list_to_set, elem_of_fk_columns.
    intros (fk & Hin & Hft & <-). by apply Hwf. }
  split.
  - intros [Hlen Hpk]. split; [done|]. intros c Hc.
    apply elem_of_fk_columns.
    assert (X = C) as HXC by (apply set_subseteq_size_eq; [done|lia]).
    apply (elem_of_list_to_set (C := gset string)). fold X. rewrite HXC.
    by apply elem_of_list_to_set.
  - intros [Hpk Hcov]. split; [|done].
    assert (X = C) as ->; [|done].
    apply (anti_symm (⊆)); [done|]. intros c. unfold X, C.
    rewrite !elem_of_list_to_set, elem_of_fk_columns. apply Hcov.
Qed.

(** C2.  For a schema whose tables have unique names, and a table of it
    whose columns are distinct and include the referencing column of each of
    its foreign keys (as the rows of a relational catalog are), the table
    has no node mapping if and only if it has no primary key and every
    column of it is the referencing column of one of its foreign keys; in
    particular a table without primary key whose columns are covered by
    exactly two foreign keys has no node mapping. *)
Theorem pure_link_table_iff sd t :
  NoDup (tbl_name <$> tables sd) → t ∈ tables sd →
  NoDup (tbl_columns t) →
  Forall (λ fk, fk_from_table fk = tbl_name t →
                fk_from_column fk ∈ tbl_columns t) (foreign_keys sd) →
  ((∀ nd, nd ∈ nodes (Inference.generate_initial_config sd) →
          nd_source_table nd ≠ tbl_name t)
   ↔ tbl_primary_key t = None
     ∧ ∀ c, c ∈ tbl_columns t →
            ∃ fk, fk ∈ foreign_keys sd ∧ fk_from_table fk = tbl_name t
                  ∧ fk_from_column fk = c)
  ∧ (∀ fk1 fk2,
       filter (λ fk, fk_from_table fk = tbl_name t) (foreign_keys sd)
       = [fk1; fk2] →
       tbl_primary_key t = None →
       (∀ c, c ∈ tbl_columns t →
             c = fk_from_column fk1 ∨ c = fk_from_column fk2) →
       ∀ nd, nd ∈ nodes (Inference.generate_initial_config sd) →
             nd_source_table nd ≠ tbl_name t).
Proof.
  intros Hnames Ht Hcols Hwf.
  assert ((∀ nd, nd ∈ nodes (Inference.generate_initial_config sd) →
                 nd_source_table nd ≠ tbl_name t)
          ↔ tbl_primary_key t = None
            ∧ ∀ c, c ∈ tbl_columns t →
                   ∃ fk, fk ∈ foreign_keys sd ∧ fk_from_table fk = tbl_name t
                         ∧ fk_from_column fk = c) as Hiff.
  { rewrite node_mapping_absent_iff by done. by apply is_pure_link_iff. }
  split; [done|].
  intros fk1 fk2 Hfks Hpk Hcov. apply Hiff. split; [done|].
  intros c Hc.
  assert (∀ fk, fk ∈ [fk1; fk2] →
                fk ∈ foreign_keys sd ∧ fk_from_table fk = tbl_name t) as Hin.
  { intros fk. rewrite <- Hfks, list_elem_of_filter. tauto. }
  destruct (Hcov c Hc) as [->| ->].
  - exists fk1. destruct (Hin fk1) as [? ?]; [left|done].
  - exists fk2. destruct (Hin fk2) as [? ?]; [right; left|done].
Qed.

Lemma generated_nodes_distinct sd :
  NoDup (tbl_name <$> tables sd) →
  NoDup (nd_source_table <$> Inference.generate_nodes sd).
Proof.
  intros Hnd. rewrite generate_nodes_filter, <- list_fmap_compose.
  apply (sublist_NoDup _ (tbl_name <$> tables sd)); [done|].
  apply (fmap_sublist tbl_name), sublist_filter.
Qed.

(** What one visit of the second loop does to the list built so far. *)
Lemma rels_step_entity sd nds acc fk :
  Inference.from_table_is_entity nds fk = true →
  Inference.rels_step sd nds acc fk = acc ++ [Inference.direct_rel fk].
Proof. unfold Inference.rels_step. by intros ->. Qed.

Lemma rels_step_link sd nds acc fk :
  Inference.from_table_is_entity nds fk = false →
  Inference.rels_step sd nds acc fk = acc
  ∨ ∃ fk1 fk2 rest,
      Inference.related_fks sd fk = fk1 :: fk2 :: rest
      ∧ Forall (λ r, rd_source_link_table r ≠ Some (fk_from_table fk)) acc
      ∧ Inference.rels_step sd nds acc fk
        = acc ++ [Inference.link_rel sd fk fk1 fk2].
Proof.
  unfold Inference.rels_step. intros ->. simpl.
  destruct (Inference.related_fks sd fk) as [|fk1 [|fk2 rest]]; [by left..|].
  destruct (existsb _ acc) eqn:Hex; [by left|]. right.
  exists fk1, fk2, rest. split; [done|]. split; [|done].
  apply existsb_Forall_false in Hex.
  eapply Forall_impl; [exact Hex|]. intros r Hr. simpl in Hr.
  by apply bool_decide_eq_false in Hr.
Qed.

Lemma generated_links_distinct sd nds :
  NoDup (omap rd_source_link_table (Inference.generate_relationships sd nds)).
Proof.
  unfold Inference.generate_relationships.
  assert (∀ l acc, NoDup (omap rd_source_link_table acc) →
            NoDup (omap rd_source_link_table
                     (foldl (Inference.rels_step sd nds) acc l))) as Hgen.
  { induction l as [|fk l IH]; intros acc Hacc; simpl; [done|]. apply IH.
    destruct (Inference.from_table_is_entity nds fk) eqn:Hent.
    - rewrite rels_step_entity by done.
      rewrite omap_app. simpl. by rewrite app_nil_r.
    - destruct (rels_step_link sd nds acc fk Hent)
        as [->|(fk1 & fk2 & rest & _ & Hfresh & ->)]; [done|].
      rewrite omap_app. simpl. apply NoDup_app. split; [done|]. split.
      + intros tn (r & Hr & Hsl)%list_elem_of_omap.
        intros ->%list_elem_of_singleton.
        rewrite Forall_forall in Hfresh. by apply (Hfresh r Hr).
      + apply NoDup_singleton. }
  apply Hgen. constructor.
Qed.

Lemma generated_directs sd nds :
  filter (λ r, is_Some (rd_source_foreign_key r))
         (Inference.generate_relationships sd nds)
  = Inference.direct_rel
      <$> filter (λ fk, Inference.from_table_is_entity nds fk = true)
                 (foreign_keys sd).
Proof.
  unfold Inference.generate_relationships.
  assert (∀ l acc,
            filter (λ r, is_Some (rd_source_foreign_key r))
                   (foldl (Inference.rels_step sd nds) acc l)
            = filter (λ r, is_Some (rd_source_foreign_key r)) acc
              ++ (Inference.direct_rel
                    <$> filter (λ fk, Inference.from_table_is_entity nds fk
                                      = true) l)) as Hgen.
  { induction l as [|fk l IH]; intros acc; simpl; [by rewrite app_nil_r|].
    rewrite IH, (filter_cons _ fk l).
    destruct (Inference.from_table_is_entity nds fk) eqn:Hent.
    - rewrite rels_step_entity by done. rewrite decide_True by done.
      rewrite filter_app, <- app_assoc. by f_equal.
    - rewrite decide_False by done. f_equal.
      destruct (rels_step_link sd nds acc fk Hent)
        as [->|(fk1 & fk2 & rest & _ & _ & ->)]; [done|].
      rewrite filter_app, filter_cons, decide_False by (simpl; by intros [? ?]).
      by rewrite app_nil_r. }
  by rewrite Hgen.
Qed.

(** C4 (as amended).  For a schema with uniquely named tables the generated
    configuration has no two node mappings with the same source table and
    no two link-table relationships with the same link table; its direct
    relationships are exactly one per foreign key of an entity table, in the
    order of the foreign keys (so two of them from one table carry the same
    type whenever their foreign keys reference the same table). *)
Theorem generated_config_identities sd :
  NoDup (tbl_name <$> tables sd) →
  NoDup (nd_source_table <$> nodes (Inference.generate_initial_config sd))
  ∧ NoDup (omap rd_source_link_table
             (relationships (Inference.generate_initial_config sd)))
  ∧ filter (λ r, is_Some (rd_source_foreign_key r))
           (relationships (Inference.generate_initial_config sd))
    = Inference.direct_rel
        <$> filter (λ fk, Inference.from_table_is_entity
                            (nodes (Inference.generate_initial_config sd)) fk
                          = true)
                   (foreign_keys sd).
Proof.
  intros Hnd. simpl. split_and!.
  - by apply generated_nodes_distinct.
  - apply generated_links_distinct.
  - apply generated_directs.
Qed.

(** The identity dictionary of a column list holds each column once, mapped
    to itself. *)
Lemma dict_set_identity (d : PyDict.dict string) c :
  Forall (λ kv, kv.2 = kv.1) d →
  Forall (λ kv, kv.2 = kv.1) (PyDict.set c c d)
  ∧ ∀ kv, kv ∈ PyDict.set c c d ↔ kv ∈ d ∨ kv = (c, c).
Proof.
  intros Hd. unfold PyDict.set, PyDict.mem. case_bool_decide as Hmem.
  - assert ((λ kv : string * string,
               if bool_decide (kv.1 = c) then (c, c) else kv) <$> d = d) as ->.
    { apply fmap_fixed. eapply Forall_impl; [exact Hd|].
      intros [k v] Hkv. simpl in *. case_bool_decide; congruence. }
    split; [done|]. intros kv. split; [by left|]. intros [?| ->]; [done|].
    apply list_elem_of_fmap in Hmem as ([k v] & Hk & Hin). simpl in Hk.
    rewrite Forall_forall in Hd. specialize (Hd _ Hin). simpl in Hd.
    by subst.
  - split.
    + apply Forall_app. split; [done|]. by repeat constructor.
    + intros kv. rewrite elem_of_app, list_elem_of_singleton. done.
Qed.

Lemma elem_of_dict_identity cols c v :
  (c, v) ∈ PyDict.identity cols ↔ v = c ∧ c ∈ cols.
Proof.
  unfold PyDict.identity, PyDict.of_pairs.
  assert (∀ l d, Forall (λ kv : string * string, kv.2 = kv.1) d →
            ∀ kv, kv ∈ foldl (λ d kv, PyDict.set kv.1 kv.2 d) d
                          ((λ c : string, (c, c)) <$> l)
                  ↔ kv ∈ d ∨ (kv.2 = kv.1 ∧ kv.1 ∈ l)) as Hgen.
  { induction l as [|a l IH]; intros d Hd kv; simpl.
    - split; [by left|]. intros [?|[_ []%elem_of_nil]]. done.
    - destruct (dict_set_identity d a Hd) as [Hd' Hset].
      rewrite (IH _ Hd'), Hset, elem_of_cons.
      destruct kv as [k w]. simpl. split.
      + intros [[?|[= -> ->]]|[? ?]]; auto.
      + intros [?|[-> [->|?]]]; auto. }
  rewrite (Hgen cols []) by constructor. simpl.
  split; [intros [[]%elem_of_nil|?]|]; auto.
Qed.

Lemma link_rel_from_table sd fk fk' fk1 fk2 :
  fk_from_table fk = fk_from_table fk' →
  Inference.link_rel sd fk fk1 fk2 = Inference.link_rel sd fk' fk1 fk2.
Proof.
  intros Heq. unfold Inference.link_rel, Inference.related_fks,
    Inference.link_table_cols. by rewrite Heq.
Qed.

Lemma from_table_not_entity sd t fk :
  NoDup (tbl_name <$> tables sd) → t ∈ tables sd →
  Inference.is_pure_link sd t = true → fk_from_table fk = tbl_name t →
  Inference.from_table_is_entity (Inference.generate_nodes sd) fk = false.
Proof.
  intros Hnd Ht Hl Hfk. unfold Inference.from_table_is_entity.
  apply existsb_Forall_false, Forall_forall. intros nd Hin.
  apply bool_decide_eq_false. rewrite Hfk.
  by apply (node_mapping_absent_iff sd t Hnd Ht).
Qed.

(** The relationships of one link table in the list built so far. *)
Lemma rels_step_other_table sd nds acc fk tn :
  fk_from_table fk ≠ tn →
  filter (λ r, rd_source_link_table r = Some tn)
         (Inference.rels_step sd nds acc fk)
  = filter (λ r, rd_source_link_table r = Some tn) acc.
Proof.
  intros Hne. destruct (Inference.from_table_is_entity nds fk) eqn:Hent.
  - rewrite rels_step_entity by done.
    rewrite filter_app, filter_cons, decide_False by done.
    by rewrite app_nil_r.
  - destruct (rels_step_link sd nds acc fk Hent)
      as [->|(fk1 & fk2 & rest & _ & _ & ->)]; [done|].
    rewrite filter_app, filter_cons, decide_False by (simpl; congruence).
    by rewrite app_nil_r.
Qed.

Lemma rels_step_this_table sd nds acc fk fk1 fk2 rest :
  Inference.from_table_is_entity nds fk = false →
  Inference.related_fks sd fk = fk1 :: fk2 :: rest →
  filter (λ r, rd_source_link_table r = Some (fk_from_table fk))
         (Inference.rels_step sd nds acc fk)
  = match filter (λ r, rd_source_link_table r = Some (fk_from_table fk)) acc
    with
    | [] => [Inference.link_rel sd fk fk1 fk2]
    | found => found
    end.
Proof.
  intros Hent Hrel. unfold Inference.rels_step. rewrite Hent, Hrel. simpl.
  destruct (existsb _ acc) eqn:Hex.
  - apply existsb_Exists in Hex. apply Exists_exists in Hex as (r & Hin & Hr).
    apply bool_decide_eq_true in Hr.
    destruct (filter _ acc) as [|r' found] eqn:Hf; [|done].
    assert (r ∈ filter (λ r, rd_source_link_table r
                             = Some (fk_from_table fk)) acc) as Hrf
      by by apply list_elem_of_filter.
    rewrite Hf in Hrf. by apply elem_of_nil in Hrf.
  - apply existsb_Forall_false in Hex.
    rewrite filter_app, filter_cons, decide_True by done.
    assert (filter (λ r, rd_source_link_table r = Some (fk_from_table fk)) acc
            = []) as ->; [|done].
    induction Hex as [|r acc' Hr _ IH]; [done|].
    apply bool_decide_eq_false in Hr. simpl in Hr.
    by rewrite filter_cons, decide_False.
Qed.

Lemma link_table_rel_found sd t fk1 fk2 rest :
  NoDup (tbl_name <$> tables sd) → t ∈ tables sd →
  Inference.is_pure_link sd t = true →
  filter (λ f, fk_from_table f = tbl_name t) (foreign_keys sd)
  = fk1 :: fk2 :: rest →
  filter (λ r, rd_source_link_table r = Some (tbl_name t))
         (relationships (Inference.generate_initial_config sd))
  = [Inference.link_rel sd fk1 fk1 fk2].
Proof.
  intros Hnd Ht Hl Hfks. simpl. unfold Inference.generate_relationships.
  set (nds := Inference.generate_nodes sd).
  set (R := Inference.link_rel sd fk1 fk1 fk2).
  set (S := filter (λ r, rd_source_link_table r = Some (tbl_name t))).
  assert (fk1 ∈ foreign_keys sd ∧ fk_from_table fk1 = tbl_name t) as [Hin1 Hft1].
  { assert (fk1 ∈ filter (λ f, fk_from_table f = tbl_name t) (foreign_keys sd))
      as Hm by (rewrite Hfks; left).
    apply list_elem_of_filter in Hm. tauto. }
  assert (∀ fk acc, fk_from_table fk = tbl_name t →
            S (Inference.rels_step sd nds acc fk)
            = match S acc with [] => [R] | found => found end) as Hthis.
  { intros fk acc Hfk. unfold S, R. rewrite <- Hfk.
    rewrite (link_rel_from_table sd fk1 fk) by congruence.
    apply (rels_step_this_table sd nds acc fk fk1 fk2 rest).
    - by apply (from_table_not_entity sd t).
    - unfold Inference.related_fks. by rewrite Hfk. }
  assert (∀ l acc, S acc = [R] →
            S (foldl (Inference.rels_step sd nds) acc l) = [R]) as Hkeep.
  { induction l as [|fk l IH]; intros acc Hacc; simpl; [done|]. apply IH.
    destruct (decide (fk_from_table fk = tbl_name t)) as [Hfk|Hfk].
    - by rewrite Hthis, Hacc.
    - unfold S. by rewrite rels_step_other_table. }
  assert (∀ l acc, S acc = [] →
            (∃ fk, fk ∈ l ∧ fk_from_table fk = tbl_name t) →
            S (foldl (Inference.rels_step sd nds) acc l) = [R]) as Hfind.
  { induction l as [|fk l IH]; intros acc Hacc (fk' & Hin & Hfk'); simpl.
    - by apply elem_of_nil in Hin.
    - destruct (decide (fk_from_table fk = tbl_name t)) as [Hfk|Hfk].
      + apply Hkeep. by rewrite Hthis, Hacc.
      + apply IH.
        * unfold S. by rewrite rels_step_other_table.
        * apply elem_of_cons in Hin as [->|Hin]; [done|]. by exists fk'. }
  apply Hfind; [done|]. by exists fk1.
Qed.

(** C7 (as amended).  For a pure link table with at least two foreign keys,
    in a schema with uniquely named tables, the configuration has exactly
    one relationship for the link table.  Its endpoints are the first two
    foreign keys of the table in the order [schema["foreign_keys"]] lists
    them (no sorting takes place): [from_node_table] is the table the first
    references, [to_node_table] the table the second references, the type is
    [HAS_] followed by the upper-cased second referenced table, and the
    properties map to itself each column of the link table that is the
    referencing column of none of its foreign keys. *)
Theorem link_table_relationship sd t fk1 fk2 rest :
  NoDup (tbl_name <$> tables sd) → t ∈ tables sd →
  Inference.is_pure_link sd t = true →
  filter (λ f, fk_from_table f = tbl_name t) (foreign_keys sd)
  = fk1 :: fk2 :: rest →
  ∃ rd,
    filter (λ r, rd_source_link_table r = Some (tbl_name t))
           (relationships (Inference.generate_initial_config sd)) = [rd]
    ∧ rd_from_node_table rd = fk_to_table fk1
    ∧ rd_to_node_table rd = fk_to_table fk2
    ∧ rd_type rd = "HAS_" +:+ PyStr.upper (fk_to_table fk2)
    ∧ ∀ c v, (c, v) ∈ rd_properties rd
             ↔ v = c ∧ c ∈ tbl_columns t
               ∧ c ∉ fk_from_column <$> (fk1 :: fk2 :: rest).
Proof.
  intros Hnd Ht Hl Hfks. eexists.
  split; [by apply (link_table_rel_found sd t fk1 fk2 rest)|].
  split_and!; [done..|].
  assert (fk_from_table fk1 = tbl_name t) as Hft1.
  { assert (fk1 ∈ filter (λ f, fk_from_table f = tbl_name t) (foreign_keys sd))
      as Hm by (rewrite Hfks; left).
    apply list_elem_of_filter in Hm. tauto. }
  intros c v. simpl. rewrite elem_of_dict_identity, list_elem_of_filter.
  unfold Inference.link_table_cols, Inference.related_fks.
  rewrite Hft1, Hfks, (filter_by_key tbl_name (tables sd) t) by done.
  simpl. tauto.
Qed.

(** ** Further properties of extraction and inference *)

Lemma extract_tables_single_keys cat names acc :
  Forall (λ n, (length (Extractor.cat_primary_key cat n) ≤ 1)%nat) names →
  Extractor.extract_tables cat names acc (Extractor.Cursor [] [])
  = (acc ++ ((λ n, Table n (Extractor.cat_columns cat n)
                           (head (Extractor.cat_primary_key cat n)))
               <$> names),
     Some (Extractor.Cursor [] [])).
Proof.
  intros Hall. revert acc.
  induction Hall as [|n names Hn _ IH]; intros acc; simpl.
  - by rewrite app_nil_r.
  - assert (tail (Extractor.cat_primary_key cat n) = []) as ->.
    { destruct (Extractor.cat_primary_key cat n) as [|c [|c' l]];
        simpl in *; [done..|lia]. }
    by rewrite IH, <- app_assoc.
Qed.

(** When no table has a composite primary key, the extractor records every
    table of the catalog, in order, with its columns and its primary-key
    column if it has one, and all foreign-key rows. *)
Theorem extractor_complete cat :
  Forall (λ n, (length (Extractor.cat_primary_key cat n) ≤ 1)%nat)
         (Extractor.cat_tables cat) →
  Extractor.extract_relational_schema cat
  = Schema ((λ n, Table n (Extractor.cat_columns cat n)
                          (head (Extractor.cat_primary_key cat n)))
              <$> Extractor.cat_tables cat)
           (Extractor.cat_foreign_keys cat).
Proof.
  intros Hall. unfold Extractor.extract_relational_schema. simpl.
  by rewrite extract_tables_single_keys.
Qed.

(** The node mappings are the tables that fail the test of line 119, in the
    order of the tables, each with the label made of its capitalised
    underscore-separated words, the identity property map over its columns
    and its primary key. *)
Theorem node_mappings_of_entity_tables sd :
  nodes (Inference.generate_initial_config sd)
  = (λ t, NodeDef (tbl_name t)
                  (PyStr.join (PyStr.capitalize
                                 <$> PyStr.split "_" (tbl_name t)))
                  (PyDict.identity (tbl_columns t))
                  (tbl_primary_key t))
      <$> filter (λ t, Inference.is_pure_link sd t = false) (tables sd).
Proof. simpl. apply generate_nodes_filter. Qed.

Lemma generated_relationships_origin sd :
  Forall (λ rd,
            (∃ fk, fk ∈ foreign_keys sd
                   ∧ Inference.from_table_is_entity
                       (nodes (Inference.generate_initial_config sd)) fk = true
                   ∧ rd = Inference.direct_rel fk)
            ∨ (∃ fk fk1 fk2 rest,
                 fk ∈ foreign_keys sd
                 ∧ Inference.from_table_is_entity
                     (nodes (Inference.generate_initial_config sd)) fk = false
                 ∧ filter (λ f, fk_from_table f = fk_from_table fk)
                          (foreign_keys sd) = fk1 :: fk2 :: rest
                 ∧ rd = Inference.link_rel sd fk fk1 fk2))
         (relationships (Inference.generate_initial_config sd)).
Proof.
  simpl. unfold Inference.generate_relationships.
  set (nds := Inference.generate_nodes sd).
  set (P := λ (l : list foreign_key) (rd : rel_def),
         (∃ fk, fk ∈ l ∧ Inference.from_table_is_entity nds fk = true
                ∧ rd = Inference.direct_rel fk)
         ∨ (∃ fk fk1 fk2 rest,
              fk ∈ l ∧ Inference.from_table_is_entity nds fk = false
              ∧ filter (λ f, fk_from_table f = fk_from_table fk)
                       (foreign_keys sd) = fk1 :: fk2 :: rest
              ∧ rd = Inference.link_rel sd fk fk1 fk2)).
  assert (∀ l l' rd, l ⊆ l' → P l rd → P l' rd) as Hmono.
  { intros l l' rd Hsub [(fk & Hin & ?)|(fk & fk1 & fk2 & rest & Hin & ?)].
    - left. exists fk. split; [by apply Hsub|done].
    - right. exists fk, fk1, fk2, rest. split; [by apply Hsub|done]. }
  assert (∀ l seen acc, seen ++ l = foreign_keys sd →
            Forall (P seen) acc →
            Forall (P (foreign_keys sd))
                   (foldl (Inference.rels_step sd nds) acc l)) as Hgen.
  { induction l as [|fk l IH]; intros seen acc Hsplit Hacc; simpl.
    - rewrite app_nil_r in Hsplit. by subst.
    - apply (IH (seen ++ [fk])); [by rewrite <- app_assoc|].
      assert (Forall (P (seen ++ [fk])) acc) as Hacc'.
      { eapply Forall_impl; [exact Hacc|]. intros rd. apply Hmono.
        intros x Hx. apply elem_of_app. by left. }
      assert (fk ∈ seen ++ [fk]) as Hfk.
      { apply elem_of_app. right. left. }
      destruct (Inference.from_table_is_entity nds fk) eqn:Hent.
      + rewrite rels_step_entity by done. apply Forall_app. split; [done|].
        constructor; [|constructor]. left. by exists fk.
      + destruct (rels_step_link sd nds acc fk Hent)
          as [->|(fk1 & fk2 & rest & Hrel & _ & ->)]; [done|].
        apply Forall_app. split; [done|]. constructor; [|constructor].
        right. by exists fk, fk1, fk2, rest. }
  apply (Hgen (foreign_keys sd) [] []); [done|constructor].
Qed.

(** Where each generated relationship comes from: a direct one from a
    foreign key of a table that has a node mapping, a link-table one from a
    foreign key of a table without node mapping that has at least two
    foreign keys, of which the first two are the endpoints.  A table without
    node mapping and with fewer than two foreign keys yields nothing. *)
Theorem generated_relationships_provenance sd :
  Forall (λ rd,
            (∃ fk, fk ∈ foreign_keys sd
                   ∧ Inference.from_table_is_entity
                       (nodes (Inference.generate_initial_config sd)) fk = true
                   ∧ rd = Inference.direct_rel fk)
            ∨ (∃ fk fk1 fk2 rest,
                 fk ∈ foreign_keys sd
                 ∧ Inference.from_table_is_entity
                     (nodes (Inference.generate_initial_config sd)) fk = false
                 ∧ filter (λ f, fk_from_table f = fk_from_table fk)
                          (foreign_keys sd) = fk1 :: fk2 :: rest
                 ∧ rd = Inference.link_rel sd fk fk1 fk2))
         (relationships (Inference.generate_initial_config sd)).
Proof. apply generated_relationships_origin. Qed.

Lemma from_table_is_entity_config cfg fk :
  Inference.from_table_is_entity (nodes cfg) fk = true
  ↔ is_Some (node_config cfg (fk_from_table fk)).
Proof.
  unfold Inference.from_table_is_entity, node_config.
  rewrite existsb_Exists, Exists_exists. split.
  - intros (nd & Hin & Hnd%bool_decide_eq_true).
    destruct (filter (λ n, nd_source_table n = fk_from_table fk) (nodes cfg))
      as [|x l] eqn:Hf; [|by eexists].
    assert (nd ∈ filter (λ n, nd_source_table n = fk_from_table fk)
                        (nodes cfg)) as Hm by by apply list_elem_of_filter.
    rewrite Hf in Hm. by apply elem_of_nil in Hm.
  - intros [nd Hnd]. apply head_Some_elem_of in Hnd.
    apply list_elem_of_filter in Hnd as [Hs Hin].
    exists nd. split; [done|]. by apply bool_decide_eq_true.
Qed.

(** Every generated relationship has exactly one of the two source keys and
    the type [HAS_] followed by its upper-cased target table.  A direct one
    points [OUT], has no properties, names its foreign key as
    [table.column] and starts at a table that has a node mapping, so the
    importer resolves its from endpoint; a link-table one names a table that
    has no node mapping. *)
Theorem generated_relationships_shape sd :
  Forall (λ rd,
            rd_type rd = "HAS_" +:+ PyStr.upper (rd_to_node_table rd)
            ∧ match rd_source_foreign_key rd, rd_source_link_table rd with
              | Some sfk, None =>
                  rd_direction rd = Some "OUT" ∧ rd_properties rd = []
                  ∧ is_Some (node_config (Inference.generate_initial_config sd)
                               (rd_from_node_table rd))
                  ∧ ∃ fk, fk ∈ foreign_keys sd
                          ∧ rd_from_node_table rd = fk_from_table fk
                          ∧ sfk = fk_from_table fk +:+ "." +:+ fk_from_column fk
              | None, Some t =>
                  rd_direction rd = None
                  ∧ node_config (Inference.generate_initial_config sd) t = None
              | _, _ => False
              end)
         (relationships (Inference.generate_initial_config sd)).
Proof.
  eapply Forall_impl; [apply generated_relationships_origin|].
  intros rd [(fk & Hin & Hent & ->)|(fk & fk1 & fk2 & rest & Hin & Hent & _ & ->)].
  - simpl. split; [done|]. split; [done|]. split; [done|]. split.
    + by apply from_table_is_entity_config.
    + by exists fk.
  - simpl. split; [done|]. split; [done|].
    destruct (node_config (Inference.generate_initial_config sd)
                (fk_from_table fk)) as [nd|] eqn:Hnc; [|done].
    assert (Inference.from_table_is_entity
              (nodes (Inference.generate_initial_config sd)) fk = true)
      as Hent'.
    { apply from_table_is_entity_config. rewrite Hnc. by eexists. }
    simpl in Hent, Hent'. congruence.
Qed.

(** The importer, run with the schema the configuration was generated from,
    joins a link table on the referencing columns of the two foreign keys
    the inference took as endpoints, when they reference different
    tables. *)
Theorem generated_link_join_columns sd t fk1 fk2 rest :
  filter (λ f, fk_from_table f = t) (foreign_keys sd) = fk1 :: fk2 :: rest →
  fk_to_table fk1 ≠ fk_to_table fk2 →
  link_fk_col sd t (fk_to_table fk1) = Some (fk_from_column fk1)
  ∧ link_fk_col sd t (fk_to_table fk2) = Some (fk_from_column fk2).
Proof.
  intros Hfks Hne. unfold link_fk_col.
  assert (∀ t' (l : list foreign_key),
            filter (λ fk, fk_from_table fk = t ∧ fk_to_table fk = t') l
                  = filter (λ fk, fk_to_table fk = t')
                           (filter (λ f, fk_from_table f = t) l)) as Hsplit.
  { intros t' l. induction l as [|fk l IH]; [done|].
    rewrite !filter_cons.
    destruct (decide (fk_from_table fk = t)) as [Hft|Hft];
      [rewrite filter_cons|]; repeat case_decide; try tauto;
      by rewrite ?IH. }
  rewrite !Hsplit, Hfks. split.
  - by rewrite filter_cons, decide_True.
  - rewrite filter_cons, decide_False by done.
    by rewrite filter_cons, decide_True.
Qed.

(** ** Further properties: keys with dots, composite keys, generated
       property maps *)

Lemma split_head_eq sep s w ws :
  PyStr.split sep s = w :: ws → (w = s ↔ ¬ PyStr.contains sep s).
Proof.
  intros Hs. split.
  - intros <-. destruct (split_head_no_sep sep w) as (w' & ws' & Hw & Hno).
    rewrite Hs in Hw. by injection Hw as <- _.
  - intros Hno. rewrite split_no_sep in Hs by done. by simplify_eq.
Qed.

(** The generator writes a direct relationship's key as [table.column] and
    the importer takes the first two pieces of its split at the dots as
    table and column.  The first piece is the table exactly when the
    table's name has no dot, and then the second is the column exactly when
    the column's name has none. *)
Theorem source_foreign_key_split t c :
  ∃ t' c' rest,
    PyStr.split "." (t +:+ "." +:+ c) = t' :: c' :: rest
    ∧ (t' = t ↔ ¬ PyStr.contains "." t)
    ∧ (¬ PyStr.contains "." t → (c' = c ↔ ¬ PyStr.contains "." c)).
Proof.
  change ("." +:+ c) with (String "." c). rewrite split_app_sep.
  destruct (split_head_no_sep "." c) as (w' & ws' & Hc & _).
  destruct (PyStr.split "." t) as [|w [|b ws]] eqn:Ht.
  - by apply split_nonempty in Ht.
  - rewrite Hc. exists w, w', ws'. split; [done|]. split.
    + by apply (split_head_eq "." t w []).
    + intros _. by apply (split_head_eq "." c w' ws').
  - exists w, b, (ws ++ PyStr.split "." c). split; [done|].
    assert (PyStr.contains "." t) as Hdot.
    { destruct (decide (PyStr.contains "." t)) as [|Hno]; [done|].
      by rewrite split_no_sep in Ht. }
    split; [|done]. rewrite (split_head_eq "." t w (b :: ws)) by done. tauto.
Qed.

Lemma contains_app_sep sep a b : PyStr.contains sep (a +:+ String sep b).
Proof.
  unfold PyStr.contains. induction a as [|c r IH]; simpl; [left|by right].
Qed.

(** A run over a generated configuration stops early only at a SELECT the
    relational server rejected: the keys the generator writes always have
    their dot. *)
Theorem generated_config_stops_only_on_sql
    {Decimal Temporal Float : Type}
    `{!EqDecision Decimal, !EqDecision Temporal, !EqDecision Float}
    (float_of_decimal : Decimal → Float) (isoformat : Temporal → string)
    sd schema_data (db : gmap string rdb_table) :
  (import_data float_of_decimal isoformat
     (Inference.generate_initial_config sd) schema_data db).2 = None →
  ∃ e, last (trace (import_data float_of_decimal isoformat
                      (Inference.generate_initial_config sd) schema_data db))
       = Some e
       ∧ rejected db e.
Proof.
  intros Hnone.
  destruct (import_data_abort float_of_decimal isoformat _ _ _ Hnone)
    as [?|Hex]; [done|].
  apply Exists_exists in Hex as (rd & Hrd & _ & _ & sfk & Hsfk & Hdot).
  pose proof (generated_relationships_origin sd) as Hor.
  rewrite Forall_forall in Hor.
  destruct (Hor rd Hrd) as [(fk & _ & _ & ->)|(fk & fk1 & fk2 & ? & _ & _ & _ & ->)];
    simpl in Hsfk; [|done].
  injection Hsfk as <-. destruct Hdot. apply contains_app_sep.
Qed.

Lemma extract_tables_prefix cat pre rest acc :
  Forall (λ n, (length (Extractor.cat_primary_key cat n) ≤ 1)%nat) pre →
  Extractor.extract_tables cat (pre ++ rest) acc (Extractor.Cursor [] [])
  = Extractor.extract_tables cat rest
      (acc ++ ((λ n, Table n (Extractor.cat_columns cat n)
                             (head (Extractor.cat_primary_key cat n)))
                 <$> pre))
      (Extractor.Cursor [] []).
Proof.
  intros Hall. revert acc.
  induction Hall as [|n names Hn _ IH]; intros acc; simpl.
  - by rewrite app_nil_r.
  - assert (tail (Extractor.cat_primary_key cat n) = []) as ->.
    { destruct (Extractor.cat_primary_key cat n) as [|c [|c' l]];
        simpl in *; [done..|lia]. }
    by rewrite IH, <- app_assoc.
Qed.

(** The first table whose primary key has more than one column ends the
    reading of the catalog: [fetchone] leaves its second key row unread, so
    the table is still recorded, with its first key column, and the next
    statement executed on the cursor raises, be it the column query of the
    next table or the foreign-key query.  No later table is recorded and
    the foreign keys are never read. *)
Theorem extractor_stops_after_composite_key cat pre n post :
  Forall (λ m, (length (Extractor.cat_primary_key cat m) ≤ 1)%nat) pre →
  (2 ≤ length (Extractor.cat_primary_key cat n))%nat →
  ∃ res,
    Extractor.extract_tables cat (pre ++ n :: post) [] Extractor.fresh
    = ((λ m, Table m (Extractor.cat_columns cat m)
                     (head (Extractor.cat_primary_key cat m)))
         <$> pre ++ [n],
       res)
    ∧ res ≫= Extractor.execute_fks (Extractor.cat_foreign_keys cat) = None.
Proof.
  intros Hpre Hn. unfold Extractor.fresh.
  rewrite extract_tables_prefix by done. simpl.
  destruct (Extractor.cat_primary_key cat n) as [|c [|c' l]] eqn:Hpk;
    simpl in *; [lia..|].
  rewrite fmap_app. simpl. rewrite Hpk. simpl.
  destruct post; by eexists.
Qed.

(** With a generated property map, which is the identity over the table's
    columns, the properties sent for a row are exactly the columns of the
    table, each with the converted value of the row (null when the row has
    no such column). *)
Theorem generated_mapping_row_props
    {Decimal Temporal Float : Type}
    `{!EqDecision Decimal, !EqDecision Temporal, !EqDecision Float}
    (float_of_decimal : Decimal → Float) (isoformat : Temporal → string)
    cols (row : gmap string value) c :
  row_props float_of_decimal isoformat (PyDict.identity cols) row !! c
  = if decide (c ∈ cols)
    then Some (convert_value_for_neo4j float_of_decimal isoformat
                 (dict_get row (Some c)))
    else None.
Proof.
  rewrite row_props_last.
  assert (∀ kv, kv ∈ filter (λ kv : string * string, kv.2 = c)
                       (PyDict.identity cols : list (string * string)) →
                kv = (c, c) ∧ c ∈ cols) as Hall.
  { intros [k v] [Hv Hin]%list_elem_of_filter. simpl in Hv. subst v.
    apply elem_of_dict_identity in Hin as [-> Hin]. done. }
  destruct (last _) as [kv|] eqn:Hlast.
  - apply last_Some_elem_of, Hall in Hlast as [-> Hc].
    by rewrite decide_True.
  - apply last_None in Hlast. case_decide as Hc; [|done].
    assert ((c, c) ∈ filter (λ kv : string * string, kv.2 = c)
                        (PyDict.identity cols : list (string * string)))
      as Hin.
    { apply list_elem_of_filter. split; [done|].
      by apply elem_of_dict_identity. }
    rewrite Hlast in Hin. by apply elem_of_nil in Hin.
Qed.

Lemma distinct_labels_consistent cfg :
  NoDup (nd_label <$> nodes cfg) → keys_consistent (node_keys cfg).
Proof.
  intros Hnd. unfold keys_consistent, node_keys.
  apply Forall_forall. intros p Hp. apply Forall_forall. intros q Hq.
  apply list_elem_of_omap in Hp as (n1 & Hn1 & Hp).
  apply list_elem_of_omap in Hq as (n2 & Hn2 & Hq).
  destruct (nd_primary_key n1) as [k1|] eqn:Hk1; [|done].
  destruct (nd_primary_key n2) as [k2|] eqn:Hk2; [|done].
  simpl in Hp, Hq. injection Hp as <-. injection Hq as <-. simpl.
  intros HL. assert (n1 = n2) as -> by by eapply (NoDup_fmap_eq nd_label).
  congruence.
Qed.

(** When the node mappings have pairwise different labels, and no node of
    the store has more than one label, a second run of the importer over
    the same configuration and rows leaves the store as the first run left
    it. *)
Theorem distinct_labels_rerun
    {Decimal Temporal Float : Type}
    `{!EqDecision Decimal, !EqDecision Temporal, !EqDecision Float}
    (float_of_decimal : Decimal → Float) (isoformat : Temporal → string)
    (encodable : value → bool) (null_map_as : option (gmap string value))
    cfg schema_data (db : gmap string rdb_table) (g : graph) :
  NoDup (nd_label <$> nodes cfg) →
  Forall (λ n, (length (gn_labels n) ≤ 1)%nat) (g_nodes g) →
  import_into float_of_decimal isoformat encodable null_map_as
    cfg schema_data db
    (import_into float_of_decimal isoformat encodable null_map_as
       cfg schema_data db g)
  = import_into float_of_decimal isoformat encodable null_map_as
      cfg schema_data db g.
Proof.
  intros Hnd Hg. unfold import_into.
  pose proof (distinct_labels_consistent cfg Hnd) as HK.
  destruct (import_data_events_ok float_of_decimal isoformat cfg schema_data db)
    as (tr_n & tr_r & -> & Hn & Hr).
  apply (run_trace_twice encodable null_map_as (node_keys cfg));
    [done| |done..].
  eapply Forall_impl; [exact Hg|]. intros n Hlen. unfold node_ok.
  apply Forall_forall. intros p Hp. apply Forall_forall. intros q Hq H1 H2.
  unfold keys_consistent in HK. rewrite Forall_forall in HK.
  specialize (HK p Hp). rewrite Forall_forall in HK. apply (HK q Hq).
  simpl in Hlen. revert Hlen H1 H2.
  destruct (gn_labels n) as [|L [|L' ls]]; simpl; intros Hlen H1 H2; [|..|lia].
  - by apply elem_of_nil in H1.
  - apply list_elem_of_singleton in H1, H2. congruence.
Qed.

Lemma filter_from_table_with_to_column f t (l : list foreign_key) :
  filter (λ fk, fk_from_table fk = t) (with_to_column f <$> l)
  = with_to_column f <$> filter (λ fk, fk_from_table fk = t) l.
Proof.
  induction l as [|fk l IH]; [done|]. csimpl.
  rewrite !filter_cons. simpl. case_decide; csimpl; by rewrite IH.
Qed.

Lemma from_columns_with_to_column f (l : list foreign_key) :
  fk_from_column <$> (with_to_column f <$> l) = fk_from_column <$> l.
Proof. induction l as [|fk l IH]; [done|]. csimpl. by rewrite IH. Qed.

Lemma rels_step_with_to_column f sd nds acc fk :
  Inference.rels_step (with_to_columns f sd) nds acc (with_to_column f fk)
  = Inference.rels_step sd nds acc fk.
Proof.
  unfold Inference.rels_step, Inference.related_fks. simpl.
  change (Inference.from_table_is_entity nds (with_to_column f fk))
    with (Inference.from_table_is_entity nds fk).
  destruct (Inference.from_table_is_entity nds fk); simpl; [done|].
  rewrite filter_from_table_with_to_column.
  destruct (filter _ (foreign_keys sd)) as [|fk1 [|fk2 rest]] eqn:Hf; [done..|].
  csimpl.
  assert (Inference.link_rel (with_to_columns f sd) (with_to_column f fk)
            (with_to_column f fk1) (with_to_column f fk2)
          = Inference.link_rel sd fk fk1 fk2) as ->; [|done].
  unfold Inference.link_rel, Inference.related_fks, Inference.link_table_cols.
  simpl. by rewrite filter_from_table_with_to_column,
              from_columns_with_to_column.
Qed.

(** The column a foreign key references ([to_column]) is never used: the
    generated configuration does not depend on it, and neither do the join
    columns the importer looks up in [schema_data].  Endpoints are always
    matched on the identifying property of the referenced table's
    mapping. *)
Theorem to_column_is_never_read f sd :
  Inference.generate_initial_config (with_to_columns f sd)
  = Inference.generate_initial_config sd
  ∧ ∀ link_table_name t,
      link_fk_col (with_to_columns f sd) link_table_name t
      = link_fk_col sd link_table_name t.
Proof.
  split.
  - unfold Inference.generate_initial_config.
    assert (Inference.generate_nodes (with_to_columns f sd)
            = Inference.generate_nodes sd) as ->.
    { unfold Inference.generate_nodes. simpl.
      generalize (@nil node_def).
      induction (tables sd) as [|t ts IH]; intros acc; [done|]. simpl.
      rewrite <- IH. f_equal.
      unfold Inference.nodes_step, Inference.is_pure_link,
        Inference.fk_columns. simpl.
      by rewrite filter_from_table_with_to_column,
           from_columns_with_to_column. }
    f_equal. unfold Inference.generate_relationships. simpl.
    rewrite foldl_fmap.
    generalize (@nil rel_def).
    induction (foreign_keys sd) as [|fk fks IH]; intros acc; [done|]. simpl.
    by rewrite rels_step_with_to_column, IH.
  - intros lt t. unfold link_fk_col. simpl.
    induction (foreign_keys sd) as [|fk fks IH]; [done|]. csimpl.
    rewrite !filter_cons. simpl. case_decide; csimpl; [done|apply IH].
Qed.

(** ** The properties at concrete inputs

    The library conversions, the driver's encoder and the store's handling
    of a null map play no part in the inputs below; they are fixed to
    trivial ones. *)

(** C1: with the generated configuration of [shared_label_schema], whose
    two node mappings write the label [UserRole] under the keys [id] and
    [name], the first run on an empty store leaves one node and the second
    run adds a second one, a copy of the first. *)
Lemma second_run_duplicates_node :
  ¬ (∀ (cfg : config) (sd : schema)
       (db : gmap string (@rdb_table unit unit unit)) (g : graph),
       length (g_nodes (import_into (λ _, tt) (λ _, "") (λ _, true) None
                          cfg sd db
                          (import_into (λ _, tt) (λ _, "") (λ _, true) None
                             cfg sd db g)))
       = length (g_nodes (import_into (λ _, tt) (λ _, "") (λ _, true) None
                            cfg sd db g))).
Proof.
  intros Hall.
  specialize (Hall (Inference.generate_initial_config shared_label_schema)
                shared_label_schema shared_label_db empty_graph).
  vm_compute in Hall. discriminate.
Qed.

(** [import_data_rerun] at the junction-table configuration and an empty
    store. *)
Lemma import_data_rerun_witness :
  import_into (λ _ : unit, tt) (λ _ : unit, "") (λ _, true) None
    junction_config junction_schema_with_fks (junction_db (Float := unit))
    (import_into (λ _, tt) (λ _, "") (λ _, true) None
       junction_config junction_schema_with_fks junction_db empty_graph)
  = import_into (λ _, tt) (λ _, "") (λ _, true) None
      junction_config junction_schema_with_fks junction_db empty_graph.
Proof.
  apply import_data_rerun.
  - unfold keys_consistent. simpl. repeat constructor; simpl; congruence.
  - constructor.
Defined.

(** [pure_link_table_iff] at the junction table [lt] of
    [junction_schema_with_fks]. *)
Lemma pure_link_table_iff_witness :
  ((∀ nd, nd ∈ nodes (Inference.generate_initial_config
                        junction_schema_with_fks) →
          nd_source_table nd ≠ "lt")
   ↔ None = (None : option string)
     ∧ ∀ c, c ∈ ["a_id"; "b_id"] →
            ∃ fk, fk ∈ foreign_keys junction_schema_with_fks
                  ∧ fk_from_table fk = "lt" ∧ fk_from_column fk = c)
  ∧ (∀ fk1 fk2,
       filter (λ fk, fk_from_table fk = "lt")
              (foreign_keys junction_schema_with_fks) = [fk1; fk2] →
       None = (None : option string) →
       (∀ c, c ∈ ["a_id"; "b_id"] →
             c = fk_from_column fk1 ∨ c = fk_from_column fk2) →
       ∀ nd, nd ∈ nodes (Inference.generate_initial_config
                           junction_schema_with_fks) →
             nd_source_table nd ≠ "lt").
Proof.
  apply (pure_link_table_iff junction_schema_with_fks
           (Table "lt" ["a_id"; "b_id"] None)).
  - by apply (bool_decide_unpack _).
  - by apply (bool_decide_unpack _).
  - by apply (bool_decide_unpack _).
  - by apply (bool_decide_unpack _).
Defined.

(** C3: the same configuration over the same source rows imports the
    junction table's relationship when [schema_data] lists its foreign keys
    and skips it when [schema_data] does not: the join columns come from
    [schema_data], which the configuration does not contain. *)
Lemma link_join_columns_read_schema_data :
  link_fk_col junction_schema_with_fks "lt" "a" = Some "a_id"
  ∧ link_fk_col junction_schema_without_fks "lt" "a" = None
  ∧ written_data
      (trace (import_data (λ _ : unit, tt) (λ _ : unit, "")
                junction_config junction_schema_with_fks
                (junction_db (Float := unit))))
    = [RelDatum (VInt 1) (VInt 2) (Some ∅)]
  ∧ written_data
      (trace (import_data (λ _ : unit, tt) (λ _ : unit, "")
                junction_config junction_schema_without_fks
                (junction_db (Float := unit))))
    = [].
Proof. by vm_compute. Qed.

(** C4: the two foreign keys of [orders] to [address] give two direct
    relationships from [orders] that both have type [HAS_ADDRESS]. *)
Lemma direct_relationships_share_type :
  ¬ (∀ sd, NoDup (tbl_name <$> tables sd) →
       ∀ i j r1 r2,
         i ≠ j →
         relationships (Inference.generate_initial_config sd) !! i = Some r1 →
         relationships (Inference.generate_initial_config sd) !! j = Some r2 →
         is_Some (rd_source_foreign_key r1) →
         is_Some (rd_source_foreign_key r2) →
         rd_from_node_table r1 = rd_from_node_table r2 →
         rd_type r1 ≠ rd_type r2).
Proof.
  intros Hall.
  apply (Hall two_addresses_schema) with
    (i := 0%nat) (j := 1%nat)
    (r1 := Inference.direct_rel (ForeignKey "orders" "bill_id" "address" "id"))
    (r2 := Inference.direct_rel (ForeignKey "orders" "ship_id" "address" "id"));
    try done.
  by apply (bool_decide_unpack _).
Qed.

(** [generated_config_identities] at [two_addresses_schema]. *)
Lemma generated_config_identities_witness :
  NoDup (nd_source_table
           <$> nodes (Inference.generate_initial_config two_addresses_schema))
  ∧ NoDup (omap rd_source_link_table
             (relationships
                (Inference.generate_initial_config two_addresses_schema)))
  ∧ filter (λ r, is_Some (rd_source_foreign_key r))
           (relationships
              (Inference.generate_initial_config two_addresses_schema))
    = Inference.direct_rel
        <$> filter (λ fk, Inference.from_table_is_entity
                            (nodes (Inference.generate_initial_config
                                      two_addresses_schema)) fk = true)
                   (foreign_keys two_addresses_schema).
Proof.
  apply generated_config_identities. by apply (bool_decide_unpack _).
Defined.

(** C6: for the table of [composite_key_catalog], whose primary key has the
    two columns [order_id] and [product_id], the extractor records
    [order_id], not [None]. *)
Lemma composite_key_records_first_column :
  ¬ (∀ cat,
       Forall (λ t, match Extractor.cat_primary_key cat (tbl_name t) with
                    | [c] => tbl_primary_key t = Some c
                    | _ => tbl_primary_key t = None
                    end)
              (tables (Extractor.extract_relational_schema cat))).
Proof.
  intros Hall. specialize (Hall composite_key_catalog).
  vm_compute in Hall. apply Forall_cons in Hall as [Hpk _]. discriminate.
Qed.

(** C7: were the foreign keys of a link table sorted by a key of their own
    before the endpoints are assigned, the result would not depend on the
    order in which the schema lists them; [founded_by_schema] and
    [founded_by_schema_swapped] list the same two foreign keys and get
    opposite endpoints. *)
Lemma link_endpoints_follow_enumeration_order :
  ¬ ∃ sort : list foreign_key → list foreign_key,
      (∀ l l', NoDup (fk_from_column <$> l) → l ≡ₚ l' → sort l = sort l')
      ∧ ∀ sd rd t,
          rd ∈ relationships (Inference.generate_initial_config sd) →
          rd_source_link_table rd = Some t →
          ∃ fk1 fk2 rest,
            sort (filter (λ f, fk_from_table f = t) (foreign_keys sd))
            = fk1 :: fk2 :: rest
            ∧ rd_from_node_table rd = fk_to_table fk1
            ∧ rd_to_node_table rd = fk_to_table fk2.
Proof.
  intros (sort & Hperm & Hall).
  destruct (Hall founded_by_schema
              (RelDef None (Some "founded_by") "HAS_PERSON" "company" "person"
                      None [])
              "founded_by") as (a1 & a2 & arest & Ha & Hfrom & _);
    [vm_compute; left|done|].
  destruct (Hall founded_by_schema_swapped
              (RelDef None (Some "founded_by") "HAS_COMPANY" "person" "company"
                      None [])
              "founded_by") as (b1 & b2 & brest & Hb & Hfrom' & _);
    [vm_compute; left|done|].
  assert (filter (λ f, fk_from_table f = "founded_by")
                 (foreign_keys founded_by_schema)
          = [ForeignKey "founded_by" "company_id" "company" "id";
             ForeignKey "founded_by" "person_id" "person" "id"]) as Hl
    by done.
  assert (filter (λ f, fk_from_table f = "founded_by")
                 (foreign_keys founded_by_schema_swapped)
          = [ForeignKey "founded_by" "person_id" "person" "id";
             ForeignKey "founded_by" "company_id" "company" "id"]) as Hl'
    by done.
  rewrite Hl in Ha. rewrite Hl' in Hb.
  rewrite (Hperm _ [ForeignKey "founded_by" "person_id" "person" "id";
                    ForeignKey "founded_by" "company_id" "company" "id"])
    in Ha.
  - rewrite Ha in Hb. injection Hb as -> _ _. simpl in *. congruence.
  - by apply (bool_decide_unpack _).
  - apply Permutation_swap.
Qed.

(** [link_table_relationship] at [founded_by_schema_swapped]: the endpoints
    follow the listed order, [person] first. *)
Lemma link_table_relationship_witness :
  ∃ rd,
    filter (λ r, rd_source_link_table r = Some "founded_by")
           (relationships (Inference.generate_initial_config
                             founded_by_schema_swapped)) = [rd]
    ∧ rd_from_node_table rd = "person"
    ∧ rd_to_node_table rd = "company"
    ∧ rd_type rd = "HAS_COMPANY"
    ∧ ∀ c v, (c, v) ∈ rd_properties rd
             ↔ v = c ∧ c ∈ ["company_id"; "person_id"]
               ∧ c ∉ fk_from_column
                       <$> [ForeignKey "founded_by" "person_id" "person" "id";
                            ForeignKey "founded_by" "company_id" "company"
                                       "id"].
Proof.
  apply (link_table_relationship founded_by_schema_swapped
           (Table "founded_by" ["company_id"; "person_id"] None)
           (ForeignKey "founded_by" "person_id" "person" "id")
           (ForeignKey "founded_by" "company_id" "company" "id") []).
  - by apply (bool_decide_unpack _).
  - by apply (bool_decide_unpack _).
  - by vm_compute.
  - reflexivity.
Defined.

(** C8: no function of what [_merge_nodes_batch] does or returns gives the
    number of rows it dropped: a batch of one null-key row and a batch of
    two both send nothing and return nothing. *)
Lemma null_key_rows_are_not_counted :
  ¬ ∃ count : @M unit unit unit () → nat,
      ∀ label id_prop (prop_list : list (gmap string value)),
        count (_merge_nodes_batch label id_prop prop_list)
        = length (filter (λ p, dict_get p id_prop = VNone) prop_list).
Proof.
  intros (count & Hcount).
  pose proof (Hcount "T" (Some "id") [∅]) as H1.
  pose proof (Hcount "T" (Some "id") [∅; ∅]) as H2.
  vm_compute in H1, H2. congruence.
Qed.

(** C9: the mapping of [keyless_config] has no identifying property, and the
    importer still executes its SELECT. *)
Lemma keyless_mapping_is_processed :
  ¬ (∀ (cfg : config) (sd : schema)
       (db : gmap string (@rdb_table unit unit unit)) nd,
       nd ∈ nodes cfg → nd_primary_key nd = None →
       SqlExecute (SelectAll (nd_source_table nd))
       ∉ trace (import_data (λ _, tt) (λ _, "") cfg sd db)).
Proof.
  intros Hall.
  apply (Hall keyless_config (Schema [] []) keyless_db
           (NodeDef "t" "T" [("c", "c")] None)); [left|done|].
  vm_compute. left.
Qed.

(** [import_node_without_key] at the mapping of [keyless_config]. *)
Lemma import_node_without_key_witness :
  import_node (λ _ : unit, tt) (λ _ : unit, "")
    (keyless_db (Float := unit)) (NodeDef "t" "T" [("c", "c")] None)
  = ([SqlExecute (SelectAll "t")],
     (λ _, tt)
       <$> run_sql (keyless_db : gmap string (@rdb_table unit unit unit))
                   (SelectAll "t")).
Proof.
  apply (import_node_without_key (λ _ : unit, tt) (λ _ : unit, "")
           keyless_db (NodeDef "t" "T" [("c", "c")] None)).
  reflexivity.
Defined.

(** [self_link_same_join_column] at the self-referencing junction table of
    [follows_schema]. *)
Lemma self_link_same_join_column_witness :
  link_fk_col follows_schema "follows" "person"
  = link_fk_col follows_schema "follows" "person"
  ∧ link_fk_col follows_schema "follows" "person"
    = fk_from_column
        <$> head (filter (λ fk, fk_from_table fk = "follows"
                                ∧ fk_to_table fk = "person")
                         (foreign_keys follows_schema))
  ∧ Forall (λ d, from_id d = to_id d)
      (written_data
         (trace (import_rel (λ _ : unit, tt) (λ _ : unit, "")
                   (Inference.generate_initial_config follows_schema)
                   follows_schema (follows_db (Float := unit))
                   (RelDef None (Some "follows") "HAS_PERSON" "person"
                           "person" None [])))).
Proof.
  apply (self_link_same_join_column (λ _ : unit, tt) (λ _ : unit, "")
           (Inference.generate_initial_config follows_schema) follows_schema
           follows_db
           (RelDef None (Some "follows") "HAS_PERSON" "person" "person"
                   None [])
           "follows"); reflexivity.
Defined.

(** The end-to-end scenario: extraction and inference over
    [founded_by_catalog] give node mappings for [company] and [person],
    none for [founded_by], and one link-table relationship of type
    [HAS_PERSON] from [company] to [person]. *)
Lemma founded_by_scenario :
  Inference.generate_initial_config
    (Extractor.extract_relational_schema founded_by_catalog)
  = Config [NodeDef "company" "Company" [("id", "id"); ("name", "name")]
                    (Some "id");
            NodeDef "person" "Person" [("id", "id"); ("name", "name")]
                    (Some "id")]
           [RelDef None (Some "founded_by") "HAS_PERSON" "company" "person"
                   None []].
Proof. by vm_compute. Qed.

(** [extractor_complete] at [founded_by_catalog]. *)
Lemma extractor_complete_witness :
  Extractor.extract_relational_schema founded_by_catalog = founded_by_schema.
Proof.
  rewrite (extractor_complete founded_by_catalog).
  - reflexivity.
  - by apply (bool_decide_unpack _).
Defined.

(** The end-to-end scenario, import half: over [founded_by_db] the importer
    leaves one node per company and person and one [HAS_PERSON]
    relationship per [founded_by] row, between the nodes keyed by the row's
    two ids; a second run changes nothing. *)
Lemma founded_by_import :
  import_into (λ _ : unit, tt) (λ _ : unit, "") (λ _, true) None
    (Inference.generate_initial_config founded_by_schema) founded_by_schema
    (founded_by_db (Float := unit)) empty_graph
  = Graph
      [GraphNode ["Company"] (<["id" := VInt 1]> {["name" := VStr "Acme"]});
       GraphNode ["Company"] (<["id" := VInt 2]> {["name" := VStr "Initech"]});
       GraphNode ["Person"] (<["id" := VInt 10]> {["name" := VStr "Ann"]});
       GraphNode ["Person"] (<["id" := VInt 11]> {["name" := VStr "Bob"]})]
      [GraphRel 0 "HAS_PERSON" 2 ∅; GraphRel 0 "HAS_PERSON" 3 ∅;
       GraphRel 1 "HAS_PERSON" 3 ∅]
  ∧ import_into (λ _ : unit, tt) (λ _ : unit, "") (λ _, true) None
      (Inference.generate_initial_config founded_by_schema) founded_by_schema
      (founded_by_db (Float := unit))
      (import_into (λ _ : unit, tt) (λ _ : unit, "") (λ _, true) None
         (Inference.generate_initial_config founded_by_schema)
         founded_by_schema (founded_by_db (Float := unit)) empty_graph)
    = import_into (λ _ : unit, tt) (λ _ : unit, "") (λ _, true) None
        (Inference.generate_initial_config founded_by_schema)
        founded_by_schema (founded_by_db (Float := unit)) empty_graph.
Proof. by vm_compute. Qed.

(** [generated_link_join_columns] at the junction table of
    [founded_by_schema]. *)
Lemma generated_link_join_columns_witness :
  link_fk_col founded_by_schema "founded_by" "company" = Some "company_id"
  ∧ link_fk_col founded_by_schema "founded_by" "person" = Some "person_id".
Proof.
  apply (generated_link_join_columns founded_by_schema "founded_by"
           (ForeignKey "founded_by" "company_id" "company" "id")
           (ForeignKey "founded_by" "person_id" "person" "id") []).
  - reflexivity.
  - simpl. congruence.
Defined.

(** [import_link_rel_data] at the junction-table configuration. *)
Lemma import_link_rel_data_witness :
  written_data
    (trace (import_rel (λ _ : unit, tt) (λ _ : unit, "")
              junction_config junction_schema_with_fks
              (junction_db (Float := unit))
              (RelDef None (Some "lt") "HAS_B" "a" "b" None [])))
  = link_datum (λ _ : unit, tt) (λ _ : unit, "")
      (RelDef None (Some "lt") "HAS_B" "a" "b" None [])
      (Some "a_id") (Some "b_id")
      <$> default []
            (run_sql (junction_db : gmap string (@rdb_table unit unit unit))
                     (SelectAll "lt"))
  ∧ Forall (λ e, rel_within_batch_size e
                 ∧ rel_statement_for
                     (NodeDef "a" "A" [("id", "id")] (Some "id"))
                     (NodeDef "b" "B" [("id", "id")] (Some "id"))
                     "HAS_B" e)
           (trace (import_rel (λ _ : unit, tt) (λ _ : unit, "")
                     junction_config junction_schema_with_fks
                     (junction_db (Float := unit))
                     (RelDef None (Some "lt") "HAS_B" "a" "b" None []))).
Proof.
  apply (import_link_rel_data (λ _ : unit, tt) (λ _ : unit, "")
           junction_config junction_schema_with_fks junction_db
           (RelDef None (Some "lt") "HAS_B" "a" "b" None []) "lt"
           (NodeDef "a" "A" [("id", "id")] (Some "id"))
           (NodeDef "b" "B" [("id", "id")] (Some "id")) "a_id" "b_id");
    try reflexivity; discriminate.
Defined.

(** [import_direct_rel_data] at the first foreign key of
    [two_addresses_schema], with the generated configuration. *)
Lemma import_direct_rel_data_witness :
  written_data
    (trace (import_rel (λ _ : unit, tt) (λ _ : unit, "")
              (Inference.generate_initial_config two_addresses_schema)
              two_addresses_schema (two_addresses_db (Float := unit))
              (Inference.direct_rel
                 (ForeignKey "orders" "bill_id" "address" "id"))))
  = direct_datum (Some "id") "bill_id"
      <$> default []
            (run_sql
               (two_addresses_db : gmap string (@rdb_table unit unit unit))
               (SelectCols "id" "bill_id" "orders"))
  ∧ Forall (λ e, rel_within_batch_size e
                 ∧ rel_statement_for
                     (Inference.node_mapping
                        (Table "orders" ["id"; "bill_id"; "ship_id"]
                               (Some "id")))
                     (Inference.node_mapping
                        (Table "address" ["id"] (Some "id")))
                     "HAS_ADDRESS" e)
           (trace (import_rel (λ _ : unit, tt) (λ _ : unit, "")
                     (Inference.generate_initial_config two_addresses_schema)
                     two_addresses_schema (two_addresses_db (Float := unit))
                     (Inference.direct_rel
                        (ForeignKey "orders" "bill_id" "address" "id")))).
Proof.
  apply (import_direct_rel_data (λ _ : unit, tt) (λ _ : unit, "")
           (Inference.generate_initial_config two_addresses_schema)
           two_addresses_schema two_addresses_db
           (Inference.direct_rel
              (ForeignKey "orders" "bill_id" "address" "id"))
           "orders.bill_id" "orders" "bill_id" []
           (Inference.node_mapping
              (Table "orders" ["id"; "bill_id"; "ship_id"] (Some "id")))
           (Inference.node_mapping (Table "address" ["id"] (Some "id"))));
    reflexivity.
Defined.

(** [import_keeps_nodes_converted] at the dated tables and an empty
    store. *)
Lemma import_keeps_nodes_converted_witness :
  nodes_converted
    (g_nodes
       (import_into (λ _ : unit, tt) (λ _ : unit, "2020-01-01")
          (λ _, true) None
          (Inference.generate_initial_config dated_schema) dated_schema
          (dated_db (Decimal := unit) (Float := unit) tt) empty_graph)).
Proof.
  apply (import_keeps_nodes_converted (λ _ : unit, tt)
           (λ _ : unit, "2020-01-01") (λ _, true) None
           (Inference.generate_initial_config dated_schema) dated_schema
           (dated_db tt) empty_graph).
  constructor.
Defined.

(** [raw_endpoints_link_nothing] at the store an import of the dated
    tables leaves and the statements of their one relationship: the
    [Event] node is keyed by the day's ISO string, the entry's [to_id] is
    the date itself. *)
Lemma raw_endpoints_link_nothing_witness :
  run_trace (λ _, true) None
    (import_into (λ _ : unit, tt) (λ _ : unit, "2020-01-01")
       (λ _, true) None
       (Inference.generate_initial_config dated_schema) dated_schema
       (dated_db (Decimal := unit) (Float := unit) tt) empty_graph)
    (trace (import_rel (λ _ : unit, tt) (λ _ : unit, "2020-01-01")
              (Inference.generate_initial_config dated_schema) dated_schema
              (dated_db (Decimal := unit) (Float := unit) tt)
              (Inference.direct_rel (ForeignKey "visit" "day" "event" "day"))))
  = import_into (λ _ : unit, tt) (λ _ : unit, "2020-01-01")
      (λ _, true) None
      (Inference.generate_initial_config dated_schema) dated_schema
      (dated_db (Decimal := unit) (Float := unit) tt) empty_graph.
Proof.
  apply raw_endpoints_link_nothing.
  - unfold nodes_converted, props_converted.
    apply (bool_decide_unpack _). by vm_compute.
  - apply (bool_decide_unpack _). by vm_compute.
  - unfold raw_endpoint. apply (bool_decide_unpack _). by vm_compute.
Defined.

(** [run_trace_wf] at the statements of an import of the junction tables
    into an empty store. *)
Lemma run_trace_wf_witness :
  graph_wf
    (run_trace (λ _, true) None empty_graph
       (trace (import_data (λ _ : unit, tt) (λ _ : unit, "")
                 junction_config junction_schema_with_fks
                 (junction_db (Float := unit))))).
Proof.
  apply run_trace_wf. split; [apply NoDup_nil_2|constructor].
Defined.

(** [import_data_stops_at_missing_table] at the junction-table
    configuration over a database without the table [b]. *)
Lemma import_data_stops_at_missing_table_witness :
  import_data (λ _ : unit, tt) (λ _ : unit, "")
    junction_config junction_schema_with_fks
    (delete "b" (junction_db (Float := unit)))
  = (trace (for_each (import_node (λ _ : unit, tt) (λ _ : unit, "")
                        (delete "b" (junction_db (Float := unit))))
              [NodeDef "a" "A" [("id", "id")] (Some "id")])
       ++ [SqlExecute (SelectAll "b")],
     None).
Proof.
  apply (import_data_stops_at_missing_table (λ _ : unit, tt) (λ _ : unit, "")
           junction_config junction_schema_with_fks
           (delete "b" junction_db)
           [NodeDef "a" "A" [("id", "id")] (Some "id")]
           (NodeDef "b" "B" [("id", "id")] (Some "id")) []).
  - reflexivity.
  - apply (bool_decide_unpack _). by vm_compute.
  - by vm_compute.
Defined.

(** [import_data_stops_at_dotless_key] at [dotless_config]. *)
Lemma import_data_stops_at_dotless_key_witness :
  import_data (λ _ : unit, tt) (λ _ : unit, "")
    dotless_config junction_schema_with_fks (junction_db (Float := unit))
  = (trace (for_each (import_node (λ _ : unit, tt) (λ _ : unit, "")
                        (junction_db (Float := unit)))
              (nodes dotless_config))
       ++ trace (for_each (import_rel (λ _ : unit, tt) (λ _ : unit, "")
                             dotless_config junction_schema_with_fks
                             (junction_db (Float := unit))) []),
     None).
Proof.
  apply (import_data_stops_at_dotless_key (λ _ : unit, tt) (λ _ : unit, "")
           dotless_config junction_schema_with_fks junction_db []
           (RelDef (Some "a_b") None "HAS_B" "a" "b" (Some "OUT") []) []).
  - by vm_compute.
  - reflexivity.
  - constructor.
  - unfold dotless_key. split_and!.
    + by eexists.
    + by eexists.
    + exists "a_b". split; [done|].
      apply (bool_decide_unpack _). by vm_compute.
Defined.

(** [import_data_abort_cause] at the junction-table configuration over a
    database without the table [b]. *)
Lemma import_data_abort_cause_witness :
  (∃ e, last (trace (import_data (λ _ : unit, tt) (λ _ : unit, "")
                       junction_config junction_schema_with_fks
                       (delete "b" (junction_db (Float := unit)))))
        = Some e
        ∧ rejected (delete "b" (junction_db (Float := unit))) e)
  ∨ Exists (dotless_key junction_config) (relationships junction_config).
Proof.
  apply (import_data_abort_cause (λ _ : unit, tt) (λ _ : unit, "")
           junction_config junction_schema_with_fks
           (delete "b" junction_db)).
  by vm_compute.
Defined.

(** [import_keeps_keys_unique] at the junction-table configuration and an
    empty store. *)
Lemma import_keeps_keys_unique_witness :
  keys_unique (node_keys junction_config)
    (g_nodes
       (import_into (λ _ : unit, tt) (λ _ : unit, "") (λ _, true) None
          junction_config junction_schema_with_fks
          (junction_db (Float := unit)) empty_graph)).
Proof.
  apply import_keeps_keys_unique.
  - unfold keys_consistent. simpl. repeat constructor; simpl; congruence.
  - constructor.
  - unfold keys_unique. simpl. repeat constructor.
Defined.

(** [imported_rows_have_nodes] at the junction-table configuration and an
    empty store. *)
Lemma imported_rows_have_nodes_witness :
  Forall (λ r, Exists (λ n, r.1.1 ∈ gn_labels n
                            ∧ gn_props n !! r.1.2 = Some (row_value r))
                 (g_nodes
                    (import_into (λ _ : unit, tt) (λ _ : unit, "")
                       (λ _, true) None
                       junction_config junction_schema_with_fks
                       (junction_db (Float := unit)) empty_graph)))
         (node_rows (λ _, true)
            (trace (import_data (λ _ : unit, tt) (λ _ : unit, "")
                      junction_config junction_schema_with_fks
                      (junction_db (Float := unit))))).
Proof.
  apply imported_rows_have_nodes.
  - unfold keys_consistent. simpl. repeat constructor; simpl; congruence.
  - constructor.
Defined.

(** [latest_row_wins] at [renamed_db]: the table gives two rows for the
    key 1, the second with a null name, and the node ends without a name. *)
Lemma latest_row_wins_witness :
  gn_props (GraphNode ["A"]
              ({["id" := VInt 1]} : gmap string (@value unit unit unit)))
    !! "name"
  = (if bool_decide ((VNone : @value unit unit unit) = VNone)
     then None else Some VNone).
Proof.
  apply (latest_row_wins (λ _ : unit, tt) (λ _ : unit, "") (λ _, true) None
           renamed_config (Schema [] []) renamed_db empty_graph
           (GraphNode ["A"] {["id" := VInt 1]})
           [("A", "id", <["id" := VInt 1]> {["name" := VStr "old"]})]
           ("A", "id", <["id" := VInt 1]> {["name" := VNone]}) []).
  - unfold keys_consistent. simpl. repeat constructor; simpl; congruence.
  - constructor.
  - apply (bool_decide_unpack _). by vm_compute.
  - by vm_compute.
  - by vm_compute.
  - constructor.
  - by vm_compute.
Defined.

(** [link_entries_are_linked] at the one relationship statement of the
    junction-table import. *)
Lemma link_entries_are_linked_witness :
  Forall (λ d, Forall (linked "HAS_B"
                         (g_rels
                            (import_into (λ _ : unit, tt) (λ _ : unit, "")
                               (λ _, true) None
                               junction_config junction_schema_with_fks
                               (junction_db (Float := unit)) empty_graph)))
                 (datum_pairs "A" "id" "B" "id"
                    (g_nodes
                       (import_into (λ _ : unit, tt) (λ _ : unit, "")
                          (λ _, true) None
                          junction_config junction_schema_with_fks
                          (junction_db (Float := unit)) empty_graph)) d))
         [RelDatum (VInt 1) (VInt 2) (Some ∅)].
Proof.
  apply link_entries_are_linked.
  - vm_compute. do 5 right. left.
  - reflexivity.
  - constructor; [by eexists|constructor].
Defined.

(** [generated_config_stops_only_on_sql] at the generated configuration of
    [founded_by_schema] over an empty database. *)
Lemma generated_config_stops_only_on_sql_witness :
  ∃ e, last (trace (import_data (λ _ : unit, tt) (λ _ : unit, "")
                      (Inference.generate_initial_config founded_by_schema)
                      founded_by_schema
                      (∅ : gmap string (@rdb_table unit unit unit))))
       = Some e
       ∧ rejected (∅ : gmap string (@rdb_table unit unit unit)) e.
Proof.
  apply (generated_config_stops_only_on_sql (λ _ : unit, tt) (λ _ : unit, "")
           founded_by_schema founded_by_schema ∅).
  by vm_compute.
Defined.

(** [extractor_stops_after_composite_key] at [mixed_key_catalog]: the
    table [customer] is not recorded and the foreign-key query raises. *)
Lemma extractor_stops_after_composite_key_witness :
  ∃ res,
    Extractor.extract_tables mixed_key_catalog
      (["product"] ++ "order_item" :: ["customer"]) [] Extractor.fresh
    = ((λ m, Table m (Extractor.cat_columns mixed_key_catalog m)
                     (head (Extractor.cat_primary_key mixed_key_catalog m)))
         <$> ["product"] ++ ["order_item"],
       res)
    ∧ res ≫= Extractor.execute_fks
               (Extractor.cat_foreign_keys mixed_key_catalog) = None.
Proof.
  apply (extractor_stops_after_composite_key mixed_key_catalog
           ["product"] "order_item" ["customer"]).
  - repeat constructor.
  - simpl. lia.
Defined.

(** [distinct_labels_rerun] at the junction-table configuration and an
    empty store. *)
Lemma distinct_labels_rerun_witness :
  import_into (λ _ : unit, tt) (λ _ : unit, "") (λ _, true) None
    junction_config junction_schema_with_fks (junction_db (Float := unit))
    (import_into (λ _, tt) (λ _, "") (λ _, true) None
       junction_config junction_schema_with_fks junction_db empty_graph)
  = import_into (λ _, tt) (λ _, "") (λ _, true) None
      junction_config junction_schema_with_fks junction_db empty_graph.
Proof.
  apply distinct_labels_rerun.
  - apply (bool_decide_unpack _). by vm_compute.
  - constructor.
Defined.

(** [null_ids_are_skipped] at a statement of two entries over the store
    the junction-table import leaves: the entry without [to_id] changes
    nothing. *)
Lemma null_ids_are_skipped_witness :
  run_call (λ _, true) None
    (import_into (λ _ : unit, tt) (λ _ : unit, "") (λ _, true) None
       junction_config junction_schema_with_fks
       (junction_db (Float := unit)) empty_graph)
    (MergeRels "A" "id" "B" "id" "HAS_B"
       [RelDatum (VInt 1) VNone (Some ∅);
        RelDatum (VInt 1) (VInt 2) (Some ∅)])
  = run_call (λ _, true) None
      (import_into (λ _ : unit, tt) (λ _ : unit, "") (λ _, true) None
         junction_config junction_schema_with_fks
         (junction_db (Float := unit)) empty_graph)
      (MergeRels "A" "id" "B" "id" "HAS_B"
         (filter (λ d, from_id d ≠ VNone ∧ to_id d ≠ VNone)
            [RelDatum (VInt 1) VNone (Some ∅);
             RelDatum (VInt 1) (VInt 2) (Some ∅)])).
Proof. apply null_ids_are_skipped. reflexivity. Defined.

(** [import_rel_batches_full] at the junction-table relationship over
    [crowded_db]: 1001 rows go out as a statement of 1000 entries and one
    of a single entry. *)
Lemma import_rel_batches_full_witness :
  Forall full_batch
    [SqlExecute (SelectAll "lt");
     GraphRun (MergeRels "A" "id" "B" "id" "HAS_B"
                 (replicate 1000
                    (RelDatum (VInt 1) (VInt 2)
                       (Some (∅ : gmap string (@value unit unit unit))))))].
Proof.
  apply (import_rel_batches_full (λ _ : unit, tt) (λ _ : unit, "")
           junction_config junction_schema_with_fks crowded_db
           (RelDef None (Some "lt") "HAS_B" "a" "b" None [])
           _ (GraphRun (MergeRels "A" "id" "B" "id" "HAS_B"
                          [RelDatum (VInt 1) (VInt 2) (Some ∅)]))).
  by vm_compute.
Defined.
